(** * code-refactor-tool: the analysis-and-rewrite engine

    A shallow embedding of [app/refactor/refactor_rules.py],
    [app/refactor/ast_analyzer.py] and the rule-application step of
    [app/main.py], with the properties of the engine stated and proved
    over it.

    Python [str] values are sequences of Unicode code points, Python
    [dict]s and [set]s keyed by strings are [gmap]s and [gset]s, and each
    [ast.NodeVisitor] subclass is a record for [self] threaded through a
    traversal that returns the (in place mutated) node. *)

From Stdlib Require Import ZArith String Ascii.
From stdpp Require Import gmap list.

Open Scope Z_scope.
Set Warnings "-register-all".

(** ** Strings *)

(** A Python string: its code points. *)
Definition pystr := list N.

(** An ASCII literal of the source. *)
Definition lit (s : string) : pystr := map N_of_ascii (list_ascii_of_string s).

Definition NL : N := 10%N.

(** [str.isspace] of one code point (CPython's [_PyUnicode_IsWhitespace]). *)
Definition isspace (c : N) : bool :=
  ((9 <=? c) && (c <=? 13) || (28 <=? c) && (c <=? 32)
   || (c =? 133) || (c =? 160) || (c =? 5760)
   || (8192 <=? c) && (c <=? 8202)
   || (c =? 8232) || (c =? 8233) || (c =? 8239) || (c =? 8287)
   || (c =? 12288))%N.

Fixpoint lstrip (s : pystr) : pystr :=
  match s with
  | c :: s' => if isspace c then lstrip s' else s
  | [] => []
  end.

(** [s.strip()] *)
Definition strip (s : pystr) : pystr := rev (lstrip (rev (lstrip s))).

(** [s.split('\n')] *)
Fixpoint split_nl (s : pystr) : list pystr :=
  match s with
  | [] => [[]]
  | c :: s' =>
      if (c =? NL)%N then [] :: split_nl s'
      else match split_nl s' with
           | l :: ls => (c :: l) :: ls
           | [] => [[c]]
           end
  end.

(** [s.startswith(p)] *)
Fixpoint startswith (s p : pystr) : bool :=
  match p, s with
  | [], _ => true
  | a :: p', b :: s' => (a =? b)%N && startswith s' p'
  | _ :: _, [] => false
  end.

Fixpoint uint_codes (d : Decimal.uint) : pystr :=
  match d with
  | Decimal.Nil => []
  | Decimal.D0 d => 48%N :: uint_codes d
  | Decimal.D1 d => 49%N :: uint_codes d
  | Decimal.D2 d => 50%N :: uint_codes d
  | Decimal.D3 d => 51%N :: uint_codes d
  | Decimal.D4 d => 52%N :: uint_codes d
  | Decimal.D5 d => 53%N :: uint_codes d
  | Decimal.D6 d => 54%N :: uint_codes d
  | Decimal.D7 d => 55%N :: uint_codes d
  | Decimal.D8 d => 56%N :: uint_codes d
  | Decimal.D9 d => 57%N :: uint_codes d
  end.

(** [str(n)] of an [int], as an f-string renders it. *)
Definition str_of_int (z : Z) : pystr :=
  match Z.to_int z with
  | Decimal.Pos d => uint_codes d
  | Decimal.Neg d => 45%N :: uint_codes d
  end.

(** ** Syntax trees: the fragment of Python's [ast] the engine inspects *)

Inductive expr_context := Load | Store | Del.
Inductive boolop := And | Or.
Inductive operator := Add | Sub | Mult | Div | Mod.
Inductive unaryop := Not | USub.
Inductive cmpop :=
  cEq | cNotEq | cLt | cLtE | cGt | cGtE | cIs | cIsNot | cIn | cNotIn.
Inductive constant :=
  CInt (z : Z) | CStr (s : pystr) | CBool (b : bool) | CNone.

Inductive expr :=
| BoolOp (op : boolop) (values : list expr)
| BinOp (left : expr) (op : operator) (right : expr)
| UnaryOp (op : unaryop) (operand : expr)
| Compare (left : expr) (ops : list cmpop) (comparators : list expr)
| Call (func : expr) (args : list expr)
| Constant (value : constant)
| Attribute (value : expr) (attr : pystr) (ctx : expr_context)
| Subscript (value : expr) (slice : expr) (ctx : expr_context)
| Name (id : pystr) (ctx : expr_context)
| Tuple (elts : list expr) (ctx : expr_context).

Inductive stmt :=
| FunctionDef (name : pystr) (args : list pystr) (body : list stmt)
    (lineno : Z) (end_lineno : option Z)
| Return (value : option expr)
| Assign (targets : list expr) (value : expr) (lineno : Z)
| For (target iter : expr) (body orelse : list stmt)
| While (test : expr) (body orelse : list stmt)
| If (test : expr) (body orelse : list stmt) (lineno : Z)
| Expr (value : expr)
| Pass.

(** [ast.Module]: its [body]. *)
Definition module := list stmt.

(** Trees are compared structurally. *)
Fixpoint expr_eq_dec (e1 e2 : expr) : {e1 = e2} + {e1 ≠ e2}.
Proof.
  decide equality;
    try (apply (List.list_eq_dec expr_eq_dec));
    try (apply (List.list_eq_dec N.eq_dec));
    try solve [decide equality];
    try (decide equality;
         solve [apply (List.list_eq_dec N.eq_dec) | apply Z.eq_dec
               | decide equality]).
Defined.

#[global] Instance expr_eq : EqDecision expr := expr_eq_dec.

Fixpoint stmt_eq_dec (s1 s2 : stmt) : {s1 = s2} + {s1 ≠ s2}.
Proof.
  decide equality;
    try (apply (List.list_eq_dec stmt_eq_dec));
    try (apply (List.list_eq_dec expr_eq_dec));
    try (apply (List.list_eq_dec (List.list_eq_dec N.eq_dec)));
    try (apply (List.list_eq_dec N.eq_dec));
    try apply Z.eq_dec; try apply expr_eq_dec;
    try (decide equality; solve [apply Z.eq_dec | apply expr_eq_dec]).
Defined.

#[global] Instance stmt_eq : EqDecision stmt := stmt_eq_dec.

(** Induction over trees whose children sit in lists. *)
Section TreeInduction.
Variable P : expr → Prop.
Hypothesis HBoolOp : ∀ op vs, Forall P vs → P (BoolOp op vs).
Hypothesis HBinOp : ∀ l op r, P l → P r → P (BinOp l op r).
Hypothesis HUnaryOp : ∀ op e, P e → P (UnaryOp op e).
Hypothesis HCompare : ∀ l ops cs, P l → Forall P cs → P (Compare l ops cs).
Hypothesis HCall : ∀ f args, P f → Forall P args → P (Call f args).
Hypothesis HConstant : ∀ c, P (Constant c).
Hypothesis HAttribute : ∀ e a ctx, P e → P (Attribute e a ctx).
Hypothesis HSubscript : ∀ e s ctx, P e → P s → P (Subscript e s ctx).
Hypothesis HName : ∀ id ctx, P (Name id ctx).
Hypothesis HTuple : ∀ es ctx, Forall P es → P (Tuple es ctx).

Fixpoint expr_ind' (e : expr) : P e :=
  let all := fix all (es : list expr) : Forall P es :=
    match es with
    | [] => Forall_nil_2 P
    | e :: es' => Forall_cons_2 P e es' (expr_ind' e) (all es')
    end in
  match e with
  | BoolOp op vs => HBoolOp op vs (all vs)
  | BinOp l op r => HBinOp l op r (expr_ind' l) (expr_ind' r)
  | UnaryOp op e => HUnaryOp op e (expr_ind' e)
  | Compare l ops cs => HCompare l ops cs (expr_ind' l) (all cs)
  | Call f args => HCall f args (expr_ind' f) (all args)
  | Constant c => HConstant c
  | Attribute e a ctx => HAttribute e a ctx (expr_ind' e)
  | Subscript e s ctx => HSubscript e s ctx (expr_ind' e) (expr_ind' s)
  | Name id ctx => HName id ctx
  | Tuple es ctx => HTuple es ctx (all es)
  end.
End TreeInduction.

Section StmtInduction.
Variable P : stmt → Prop.
Hypothesis HFunctionDef : ∀ n a b l el, Forall P b → P (FunctionDef n a b l el).
Hypothesis HReturn : ∀ v, P (Return v).
Hypothesis HAssign : ∀ ts v l, P (Assign ts v l).
Hypothesis HFor : ∀ t i b o, Forall P b → Forall P o → P (For t i b o).
Hypothesis HWhile : ∀ t b o, Forall P b → Forall P o → P (While t b o).
Hypothesis HIf : ∀ t b o l, Forall P b → Forall P o → P (If t b o l).
Hypothesis HExpr : ∀ v, P (Expr v).
Hypothesis HPass : P Pass.

Fixpoint stmt_ind' (s : stmt) : P s :=
  let all := fix all (ss : list stmt) : Forall P ss :=
    match ss with
    | [] => Forall_nil_2 P
    | s :: ss' => Forall_cons_2 P s ss' (stmt_ind' s) (all ss')
    end in
  match s with
  | FunctionDef n a b l el => HFunctionDef n a b l el (all b)
  | Return v => HReturn v
  | Assign ts v l => HAssign ts v l
  | For t i b o => HFor t i b o (all b) (all o)
  | While t b o => HWhile t b o (all b) (all o)
  | If t b o l => HIf t b o l (all b) (all o)
  | Expr v => HExpr v
  | Pass => HPass
  end.
End StmtInduction.

(** [NodeVisitor.generic_visit] over a list field: visit the items in
    order, threading the visitor. *)
Section VisitEach.
Context {A S : Type} (visit : A → S → A * S).

Fixpoint visit_each (l : list A) (self : S) : list A * S :=
  match l with
  | [] => ([], self)
  | x :: l' =>
      let (x', self1) := visit x self in
      let (l'', self2) := visit_each l' self1 in
      (x' :: l'', self2)
  end.
End VisitEach.

(** ** The parsing library

    [ast.parse] and [astor.to_source] are library code; the engine is
    parametric in them. A call either returns or raises, and a
    raised exception is seen through its class and its [str]. *)

Inductive exn := SyntaxError (msg : pystr) | OtherError (msg : pystr).

Definition str_exn (e : exn) : pystr :=
  match e with SyntaxError m | OtherError m => m end.

Record PyLib := {
  parse : pystr → exn + module;
  to_source : module → exn + pystr
}.

(** [ast.dump(node)] prints a node by its fields and leaves the position
    attributes out: two dumps are the same string exactly when the nodes
    agree up to positions. A dump is modelled by the node with its
    positions blanked. *)
Fixpoint dump (s : stmt) : stmt :=
  match s with
  | FunctionDef name args body _ _ => FunctionDef name args (map dump body) 0 None
  | Assign targets value _ => Assign targets value 0
  | For target iter body orelse => For target iter (map dump body) (map dump orelse)
  | While test body orelse => While test (map dump body) (map dump orelse)
  | If test body orelse _ => If test (map dump body) (map dump orelse) 0
  | Return _ | Expr _ | Pass => s
  end.

(** ** What a tree holds, in traversal order *)

(** The function definitions of a statement, an outer one before the
    ones in its body: name, body, [lineno] and [end_lineno]. *)
Fixpoint function_defs (s : stmt)
    : list (pystr * list stmt * Z * option Z) :=
  match s with
  | FunctionDef name _ body lineno end_lineno =>
      (name, body, lineno, end_lineno) :: flat_map function_defs body
  | For _ _ body orelse | While _ body orelse | If _ body orelse _ =>
      flat_map function_defs body ++ flat_map function_defs orelse
  | Return _ | Assign _ _ _ | Expr _ | Pass => []
  end.

(** The targets of the assignments of a statement, each with the line of
    its assignment and the name of the innermost function around it
    ([current_function] outside any function of the statement). *)
Fixpoint assignment_targets (current_function : option pystr) (s : stmt)
    : list (option pystr * Z * expr) :=
  match s with
  | FunctionDef name _ body _ _ =>
      flat_map (assignment_targets (Some name)) body
  | Assign targets _ lineno =>
      (λ target, (current_function, lineno, target)) <$> targets
  | For _ _ body orelse | While _ body orelse | If _ body orelse _ =>
      flat_map (assignment_targets current_function) body
      ++ flat_map (assignment_targets current_function) orelse
  | Return _ | Expr _ | Pass => []
  end.

(** ** [refactor_rules.extract_duplicate_functions] *)

Module Duplicates.

(** The guard of line 17: non-blank, not a comment, more than 5
    characters. *)
Definition significant (stripped : pystr) : bool :=
  negb (bool_decide (stripped = []))
  && negb (startswith stripped (lit "#"))
  && bool_decide (5 < length stripped)%nat.

(** The change record of line 19, for the 0-based index [i]. *)
Definition found_duplicate (i : nat) (stripped : pystr) : pystr :=
  lit "Found duplicate code on line " ++ str_of_int (Z.of_nat i + 1)
  ++ lit ": '" ++ take 40 stripped ++ lit "...'".

(** The loop of lines 14-21 over [enumerate(lines)], from index [i]. *)
Fixpoint scan (lines : list pystr) (i : nat)
    (seen_lines : gmap pystr nat) (changes : list pystr) : list pystr :=
  match lines with
  | [] => changes
  | line :: rest =>
      let stripped := strip line in
      if significant stripped then
        match seen_lines !! stripped with
        | Some _ => scan rest (S i) seen_lines (changes ++ [found_duplicate i stripped])
        | None => scan rest (S i) (<[stripped := i]> seen_lines) changes
        end
      else scan rest (S i) seen_lines changes
  end.

(** Nothing in the [try] block can raise on a [str]; the handler of
    line 25 is dead. *)
Definition extract_duplicate_functions (code : pystr) : pystr * list pystr :=
  (code, scan (split_nl code) 0 ∅ []).

(** The rule as the specification words it: the lines, by 0-based index
    and trimmed text, that are significant and whose trimmed text is the
    trimmed text of an earlier line. *)
Definition earlier_duplicates (lines : list pystr) : list (nat * pystr) :=
  filter (λ h, significant h.2 ∧ h.2 ∈ strip <$> take h.1 lines)
         (imap (λ i line, (i, strip line)) lines).

(** The same list, computed front to back with the lines already passed. *)
Fixpoint dups_from (pre rest : list pystr) : list (nat * pystr) :=
  match rest with
  | [] => []
  | line :: rest' =>
      (if decide (significant (strip line) ∧ strip line ∈ strip <$> pre)
       then [(length pre, strip line)] else [])
      ++ dups_from (pre ++ [line]) rest'
  end.

(** The trimmed texts of the lines the loop looks at, in line order. *)
Definition significant_texts (lines : list pystr) : list pystr :=
  filter (λ stripped, significant stripped) (strip <$> lines).

(** Trimming, said without the library: [t] is [line] less the
    whitespace at its two ends. *)
Definition trimmed (line t : pystr) : Prop :=
  ∃ before after,
    line = before ++ t ++ after
    ∧ Forall (λ c, isspace c) before ∧ Forall (λ c, isspace c) after
    ∧ (∀ c, head t = Some c → ¬ isspace c)
    ∧ (∀ c, last t = Some c → ¬ isspace c).

(** The texts the rule considers: not blank, not opening with the
    comment marker [#], more than 5 characters. *)
Definition considered (t : pystr) : Prop :=
  t ≠ [] ∧ head t ≠ Some 35%N ∧ (5 < length t)%nat.

(** Line [i] (0-based) trims to the considered text [t], and so does a
    line before it. *)
Definition repeats_earlier (lines : list pystr) (i : nat) (t : pystr) : Prop :=
  ∃ line,
    lines !! i = Some line ∧ trimmed line t ∧ considered t
    ∧ ∃ j earlier,
        (j < i)%nat ∧ lines !! j = Some earlier ∧ trimmed earlier t.

Definition result_line : pystr := lit "result = compute(x, y)".

(** A line of more than 40 characters. *)
Definition total_line : pystr :=
  lit "total = first_value + second_value + third_value".

(** A file whose repeated lines are a comment, a 5-character line, blank
    lines, [result_line] indented in two ways and [total_line]; it ends
    in [pass]. *)
Definition mixed_lines : list pystr :=
  [lit "# result = compute(x, y)";
   lit "    result = compute(x, y)";
   [];
   lit "x = 1";
   lit "# result = compute(x, y)";
   lit "x = 1";
   lit "   ";
   9%N :: result_line ++ lit "  ";
   total_line;
   lit "  " ++ total_line].

Definition mixed_file : pystr :=
  foldr (λ line rest, line ++ NL :: rest) (lit "pass") mixed_lines.

End Duplicates.

(** ** [refactor_rules.VariableRenamer] and [rename_unclear_variables] *)

Module VariableRenamer.

(** [self]. [current_function_vars] does not exist before the first
    [visit_FunctionDef]. *)
Record t := {
  changes_made : list pystr;
  renamed_vars : gmap pystr pystr;
  current_function_vars : option (gmap pystr pystr)
}.

Definition init : t :=
  {| changes_made := []; renamed_vars := ∅; current_function_vars := None |}.

Definition allow_list : list pystr :=
  lit <$> ["i"; "j"; "k"; "x"; "y"; "z"; "a"; "b"; "c"; "d"; "m"; "n"]%string.

(** The test of line 60. *)
Definition renameable (old_name : pystr) : bool :=
  bool_decide (length old_name = 1%nat)
  && negb (bool_decide (old_name ∈ allow_list)).

Definition new_name (old_name : pystr) : pystr := lit "value_" ++ old_name.

Definition renamed_msg (old_name new : pystr) : pystr :=
  lit "Renamed variable '" ++ old_name ++ lit "' to '" ++ new ++ lit "'".

(** [visit_Name] on a [Name] node with these fields. *)
Definition visit_Name (self : t) (id : pystr) (ctx : expr_context) : expr :=
  match renamed_vars self !! id, ctx with
  | Some new, Load => Name new ctx
  | _, _ => Name id ctx
  end.

(** [visit] on an expression: [visit_Name] at the names,
    [generic_visit] elsewhere. No expression changes [self]. *)
Fixpoint visit_expr (self : t) (e : expr) : expr :=
  match e with
  | BoolOp op values => BoolOp op (map (visit_expr self) values)
  | BinOp l op r => BinOp (visit_expr self l) op (visit_expr self r)
  | UnaryOp op operand => UnaryOp op (visit_expr self operand)
  | Compare l ops comparators =>
      Compare (visit_expr self l) ops (map (visit_expr self) comparators)
  | Call func args => Call (visit_expr self func) (map (visit_expr self) args)
  | Constant c => Constant c
  | Attribute v attr ctx => Attribute (visit_expr self v) attr ctx
  | Subscript v sl ctx => Subscript (visit_expr self v) (visit_expr self sl) ctx
  | Name id ctx => visit_Name self id ctx
  | Tuple elts ctx => Tuple (map (visit_expr self) elts) ctx
  end.

(** One round of the loop of lines 56-64. *)
Definition rename_target (target : expr) (self : t) : expr * t :=
  match target with
  | Name old_name ctx =>
      if renameable old_name then
        let new := new_name old_name in
        (Name new ctx,
         {| changes_made := changes_made self ++ [renamed_msg old_name new];
            renamed_vars := <[old_name := new]> (renamed_vars self);
            current_function_vars := current_function_vars self |})
      else (target, self)
  | _ => (target, self)
  end.

Fixpoint visit_stmt (s : stmt) (self : t) : stmt * t :=
  match s with
  | FunctionDef name args body lineno end_lineno =>
      let self1 :=
        {| changes_made := changes_made self;
           renamed_vars := renamed_vars self;
           current_function_vars := Some ∅ |} in
      let (body', self2) := visit_each visit_stmt body self1 in
      (FunctionDef name args body' lineno end_lineno, self2)
  | Return value => (Return (visit_expr self <$> value), self)
  | Assign targets value lineno =>
      let (targets', self1) := visit_each rename_target targets self in
      (Assign (map (visit_expr self1) targets') (visit_expr self1 value) lineno,
       self1)
  | For target iter body orelse =>
      let target' := visit_expr self target in
      let iter' := visit_expr self iter in
      let (body', self1) := visit_each visit_stmt body self in
      let (orelse', self2) := visit_each visit_stmt orelse self1 in
      (For target' iter' body' orelse', self2)
  | While test body orelse =>
      let test' := visit_expr self test in
      let (body', self1) := visit_each visit_stmt body self in
      let (orelse', self2) := visit_each visit_stmt orelse self1 in
      (While test' body' orelse', self2)
  | If test body orelse lineno =>
      let test' := visit_expr self test in
      let (body', self1) := visit_each visit_stmt body self in
      let (orelse', self2) := visit_each visit_stmt orelse self1 in
      (If test' body' orelse' lineno, self2)
  | Expr value => (Expr (visit_expr self value), self)
  | Pass => (Pass, self)
  end.

(** [renamer.visit(tree)] on a fresh renamer: the tree as mutated and
    the renamer afterwards. *)
Definition visit (tree : module) : module * t :=
  visit_each visit_stmt tree init.

(** What a load of [id] reads after the visit. *)
Definition substituted (self : t) (id : pystr) : pystr :=
  default id (renamed_vars self !! id).

(** The identifiers an expression loads, left to right. *)
Fixpoint load_names (e : expr) : list pystr :=
  match e with
  | BoolOp _ values => concat (map load_names values)
  | BinOp l _ r => load_names l ++ load_names r
  | UnaryOp _ operand => load_names operand
  | Compare l _ comparators => load_names l ++ concat (map load_names comparators)
  | Call func args => load_names func ++ concat (map load_names args)
  | Constant _ => []
  | Attribute v _ _ => load_names v
  | Subscript v sl _ => load_names v ++ load_names sl
  | Name id Load => [id]
  | Name _ _ => []
  | Tuple elts _ => concat (map load_names elts)
  end.

(** No target of an assignment is a name the rule would rename. *)
Definition clean_target (target : expr) : bool :=
  match target with
  | Name id _ => negb (renameable id)
  | _ => true
  end.

Fixpoint clean (s : stmt) : bool :=
  match s with
  | FunctionDef _ _ body _ _ => forallb clean body
  | Assign targets _ _ => forallb clean_target targets
  | For _ _ body orelse | While _ body orelse | If _ body orelse _ =>
      forallb clean body && forallb clean orelse
  | Return _ | Expr _ | Pass => true
  end.

(** What every reachable renamer satisfies: the table's keys passed the
    test of line 60. *)
Definition well_formed (self : t) : Prop :=
  ∀ old new, renamed_vars self !! old = Some new → renameable old.


Definition could_not (e : exn) : pystr :=
  lit "Could not rename variables: " ++ str_exn e.

Definition rename_unclear_variables (L : PyLib) (code : pystr)
    : pystr * list pystr :=
  match parse L code with
  | inl e => (code, [could_not e])
  | inr tree =>
      let (tree', renamer) := visit tree in
      match to_source L tree' with
      | inl e => (code, [could_not e])
      | inr refactored_code => (refactored_code, changes_made renamer)
      end
  end.

(** What the rule makes of the identifier of an assignment target. *)
Definition renamed_to (id : pystr) : pystr :=
  if renameable id then new_name id else id.

(** The letters the analyzer calls unclear and the renamer leaves alone. *)
Definition left_alone : list pystr :=
  lit <$> ["a"; "b"; "c"; "d"; "m"; "n"]%string.

End VariableRenamer.

(** ** [refactor_rules.ConditionalSimplifier] and
       [simplify_complex_conditionals] *)

Module ConditionalSimplifier.

Record t := {
  changes_made : list pystr;
  conditional_count : Z;
  new_assignments : list stmt
}.

Definition init : t :=
  {| changes_made := []; conditional_count := 0; new_assignments := [] |}.

Definition extracted_msg (var_name : pystr) : pystr :=
  lit "Extracted complex conditional to variable '" ++ var_name ++ lit "'".

(** Lines 118-135 of [visit_If]: the new test of the node and the
    visitor afterwards. *)
Definition extract_test (test : expr) (lineno : Z) (self : t) : expr * t :=
  match test with
  | BoolOp _ values =>
      if bool_decide (2 < length values)%nat then
        let count := conditional_count self + 1 in
        let var_name := lit "should_execute_" ++ str_of_int count in
        let new_assign := Assign [Name var_name Store] test lineno in
        (Name var_name Load,
         {| changes_made := changes_made self ++ [extracted_msg var_name];
            conditional_count := count;
            new_assignments := new_assignments self ++ [new_assign] |})
      else (test, self)
  | _ => (test, self)
  end.

(** Expressions hold no statement, so visiting one does nothing here. *)
Fixpoint visit_stmt (s : stmt) (self : t) : stmt * t :=
  match s with
  | FunctionDef name args body lineno end_lineno =>
      (* original_body shares its items with node.body *)
      let (original_body, self1) := visit_each visit_stmt body self in
      match new_assignments self1 with
      | [] => (FunctionDef name args original_body lineno end_lineno, self1)
      | _ :: _ =>
          (FunctionDef name args (new_assignments self1 ++ original_body)
             lineno end_lineno,
           {| changes_made := changes_made self1;
              conditional_count := conditional_count self1;
              new_assignments := [] |})
      end
  | If test body orelse lineno =>
      let (test', self1) := extract_test test lineno self in
      let (body', self2) := visit_each visit_stmt body self1 in
      let (orelse', self3) := visit_each visit_stmt orelse self2 in
      (If test' body' orelse' lineno, self3)
  | For target iter body orelse =>
      let (body', self1) := visit_each visit_stmt body self in
      let (orelse', self2) := visit_each visit_stmt orelse self1 in
      (For target iter body' orelse', self2)
  | While test body orelse =>
      let (body', self1) := visit_each visit_stmt body self in
      let (orelse', self2) := visit_each visit_stmt orelse self1 in
      (While test body' orelse', self2)
  | Return _ | Assign _ _ _ | Expr _ | Pass => (s, self)
  end.

(** [visit_Module]: [generic_visit], then the node is returned as it is. *)
Definition visit_Module (node : module) (self : t) : module * t :=
  visit_each visit_stmt node self.

(** The test of line 118. *)
Definition complex_test (test : expr) : bool :=
  match test with
  | BoolOp _ values => bool_decide (2 < length values)%nat
  | _ => false
  end.

(** No [if] of the statement has a test the rule extracts. *)
Fixpoint simple (s : stmt) : bool :=
  match s with
  | FunctionDef _ _ body _ _ => forallb simple body
  | If test body orelse _ =>
      negb (complex_test test) && forallb simple body && forallb simple orelse
  | For _ _ body orelse | While _ body orelse =>
      forallb simple body && forallb simple orelse
  | Return _ | Assign _ _ _ | Expr _ | Pass => true
  end.

(** The change records of [k] extractions made after [count] earlier
    ones. *)
Definition extractions_from (count : Z) (k : nat) : list pystr :=
  (λ i, extracted_msg (lit "should_execute_" ++ str_of_int (count + Z.of_nat i)))
    <$> seq 1 k.

Definition could_not (e : exn) : pystr :=
  lit "Could not simplify conditionals: " ++ str_exn e.

Definition simplify_complex_conditionals (L : PyLib) (code : pystr)
    : pystr * list pystr :=
  match parse L code with
  | inl e => (code, [could_not e])
  | inr tree =>
      let (modified_tree, simplifier) := visit_Module tree init in
      match to_source L modified_tree with
      | inl e => (code, [could_not e])
      | inr refactored_code => (refactored_code, changes_made simplifier)
      end
  end.

(** Every assignment waiting to be inserted is free of extractable
    tests. *)
Definition pending_simple (self : t) : Prop :=
  Forall (λ s, simple s) (new_assignments self).

(** No assignment is waiting to be inserted. *)
Definition idle (self : t) : Prop := new_assignments self = [].

End ConditionalSimplifier.

(** ** [refactor_rules.MethodExtractor] and [extract_method] *)

Module MethodExtractor.

(** [self.changes_made]; [duplicate_blocks] is never read or written. *)
Definition t := list pystr.

Definition found_msg (name : pystr) : pystr :=
  lit "Found duplicate code pattern in function '" ++ name ++ lit "'".

(** Lines 162-165. *)
Definition function_body (body : list stmt) : list stmt :=
  omap (λ item,
          match item with
          | Assign _ _ _ | Expr _ | Return _ => Some (dump item)
          | _ => None
          end) body.

(** Lines 168-173: is the [break] reached? *)
Fixpoint has_duplicate (lines seen_lines : list stmt) : bool :=
  match lines with
  | [] => false
  | line :: rest =>
      if decide (line ∈ seen_lines) then true
      else has_duplicate rest (line :: seen_lines)
  end.

Fixpoint visit_stmt (s : stmt) (self : t) : t :=
  match s with
  | FunctionDef name _ body _ _ =>
      let self1 :=
        if has_duplicate (function_body body) []
        then self ++ [found_msg name] else self in
      fold_left (λ self item, visit_stmt item self) body self1
  | For _ _ body orelse | While _ body orelse | If _ body orelse _ =>
      fold_left (λ self item, visit_stmt item self) orelse
        (fold_left (λ self item, visit_stmt item self) body self)
  | Return _ | Assign _ _ _ | Expr _ | Pass => self
  end.

Definition visit (tree : module) : t :=
  fold_left (λ self item, visit_stmt item self) tree [].

(** The record owed for a function definition, if any: two of the
    assignments, expression statements and returns directly in its body
    have the same dump. *)
Definition duplicate_report (f : pystr * list stmt * Z * option Z)
    : option pystr :=
  let '(name, body, _, _) := f in
  if decide (NoDup (function_body body)) then None else Some (found_msg name).

(** Two statements the extractor takes for the same pattern: two
    assignments of one value to the same targets, the same expression as
    a statement twice, or two returns of one value, whatever their
    lines. *)
Definition same_pattern (s s' : stmt) : Prop :=
  match s, s' with
  | Assign targets value _, Assign targets' value' _ =>
      targets = targets' ∧ value = value'
  | Expr value, Expr value' => value = value'
  | Return value, Return value' => value = value'
  | _, _ => False
  end.

(** Two statements at different places directly in [body] are the same
    pattern. *)
Definition repeats_a_pattern (body : list stmt) : Prop :=
  ∃ i j s s',
    (i < j)%nat ∧ body !! i = Some s ∧ body !! j = Some s'
    ∧ same_pattern s s'.

Definition could_not (e : exn) : pystr :=
  lit "Could not extract methods: " ++ str_exn e.

Definition extract_method (L : PyLib) (code : pystr) : pystr * list pystr :=
  match parse L code with
  | inl e => (code, [could_not e])
  | inr tree =>
      let extractor := visit tree in
      match to_source L tree with
      | inl e => (code, [could_not e])
      | inr refactored_code => (refactored_code, extractor)
      end
  end.

End MethodExtractor.

(** ** [refactor_rules.DeadCodeCleaner] and [remove_dead_code] *)

Module DeadCodeCleaner.

Record t := {
  changes_made : list pystr;
  used_vars : gset pystr
}.

Definition init : t := {| changes_made := []; used_vars := ∅ |}.

Definition unused_msg (id : pystr) : pystr :=
  lit "Found unused variable: " ++ id.

Definition visit_Name (id : pystr) (ctx : expr_context) (self : t) : t :=
  match ctx with
  | Load =>
      {| changes_made := changes_made self;
         used_vars := {[id]} ∪ used_vars self |}
  | _ => self
  end.

(** [visit] on an expression, its fields in [_fields] order. *)
Fixpoint visit_expr (e : expr) (self : t) : t :=
  match e with
  | BoolOp _ values => fold_left (λ self v, visit_expr v self) values self
  | BinOp l _ r => visit_expr r (visit_expr l self)
  | UnaryOp _ operand => visit_expr operand self
  | Compare l _ comparators =>
      fold_left (λ self v, visit_expr v self) comparators (visit_expr l self)
  | Call func args =>
      fold_left (λ self v, visit_expr v self) args (visit_expr func self)
  | Constant _ => self
  | Attribute v _ _ => visit_expr v self
  | Subscript v sl _ => visit_expr sl (visit_expr v self)
  | Name id ctx => visit_Name id ctx self
  | Tuple elts _ => fold_left (λ self v, visit_expr v self) elts self
  end.

(** One round of the loop of lines 201-203. *)
Definition check_target (self : t) (target : expr) : t :=
  match target with
  | Name id _ =>
      if decide (id ∈ used_vars self) then self
      else {| changes_made := changes_made self ++ [unused_msg id];
              used_vars := used_vars self |}
  | _ => self
  end.

Fixpoint visit_stmt (s : stmt) (self : t) : t :=
  match s with
  | FunctionDef _ _ body _ _ =>
      fold_left (λ self item, visit_stmt item self) body self
  | Return value =>
      match value with Some v => visit_expr v self | None => self end
  | Assign targets value _ =>
      let self1 := fold_left check_target targets self in
      visit_expr value (fold_left (λ self v, visit_expr v self) targets self1)
  | For target iter body orelse =>
      fold_left (λ self item, visit_stmt item self) orelse
        (fold_left (λ self item, visit_stmt item self) body
           (visit_expr iter (visit_expr target self)))
  | While test body orelse | If test body orelse _ =>
      fold_left (λ self item, visit_stmt item self) orelse
        (fold_left (λ self item, visit_stmt item self) body
           (visit_expr test self))
  | Expr value => visit_expr value self
  | Pass => self
  end.

(** [cleaner.visit(tree)] on a fresh cleaner; the tree is only read. *)
Definition visit (tree : module) : t :=
  fold_left (λ self item, visit_stmt item self) tree init.

Definition could_not (e : exn) : pystr :=
  lit "Could not remove dead code: " ++ str_exn e.

Definition remove_dead_code (L : PyLib) (code : pystr) : pystr * list pystr :=
  match parse L code with
  | inl e => (code, [could_not e])
  | inr tree =>
      let cleaner := visit tree in
      match to_source L tree with
      | inl e => (code, [could_not e])
      | inr refactored_code => (refactored_code, changes_made cleaner)
      end
  end.

(** Every identifier in load context anywhere in the tree: what the
    cleaner has collected when the traversal ends. *)
Definition load_set (tree : module) : gset pystr := used_vars (visit tree).

(** The identifiers a statement loads, in traversal order. *)
Fixpoint stmt_loads (s : stmt) : list pystr :=
  match s with
  | FunctionDef _ _ body _ _ => flat_map stmt_loads body
  | Return value =>
      match value with Some v => VariableRenamer.load_names v | None => [] end
  | Assign targets value _ =>
      flat_map VariableRenamer.load_names targets
      ++ VariableRenamer.load_names value
  | For target iter body orelse =>
      (VariableRenamer.load_names target ++ VariableRenamer.load_names iter)
      ++ flat_map stmt_loads body ++ flat_map stmt_loads orelse
  | While test body orelse | If test body orelse _ =>
      VariableRenamer.load_names test
      ++ flat_map stmt_loads body ++ flat_map stmt_loads orelse
  | Expr value => VariableRenamer.load_names value
  | Pass => []
  end.

(** The identifier of a target that is a bare name. *)
Definition name_of (target : expr) : option pystr :=
  match target with
  | Name id _ => Some id
  | _ => None
  end.

(** The bare names a statement assigns to, in traversal order. *)
Fixpoint assigned_names (s : stmt) : list pystr :=
  match s with
  | FunctionDef _ _ body _ _ => flat_map assigned_names body
  | Assign targets _ _ => omap name_of targets
  | For _ _ body orelse | While _ body orelse | If _ body orelse _ =>
      flat_map assigned_names body ++ flat_map assigned_names orelse
  | Return _ | Expr _ | Pass => []
  end.

(** What a stretch of the traversal that loads [reads] and assigns to
    [names] does to the cleaner: the loads are added to [used_vars], the
    records appended are all about names of [names], and every name of
    [names] not loaded by the end of the stretch has its record. *)
Definition stretch (reads names : list pystr) (self self' : t) : Prop :=
  used_vars self' = used_vars self ∪ list_to_set reads
  ∧ ∃ added,
      changes_made self' = changes_made self ++ added
      ∧ (∀ m, m ∈ added → ∃ id, id ∈ names ∧ m = unused_msg id)
      ∧ (∀ id, id ∈ names → id ∉ used_vars self' → unused_msg id ∈ added).

End DeadCodeCleaner.

(** ** [ast_analyzer] *)

Module CodeAnalyzer.

(** The entries of the three finding lists, a field per key. *)
Record long_function := { lf_name : pystr; lf_lines : Z; lf_line : Z }.
Record unclear_variable :=
  { uv_name : pystr; uv_line : Z; uv_context : pystr }.
Record complex_conditional := { cc_line : Z; cc_complexity : Z }.

(** The analysis [dict], restricted to the keys that are ever read:
    ["error"] is present exactly in the two handlers of [analyze_code]. *)
Record analysis := {
  error : option pystr;
  long_functions : list long_function;
  unclear_variables : list unclear_variable;
  complex_conditionals : list complex_conditional
}.

Record t := {
  the_analysis : analysis;
  current_function : option pystr
}.

Definition init : t :=
  {| the_analysis :=
       {| error := None; long_functions := []; unclear_variables := [];
          complex_conditionals := [] |};
     current_function := None |}.

Definition allow_list : list pystr :=
  lit <$> ["i"; "j"; "k"; "x"; "y"; "z"]%string.

(** [_check_conditional_complexity]. Of the child nodes of a [BoolOp]
    or [Compare], the operator nodes are neither, so they add 0. *)
Fixpoint check_conditional_complexity (node : expr) : Z :=
  match node with
  | BoolOp _ values =>
      fold_left (λ count child, count + check_conditional_complexity child)
        values (1 + 0)
  | Compare l ops comparators =>
      fold_left (λ count child, count + check_conditional_complexity child)
        comparators
        (fold_left (λ count (_ : cmpop), count + 0) ops
           (1 + check_conditional_complexity l))
  | _ => 0
  end.

Definition add_long_function (f : long_function) (self : t) : t :=
  let a := the_analysis self in
  {| the_analysis :=
       {| error := error a; long_functions := long_functions a ++ [f];
          unclear_variables := unclear_variables a;
          complex_conditionals := complex_conditionals a |};
     current_function := current_function self |}.

Definition add_unclear_variable (v : unclear_variable) (self : t) : t :=
  let a := the_analysis self in
  {| the_analysis :=
       {| error := error a; long_functions := long_functions a;
          unclear_variables := unclear_variables a ++ [v];
          complex_conditionals := complex_conditionals a |};
     current_function := current_function self |}.

Definition add_complex_conditional (c : complex_conditional) (self : t) : t :=
  let a := the_analysis self in
  {| the_analysis :=
       {| error := error a; long_functions := long_functions a;
          unclear_variables := unclear_variables a;
          complex_conditionals := complex_conditionals a ++ [c] |};
     current_function := current_function self |}.

Definition set_current_function (f : option pystr) (self : t) : t :=
  {| the_analysis := the_analysis self; current_function := f |}.

(** One round of the loop of lines 46-54. *)
Definition check_target (lineno : Z) (self : t) (target : expr) : t :=
  match target with
  | Name var_name _ =>
      if bool_decide (length var_name = 1%nat)
         && negb (bool_decide (var_name ∈ allow_list))
      then
        add_unclear_variable
          {| uv_name := var_name; uv_line := lineno;
             uv_context :=
               match current_function self with
               | Some ((_ :: _) as name) => name
               | Some [] | None => lit "global"
               end |} self
      else self
  | _ => self
  end.

(** No visitor method looks at an expression, so only statements are
    traversed. *)
Fixpoint visit_stmt (s : stmt) (self : t) : t :=
  match s with
  | FunctionDef name _ body lineno end_lineno =>
      let old_function := current_function self in
      let self1 := set_current_function (Some name) self in
      let function_lines :=
        match end_lineno with
        | Some e => if e =? 0 then 0 else e - lineno
        | None => 0
        end in
      let self2 :=
        if 15 <? function_lines then
          add_long_function
            {| lf_name := name; lf_lines := function_lines;
               lf_line := lineno |} self1
        else self1 in
      let self3 := fold_left (λ self item, visit_stmt item self) body self2 in
      set_current_function old_function self3
  | Assign targets _ lineno => fold_left (check_target lineno) targets self
  | If test body orelse lineno =>
      let complexity := check_conditional_complexity test in
      let self1 :=
        if 2 <? complexity then
          add_complex_conditional
            {| cc_line := lineno; cc_complexity := complexity |} self
        else self in
      fold_left (λ self item, visit_stmt item self) orelse
        (fold_left (λ self item, visit_stmt item self) body self1)
  | For _ _ body orelse | While _ body orelse =>
      fold_left (λ self item, visit_stmt item self) orelse
        (fold_left (λ self item, visit_stmt item self) body self)
  | Return _ | Expr _ | Pass => self
  end.

Definition visit (tree : module) : t :=
  fold_left (λ self item, visit_stmt item self) tree init.

Definition error_analysis (msg : pystr) : analysis :=
  {| error := Some msg; long_functions := []; unclear_variables := [];
     complex_conditionals := [] |}.

Definition analyze_code (L : PyLib) (code : pystr) : analysis :=
  match parse L code with
  | inr tree => the_analysis (visit tree)
  | inl (SyntaxError _ as e) => error_analysis (lit "Syntax error: " ++ str_exn e)
  | inl (OtherError _ as e) => error_analysis (lit "Analysis error: " ++ str_exn e)
  end.

(** The emoji that open the suggestion strings. *)
Definition cross_mark : N := 10060%N.
Definition straight_ruler : N := 128207%N.
Definition input_latin_letters : N := 128292%N.
Definition twisted_arrows : N := 128256%N.
Definition check_mark : N := 9989%N.

Definition get_suggestions (a : analysis) : list pystr :=
  match error a with
  | Some e => [cross_mark :: lit " " ++ e]
  | None =>
      let suggestions :=
        map (λ long_func,
               straight_ruler :: lit " Function '" ++ lf_name long_func
               ++ lit "' is " ++ str_of_int (lf_lines long_func)
               ++ lit " lines long. Consider breaking it into smaller functions.")
            (long_functions a)
        ++ map (λ var,
                  input_latin_letters :: lit " Variable '" ++ uv_name var
                  ++ lit "' has an unclear name. Use more descriptive names.")
            (unclear_variables a)
        ++ map (λ conditional,
                  twisted_arrows :: lit " Complex conditional on line "
                  ++ str_of_int (cc_line conditional)
                  ++ lit ". Consider extracting to a well-named function or variable.")
            (complex_conditionals a) in
      match suggestions with
      | [] => [check_mark :: lit " Code looks good! No major issues found."]
      | _ :: _ => suggestions
      end
  end.

(** Every [if] statement of a statement list, by line and test, in the
    order the traversal meets them. *)
Fixpoint if_statements (s : stmt) : list (Z * expr) :=
  match s with
  | FunctionDef _ _ body _ _ => flat_map if_statements body
  | If test body orelse lineno =>
      (lineno, test) :: flat_map if_statements body
      ++ flat_map if_statements orelse
  | For _ _ body orelse | While _ body orelse =>
      flat_map if_statements body ++ flat_map if_statements orelse
  | Return _ | Assign _ _ _ | Expr _ | Pass => []
  end.

(** The complexity score as the specification words it: a boolean
    operator or comparison counts 1 plus the scores of its children,
    anything else counts 0. *)
Fixpoint score (node : expr) : Z :=
  match node with
  | BoolOp _ values => 1 + foldr Z.add 0 (map score values)
  | Compare l _ comparators =>
      1 + (score l + foldr Z.add 0 (map score comparators))
  | _ => 0
  end.

(** The findings owed for a list of [if] statements: one for each whose
    test scores more than 2, with that score. *)
Definition findings (ifs : list (Z * expr)) : list complex_conditional :=
  (λ h, {| cc_line := h.1; cc_complexity := score h.2 |})
    <$> filter (λ h, 2 < score h.2) ifs.

(** [function_lines] of line 33. *)
Definition function_lines (lineno : Z) (end_lineno : option Z) : Z :=
  match end_lineno with
  | Some e => if e =? 0 then 0 else e - lineno
  | None => 0
  end.

(** The finding owed for a function definition, if any. *)
Definition long_function_of (f : pystr * list stmt * Z * option Z)
    : option long_function :=
  let '(name, _, lineno, end_lineno) := f in
  if 15 <? function_lines lineno end_lineno then
    Some {| lf_name := name; lf_lines := function_lines lineno end_lineno;
            lf_line := lineno |}
  else None.

(** The test of line 49. *)
Definition unclear (var_name : pystr) : bool :=
  bool_decide (length var_name = 1%nat)
  && negb (bool_decide (var_name ∈ allow_list)).

(** The context a finding carries: the whole name of the enclosing
    function, or "global" where there is none or its name is empty. *)
Definition context_of (current_function : option pystr) : pystr :=
  match current_function with
  | Some name => if bool_decide (name = []) then lit "global" else name
  | None => lit "global"
  end.

(** The finding owed for an assignment target, if any. *)
Definition unclear_variable_of (a : option pystr * Z * expr)
    : option unclear_variable :=
  let '(current_function, lineno, target) := a in
  match target with
  | Name var_name _ =>
      if unclear var_name then
        Some {| uv_name := var_name; uv_line := lineno;
                uv_context := context_of current_function |}
      else None
  | _ => None
  end.

(** What visiting a statement does to the unclear-variable findings and
    to [current_function]. *)
Definition uv_spec (s : stmt) (self self' : t) : Prop :=
  unclear_variables (the_analysis self')
  = unclear_variables (the_analysis self)
    ++ omap unclear_variable_of (assignment_targets (current_function self) s)
  ∧ current_function self' = current_function self.

(** The suggestion of line 102. *)
Definition no_issues : pystr :=
  check_mark :: lit " Code looks good! No major issues found.".

End CodeAnalyzer.

(** ** [code_analysis.detect_code_smells] *)

Module CodeSmells.

(** A smell [dict], a field per key. *)
Record smell := {
  smell_type : pystr;
  message : pystr;
  line : Z;
  severity : pystr
}.

Definition long_method (func : CodeAnalyzer.long_function) : smell :=
  {| smell_type := lit "LONG_METHOD";
     message := lit "Function '" ++ CodeAnalyzer.lf_name func
                ++ lit "' is too long ("
                ++ str_of_int (CodeAnalyzer.lf_lines func) ++ lit " lines)";
     line := CodeAnalyzer.lf_line func;
     severity := lit "MEDIUM" |}.

Definition unclear_variable (var : CodeAnalyzer.unclear_variable) : smell :=
  {| smell_type := lit "UNCLEAR_VARIABLE";
     message := lit "Variable '" ++ CodeAnalyzer.uv_name var
                ++ lit "' has unclear name";
     line := CodeAnalyzer.uv_line var;
     severity := lit "LOW" |}.

Definition complex_conditional (conditional : CodeAnalyzer.complex_conditional)
    : smell :=
  {| smell_type := lit "COMPLEX_CONDITIONAL";
     message := lit "Overly complex conditional logic";
     line := CodeAnalyzer.cc_line conditional;
     severity := lit "MEDIUM" |}.

(** The three loops of lines 10-36, each appending to [smells]. *)
Definition detect_code_smells (analysis : CodeAnalyzer.analysis) : list smell :=
  let smells := [] in
  let smells :=
    fold_left (λ smells func,
                 if 15 <? CodeAnalyzer.lf_lines func
                 then smells ++ [long_method func] else smells)
      (CodeAnalyzer.long_functions analysis) smells in
  let smells :=
    fold_left (λ smells var, smells ++ [unclear_variable var])
      (CodeAnalyzer.unclear_variables analysis) smells in
  let smells :=
    fold_left (λ smells conditional,
                 if 3 <? CodeAnalyzer.cc_complexity conditional
                 then smells ++ [complex_conditional conditional] else smells)
      (CodeAnalyzer.complex_conditionals analysis) smells in
  smells.

End CodeSmells.

(** The assignment targets of a tree the renamer renames, by their old
    name, in traversal order. *)
Definition renamed_names (tree : list stmt) : list pystr :=
  filter (λ id, VariableRenamer.renameable id)
    (flat_map DeadCodeCleaner.assigned_names tree).

(** What renaming [names] does to the renamer: a record each, and the
    table maps each to its new name and is otherwise as before. *)
Definition renames (names : list pystr)
    (self self' : VariableRenamer.t) : Prop :=
  VariableRenamer.changes_made self'
  = VariableRenamer.changes_made self
    ++ ((λ old, VariableRenamer.renamed_msg old (VariableRenamer.new_name old))
          <$> names)
  ∧ ∀ old,
      VariableRenamer.renamed_vars self' !! old
      = if decide (old ∈ names) then Some (VariableRenamer.new_name old)
        else VariableRenamer.renamed_vars self !! old.

(** The number of [if] statements of a tree whose test the simplifier
    extracts. *)
Definition extractable (tree : list stmt) : nat :=
  length (filter (λ h, ConditionalSimplifier.complex_test h.2)
            (flat_map CodeAnalyzer.if_statements tree)).

(** What visiting [tree] does to the simplifier's counter and records. *)
Definition counted (tree : list stmt)
    (self self' : ConditionalSimplifier.t) : Prop :=
  ConditionalSimplifier.conditional_count self'
  = ConditionalSimplifier.conditional_count self + Z.of_nat (extractable tree)
  ∧ ConditionalSimplifier.changes_made self'
    = ConditionalSimplifier.changes_made self
      ++ ConditionalSimplifier.extractions_from
           (ConditionalSimplifier.conditional_count self) (extractable tree).

(** What visiting [tree], free of function definitions, into [tree']
    does: the assignments of the tree are as before, and every
    extraction has left its assignment waiting. *)
Definition kept (tree tree' : list stmt)
    (self self' : ConditionalSimplifier.t) : Prop :=
  (∀ current, flat_map (assignment_targets current) tree'
              = flat_map (assignment_targets current) tree)
  ∧ length (ConditionalSimplifier.new_assignments self')
    = (length (ConditionalSimplifier.new_assignments self)
       + extractable tree)%nat.

(** The name of the [n]-th extraction. *)
Definition should_execute (n : Z) : pystr :=
  lit "should_execute_" ++ str_of_int n.

(** The assignments owed for the [if] statements [ifs], met after
    [count] earlier extractions: for each test the simplifier extracts,
    that test assigned to the next name, at the line of its [if]. *)
Fixpoint hoisted (count : Z) (ifs : list (Z * expr)) : list stmt :=
  match ifs with
  | [] => []
  | (lineno, test) :: rest =>
      if ConditionalSimplifier.complex_test test then
        Assign [Name (should_execute (count + 1)) Store] test lineno
        :: hoisted (count + 1) rest
      else hoisted count rest
  end.

(** The same [if] statements after the visit: each extracted test is
    now a load of its name. *)
Fixpoint renamed_tests (count : Z) (ifs : list (Z * expr))
    : list (Z * expr) :=
  match ifs with
  | [] => []
  | (lineno, test) :: rest =>
      if ConditionalSimplifier.complex_test test then
        (lineno, Name (should_execute (count + 1)) Load)
        :: renamed_tests (count + 1) rest
      else (lineno, test) :: renamed_tests count rest
  end.

(** A statement less the tests of its [if] statements. *)
Fixpoint untested (s : stmt) : stmt :=
  match s with
  | FunctionDef name args body lineno end_lineno =>
      FunctionDef name args (map untested body) lineno end_lineno
  | For target iter body orelse =>
      For target iter (map untested body) (map untested orelse)
  | While test body orelse =>
      While test (map untested body) (map untested orelse)
  | If _ body orelse lineno =>
      If (Constant CNone) (map untested body) (map untested orelse) lineno
  | Return _ | Assign _ _ _ | Expr _ | Pass => s
  end.

(** What visiting [tree], free of function definitions, into [tree']
    does: nothing but tests changes in the tree, the extracted tests are
    replaced by their names, and their assignments wait in extraction
    order behind those that waited before. *)
Definition hoists (tree tree' : list stmt)
    (self self' : ConditionalSimplifier.t) : Prop :=
  map untested tree' = map untested tree
  ∧ flat_map CodeAnalyzer.if_statements tree'
    = renamed_tests (ConditionalSimplifier.conditional_count self)
        (flat_map CodeAnalyzer.if_statements tree)
  ∧ ConditionalSimplifier.new_assignments self'
    = ConditionalSimplifier.new_assignments self
      ++ hoisted (ConditionalSimplifier.conditional_count self)
           (flat_map CodeAnalyzer.if_statements tree)
  ∧ ConditionalSimplifier.conditional_count self'
    = ConditionalSimplifier.conditional_count self
      + Z.of_nat (extractable tree).

(** Two trees the analyzer owes the same long-function and
    complex-conditional findings for. *)
Definition alike (tree tree' : list stmt) : Prop :=
  omap CodeAnalyzer.long_function_of (flat_map function_defs tree')
  = omap CodeAnalyzer.long_function_of (flat_map function_defs tree)
  ∧ CodeAnalyzer.findings (flat_map CodeAnalyzer.if_statements tree')
    = CodeAnalyzer.findings (flat_map CodeAnalyzer.if_statements tree).

(** ** [main.refactor_code] *)

Record CodeRequest := {
  code : pystr;
  refactor_options : list pystr
}.

Record RefactorResponse := {
  original_code : pystr;
  refactored_code : pystr;
  changes_made : list pystr;
  suggestions : list pystr
}.

(** The five rules, by the identifier the caller selects them with. *)
Inductive rule :=
  rename_variables | extract_duplicate | simplify_conditionals
| extract_method | remove_dead_code.

Definition rule_id (r : rule) : pystr :=
  match r with
  | rename_variables => lit "rename_variables"
  | extract_duplicate => lit "extract_duplicate"
  | simplify_conditionals => lit "simplify_conditionals"
  | extract_method => lit "extract_method"
  | remove_dead_code => lit "remove_dead_code"
  end.

Definition run_rule (L : PyLib) (r : rule) (code : pystr) : pystr * list pystr :=
  match r with
  | rename_variables => VariableRenamer.rename_unclear_variables L code
  | extract_duplicate => Duplicates.extract_duplicate_functions code
  | simplify_conditionals => ConditionalSimplifier.simplify_complex_conditionals L code
  | extract_method => MethodExtractor.extract_method L code
  | remove_dead_code => DeadCodeCleaner.remove_dead_code L code
  end.

(** One [if "..." in request.refactor_options:] block of lines 46-65. *)
Definition if_selected (L : PyLib) (options : list pystr) (r : rule)
    (acc : pystr * list pystr) : pystr * list pystr :=
  if decide (rule_id r ∈ options) then
    let (refactored_code, rule_changes) := run_rule L r acc.1 in
    (refactored_code, acc.2 ++ rule_changes)
  else acc.

(** Lines 43-65: the rule-application step. *)
Definition apply_rules (L : PyLib) (options : list pystr) (code : pystr)
    : pystr * list pystr :=
  let acc := (code, []) in
  let acc := if_selected L options rename_variables acc in
  let acc := if_selected L options extract_duplicate acc in
  let acc := if_selected L options simplify_conditionals acc in
  let acc := if_selected L options extract_method acc in
  let acc := if_selected L options remove_dead_code acc in
  acc.

Definition refactor_code (L : PyLib) (request : CodeRequest) : RefactorResponse :=
  let analysis := CodeAnalyzer.analyze_code L (code request) in
  let (refactored, changes) :=
    apply_rules L (refactor_options request) (code request) in
  let suggestions := CodeAnalyzer.get_suggestions analysis in
  {| original_code := code request;
     refactored_code := refactored;
     changes_made := changes;
     suggestions := suggestions |}.

(** The rule-application step as the specification words it: the rules
    the caller names, in the caller's order, each on the code the
    previous one produced. *)
Definition rule_of_id (id : pystr) : option rule :=
  find (λ r, bool_decide (rule_id r = id))
    [rename_variables; extract_duplicate; simplify_conditionals;
     extract_method; remove_dead_code].

Definition run_after (L : PyLib) (acc : pystr * list pystr) (r : rule)
    : pystr * list pystr :=
  let (refactored_code, rule_changes) := run_rule L r acc.1 in
  (refactored_code, acc.2 ++ rule_changes).

Definition apply_in_caller_order (L : PyLib) (options : list pystr)
    (code : pystr) : pystr * list pystr :=
  fold_left (run_after L) (omap rule_of_id options) (code, []).

(** The order the rule-application step is written in. *)
Definition internal_order : list rule :=
  [rename_variables; extract_duplicate; simplify_conditionals;
   extract_method; remove_dead_code].

(** ** A table-driven stand-in for the parsing library

    [parse] knows the listed texts and raises [err] on any other;
    [to_source] prints a listed tree as its text, wherever its nodes are
    positioned. *)

Module Fixture.

Definition stub (entries : list (pystr * module)) (err : exn) : PyLib :=
  {| parse := λ code,
       match find (λ e, bool_decide (e.1 = code)) entries with
       | Some e => inr e.2
       | None => inl err
       end;
     to_source := λ tree,
       match find (λ e, bool_decide (map dump e.2 = map dump tree)) entries with
       | Some e => inr e.1
       | None => inl (OtherError (lit "no source"))
       end |}.

(** What CPython 3.12 says of the text [(]. *)
Definition never_closed : exn :=
  SyntaxError (lit "'(' was never closed (<unknown>, line 1)").

Definition q_Store : expr := Name (lit "q") Store.
Definition q_Load : expr := Name (lit "q") Load.
Definition value_q_Store : expr := Name (lit "value_q") Store.
Definition value_q_Load : expr := Name (lit "value_q") Load.

(** [q = 1] and [value_q = 1], each a one-line module. *)
Definition q_is_1 : module := [Assign [q_Store] (Constant (CInt 1)) 1].
Definition value_q_is_1 : module := [Assign [value_q_Store] (Constant (CInt 1)) 1].

(** [a = 1], the module-level assignment of scenario 1. *)
Definition a_is_1 : module :=
  [Assign [Name (lit "a") Store] (Constant (CInt 1)) 1].
Definition value_a_is_1 : module :=
  [Assign [Name (lit "value_a") Store] (Constant (CInt 1)) 1].

(** [q = q + 1] and [value_q = value_q + 1]. *)
Definition q_plus_1 : module :=
  [Assign [q_Store] (BinOp q_Load Add (Constant (CInt 1))) 1].
Definition value_q_plus_1 : module :=
  [Assign [value_q_Store] (BinOp value_q_Load Add (Constant (CInt 1))) 1].

(** Two functions, the second reading a global [q]:
<<
def f():
    q = 1
def g():
    return q
>> *)
Definition f_binds_q (target : expr) : stmt :=
  FunctionDef (lit "f") [] [Assign [target] (Constant (CInt 1)) 2] 1 (Some 2).
Definition g_reads_q (read : expr) : stmt :=
  FunctionDef (lit "g") [] [Return (Some read)] 3 (Some 4).
Definition two_functions : module := [f_binds_q q_Store; g_reads_q q_Load].

(** [if a and b and c: pass], at module level and as the body of a
    function [f]. *)
Definition a_and_b_and_c : expr :=
  BoolOp And [Name (lit "a") Load; Name (lit "b") Load; Name (lit "c") Load].
Definition if_abc : stmt := If a_and_b_and_c [Pass] [] 1.

(** [a > 1 and b < 2] *)
Definition two_comparisons : expr :=
  BoolOp And
    [Compare (Name (lit "a") Load) [cGt] [Constant (CInt 1)];
     Compare (Name (lit "b") Load) [cLt] [Constant (CInt 2)]].
Definition if_abc_in_f : stmt :=
  FunctionDef (lit "f") [] [If a_and_b_and_c [Pass] [] 2] 1 (Some 3).
Definition should_execute_1 (ctx : expr_context) : expr :=
  Name (lit "should_execute_1") ctx.

(** [p = 1] followed by [print(p)]. *)
Definition p_is_1 : stmt := Assign [Name (lit "p") Store] (Constant (CInt 1)) 1.
Definition print_p : stmt :=
  Expr (Call (Name (lit "print") Load) [Name (lit "p") Load]).

(** A request on the unbalanced text [(] that selects every rule. *)
Definition unbalanced : CodeRequest :=
  {| code := lit "(";
     refactor_options := rule_id <$> internal_order |}.

Definition library : PyLib :=
  stub [(lit "q = 1" ++ [NL], q_is_1);
        (lit "value_q = 1" ++ [NL], value_q_is_1)] never_closed.


(** Assignments at module level, in a function and in a function nested
    in it:
<<
q = 1
def compute():
    r = 2
    def inner():
        s = 3
    t = x = 4
u, v = 5
w = 6
>> *)
Definition nested_assignments : module :=
  [Assign [q_Store] (Constant (CInt 1)) 1;
   FunctionDef (lit "compute") []
     [Assign [Name (lit "r") Store] (Constant (CInt 2)) 3;
      FunctionDef (lit "inner") []
        [Assign [Name (lit "s") Store] (Constant (CInt 3)) 5] 4 (Some 5);
      Assign [Name (lit "t") Store; Name (lit "x") Store]
        (Constant (CInt 4)) 6]
     2 (Some 6);
   Assign [Tuple [Name (lit "u") Store; Name (lit "v") Store] Store]
     (Constant (CInt 5)) 7;
   Assign [Name (lit "w") Store] (Constant (CInt 6)) 8].

(** Two extractions outside any function, around a test that is left:
<<
if a and b and c:
    pass
while x:
    if a > 1 and b < 2:
        pass
    elif a and b and c:
        pass
>> *)
Definition two_extractions : module :=
  [If a_and_b_and_c [Pass] [] 1;
   While (Name (lit "x") Load)
     [If two_comparisons [Pass] [If a_and_b_and_c [Pass] [] 6] 4] []].

(** The body of a function [g] that follows [if_abc]:
<<
def g():
    p = 1
    if a and b and c:
        pass
>> *)
Definition g_body : list stmt :=
  [Assign [Name (lit "p") Store] (Constant (CInt 1)) 4;
   If a_and_b_and_c [Pass] [] 5].
Definition g_after_if_abc : module :=
  [if_abc; FunctionDef (lit "g") [] g_body 3 (Some 6)].

(** A function whose repeated statements are neither assignments nor
    expression statements nor returns, and whose assignments, expression
    and return differ. *)
Definition no_pattern : stmt :=
  FunctionDef (lit "f") []
    [Pass; Pass; if_abc; if_abc;
     While q_Load [Pass] []; While q_Load [Pass] [];
     Assign [q_Store] (Constant (CInt 1)) 8;
     Assign [q_Store] (Constant (CInt 2)) 9;
     Assign [value_q_Store] (Constant (CInt 1)) 10;
     Expr q_Load; Return (Some q_Load)]
    1 (Some 11).

(** A function whose only repeats are inside an [if], around a function
    with a repeat directly in its body. *)
Definition pattern_in_g : stmt :=
  FunctionDef (lit "f") []
    [If q_Load [p_is_1; p_is_1] [] 2;
     FunctionDef (lit "g") [] [print_p; Pass; print_p] 5 (Some 8)]
    1 (Some 8).

End Fixture.

(** * Properties *)

(** ** The duplicate-line detector *)

Module DuplicatesFacts.
Import Duplicates.

Lemma dups_from_app pre a b :
  dups_from pre (a ++ b) = dups_from pre a ++ dups_from (pre ++ a) b.
Proof.
  revert pre. induction a as [|l a IH]; intros pre; simpl.
  - by rewrite app_nil_r.
  - rewrite IH, <- !(assoc_L (++)). done.
Qed.

Lemma earlier_duplicates_from pre rest :
  filter (λ h, significant h.2 ∧ h.2 ∈ strip <$> take h.1 (pre ++ rest))
    (imap (λ i line, (length pre + i, strip line)%nat) rest)
  = dups_from pre rest.
Proof.
  revert pre. induction rest as [|l rest IH]; intros pre; [done|].
  rewrite imap_cons, filter_cons. simpl dups_from. cbn [fst snd].
  rewrite Nat.add_0_r, take_app_length.
  specialize (IH (pre ++ [l])). rewrite <- (assoc_L (++)) in IH. simpl in IH.
  rewrite <- IH.
  assert (Heq : imap ((λ i line, (length pre + i, strip line)%nat) ∘ S) rest
                = imap (λ i line, (length (pre ++ [l]) + i, strip line)%nat) rest).
  { apply imap_ext. intros i x _. simpl. rewrite length_app. simpl. f_equal. lia. }
  rewrite Heq. destruct (decide _); done.
Qed.

Lemma earlier_duplicates_dups_from lines :
  earlier_duplicates lines = dups_from [] lines.
Proof. rewrite <- earlier_duplicates_from. done. Qed.

Lemma scan_dups_from rest : ∀ pre seen_lines changes,
  (∀ s, significant s → is_Some (seen_lines !! s) ↔ s ∈ strip <$> pre) →
  scan rest (length pre) seen_lines changes
  = changes ++ ((λ h, found_duplicate h.1 h.2) <$> dups_from pre rest).
Proof.
  induction rest as [|l rest IH]; intros pre seen changes Hinv; simpl.
  - by rewrite app_nil_r.
  - assert (Hlen : S (length pre) = length (pre ++ [l])).
    { rewrite length_app. simpl. lia. }
    destruct (significant (strip l)) eqn:Hsig.
    + destruct (seen !! strip l) as [j|] eqn:Hseen.
      * rewrite decide_True.
        2:{ split; [done|]. apply Hinv; [by rewrite Hsig|]. eauto. }
        rewrite Hlen, IH.
        -- rewrite fmap_app, <- (assoc_L (++)). done.
        -- intros s Hs. rewrite fmap_app, elem_of_app, <- Hinv by done.
           simpl. rewrite list_elem_of_singleton. split; [tauto|].
           intros [?| ->]; eauto.
      * rewrite decide_False.
        2:{ intros [_ Hin]. apply Hinv in Hin; [|by rewrite Hsig].
            rewrite Hseen in Hin. by destruct Hin. }
        rewrite Hlen, IH; [done|].
        intros s Hs. rewrite fmap_app, elem_of_app, <- Hinv by done.
        simpl. rewrite list_elem_of_singleton.
        destruct (decide (strip l = s)) as [->|Hne].
        -- rewrite lookup_insert_eq. split; eauto.
        -- rewrite lookup_insert_ne by done. split; [tauto|].
           intros [?|?]; [done|congruence].
    + rewrite decide_False by (intros [[] _]).
      rewrite Hlen, IH; [done|].
      intros s Hs. rewrite fmap_app, elem_of_app, <- Hinv by done.
      simpl. rewrite list_elem_of_singleton. split; [tauto|].
      intros [?| ->]; [done|]. rewrite Hsig in Hs. done.
Qed.

Lemma dups_from_absent t rest : ∀ pre,
  Forall (λ l, strip l ≠ t) rest →
  filter (λ h, h.2 = t) (dups_from pre rest) = [].
Proof.
  induction rest as [|l rest IH]; intros pre Hno; [done|].
  apply Forall_cons in Hno as [Hl Hrest]. simpl.
  rewrite filter_app, IH, app_nil_r by done.
  destruct (decide _); [|done].
  rewrite filter_cons_False; done.
Qed.

Lemma dups_from_twice t pre l1 mid l2 post :
  significant t → strip l1 = t → strip l2 = t →
  Forall (λ l, strip l ≠ t) (pre ++ mid ++ post) →
  filter (λ h, h.2 = t) (dups_from [] (pre ++ l1 :: mid ++ l2 :: post))
  = [((length pre + 1 + length mid)%nat, t)].
Proof.
  intros Hsig H1 H2 Hno.
  apply Forall_app in Hno as [Hpre Hno].
  apply Forall_app in Hno as [Hmid Hpost].
  rewrite dups_from_app, filter_app, dups_from_absent, app_nil_l by done.
  change (l1 :: mid ++ l2 :: post) with ([l1] ++ mid ++ [l2] ++ post).
  rewrite !dups_from_app, !filter_app.
  rewrite (dups_from_absent t mid), (dups_from_absent t post) by done.
  simpl. rewrite H1, H2, !app_nil_r.
  rewrite decide_False.
  2:{ intros [_ Hin]. apply list_elem_of_fmap in Hin as (l & Hl & Hin).
      rewrite Forall_forall in Hpre. by apply (Hpre l). }
  rewrite decide_True.
  2:{ split; [done|]. rewrite !fmap_app. simpl. rewrite H1. set_solver. }
  simpl. rewrite filter_cons_True by done. rewrite filter_nil.
  rewrite !length_app. done.
Qed.

Lemma lstrip_cut s :
  ∃ l, s = l ++ lstrip s ∧ Forall (λ c, isspace c) l
       ∧ ∀ c, head (lstrip s) = Some c → ¬ isspace c.
Proof.
  induction s as [|c s (l & Hs & Hl & Hh)]; simpl.
  - exists []. split; [done|]. split; [done|]. by intros c [=].
  - destruct (isspace c) eqn:Hc.
    + exists (c :: l). split; [simpl; by f_equal|]. split; [|done].
      constructor; [by rewrite Hc|done].
    + exists []. split; [done|]. split; [done|].
      intros c' [= <-]. rewrite Hc. by intros [].
Qed.

Lemma lstrip_spaces l u :
  Forall (λ c, isspace c) l → lstrip (l ++ u) = lstrip u.
Proof.
  induction 1 as [|c l Hc _ IH]; [done|]. simpl.
  by destruct (isspace c).
Qed.

Lemma lstrip_keeps u :
  (∀ c, head u = Some c → ¬ isspace c) → lstrip u = u.
Proof.
  destruct u as [|c u]; [done|]. simpl. intros H.
  specialize (H c eq_refl). by destruct (isspace c).
Qed.

Lemma rev_reverse {A} (l : list A) : rev l = reverse l.
Proof. apply rev_alt. Qed.

Lemma strip_trimmed line : trimmed line (strip line).
Proof.
  unfold strip.
  destruct (lstrip_cut line) as (l & Hline & Hl & Hhead).
  destruct (lstrip_cut (rev (lstrip line))) as (r & Hrev & Hr & Hlast).
  set (u := lstrip line) in *. set (v := lstrip (rev u)) in *.
  assert (Hu : u = rev v ++ rev r).
  { rewrite <- (rev_involutive u), Hrev, rev_app_distr. done. }
  exists l, (rev r). split; [by rewrite <- Hu|]. split; [done|].
  split; [by apply Forall_rev|]. split.
  - intros c Hc. apply Hhead. rewrite Hu, head_app, Hc. done.
  - intros c Hc. apply Hlast. by rewrite rev_reverse, last_reverse in Hc.
Qed.

Lemma trimmed_strip line t : trimmed line t → strip line = t.
Proof.
  intros (b & a & -> & Hb & Ha & Hhead & Hlast). unfold strip.
  rewrite lstrip_spaces by done.
  destruct t as [|c t].
  - simpl. rewrite <- (app_nil_r a), lstrip_spaces by done. done.
  - rewrite (lstrip_keeps ((c :: t) ++ a))
      by (intros c' Hc'; apply Hhead; exact Hc').
    rewrite rev_app_distr, lstrip_spaces by (by apply Forall_rev).
    rewrite (lstrip_keeps (rev (c :: t))); [apply rev_involutive|].
    intros c' Hc'. apply Hlast. by rewrite rev_reverse, head_reverse in Hc'.
Qed.

Lemma trimmed_iff line t : trimmed line t ↔ strip line = t.
Proof.
  split; [apply trimmed_strip|]. intros <-. apply strip_trimmed.
Qed.

Lemma significant_considered t : significant t ↔ considered t.
Proof.
  unfold significant, considered. destruct t as [|c t].
  - rewrite bool_decide_true by done. cbn [negb andb].
    split; [done | by intros [? _]].
  - change (lit "#") with [35%N]. cbn [startswith].
    assert (startswith t [] = true) as -> by (by destruct t).
    rewrite andb_true_r.
    rewrite bool_decide_false by done.
    destruct (N.eqb_spec 35 c) as [<-|Hne]; cbn [negb andb].
    + split; [done | by intros (_ & ? & _)].
    + rewrite bool_decide_spec. split; [|by intros (_ & _ & ?)].
      intros Hlen. split; [done|]. split; [|done]. intros [= ->]. done.
Qed.

Lemma earlier_duplicates_ordered lines :
  (earlier_duplicates lines).*1 `sublist_of` seq 0 (length lines).
Proof.
  unfold earlier_duplicates.
  etrans; [apply fmap_sublist, sublist_filter|].
  rewrite fmap_imap, (imap_ext _ (λ j _, id j)) by done.
  rewrite imap_seq_0, list_fmap_id.
  done.
Qed.

Lemma elem_of_earlier_duplicates lines i t :
  (i, t) ∈ earlier_duplicates lines ↔ repeats_earlier lines i t.
Proof.
  unfold earlier_duplicates, repeats_earlier.
  rewrite list_elem_of_filter, elem_of_lookup_imap. cbn [fst snd]. split.
  - intros [[Hsig Hin] (i' & line & [= -> ->] & Hline)].
    exists line. split; [done|]. split; [apply strip_trimmed|].
    split; [by apply significant_considered|].
    apply list_elem_of_fmap in Hin as (earlier & Heq & Hin).
    apply list_elem_of_lookup in Hin as [j Hj].
    apply lookup_take_Some in Hj as [Hj Hlt].
    exists j, earlier. split; [done|]. split; [done|].
    rewrite Heq. apply strip_trimmed.
  - intros (line & Hline & Ht & Hcons & j & earlier & Hlt & Hj & Hearlier).
    apply trimmed_strip in Ht as <-. apply trimmed_strip in Hearlier.
    split; [|by exists i, line]. split; [by apply significant_considered|].
    apply list_elem_of_fmap. exists earlier. split; [done|].
    apply list_elem_of_lookup. exists j. by apply lookup_take_Some.
Qed.

End DuplicatesFacts.

(** C6. [extract_duplicate_functions] returns the text it was given, and
    its change records are, in line order and at most one to a line, one
    for each line that trims to a considered text (not blank, not
    opening with the comment marker, more than 5 characters) to which an
    earlier line trims too; trimming takes off the whitespace at both
    ends of a line and nothing else. A record names the 1-based line
    number and quotes the first 40 characters of the trimmed text. When
    exactly two lines of a file trim to [result = compute(x, y)], exactly
    one record is about that text and it names the second of the two
    lines; the two-line file made of that line twice yields the single
    record for line 2, and in [mixed_file] the repeated comment, the
    repeated 5-character line and the blank lines yield nothing. *)
Theorem extract_duplicate_functions_flags_repeated_lines :
  (∀ code,
     Duplicates.extract_duplicate_functions code
     = (code,
        (λ h, Duplicates.found_duplicate h.1 h.2)
          <$> Duplicates.earlier_duplicates (split_nl code)))
  ∧ (∀ lines,
       (Duplicates.earlier_duplicates lines).*1
         `sublist_of` seq 0 (length lines)
       ∧ ∀ i t,
           (i, t) ∈ Duplicates.earlier_duplicates lines
           ↔ Duplicates.repeats_earlier lines i t)
  ∧ (∀ i stripped, ∃ preview,
       Duplicates.found_duplicate i stripped
       = lit "Found duplicate code on line " ++ str_of_int (Z.of_nat i + 1)
         ++ lit ": '" ++ preview ++ lit "...'"
       ∧ preview `prefix_of` stripped
       ∧ length preview = (length stripped `min` 40)%nat)
  ∧ (∀ code pre l1 mid l2 post,
       split_nl code = pre ++ l1 :: mid ++ l2 :: post →
       Duplicates.trimmed l1 Duplicates.result_line →
       Duplicates.trimmed l2 Duplicates.result_line →
       Forall (λ l, ¬ Duplicates.trimmed l Duplicates.result_line)
         (pre ++ mid ++ post) →
       ∃ hits,
         (Duplicates.extract_duplicate_functions code).2
         = (λ h, Duplicates.found_duplicate h.1 h.2) <$> hits
         ∧ filter (λ h, h.2 = Duplicates.result_line) hits
           = [((length pre + 1 + length mid)%nat, Duplicates.result_line)])
  ∧ Duplicates.extract_duplicate_functions
      (Duplicates.result_line ++ NL :: Duplicates.result_line)
    = (Duplicates.result_line ++ NL :: Duplicates.result_line,
       [lit "Found duplicate code on line 2: 'result = compute(x, y)...'"])
  ∧ Duplicates.extract_duplicate_functions Duplicates.mixed_file
    = (Duplicates.mixed_file,
       [lit "Found duplicate code on line 8: 'result = compute(x, y)...'";
        lit "Found duplicate code on line 10: "
        ++ lit "'total = first_value + second_value + thi...'"]).
Proof.
  assert (Hall : ∀ code,
     Duplicates.extract_duplicate_functions code
     = (code,
        (λ h, Duplicates.found_duplicate h.1 h.2)
          <$> Duplicates.earlier_duplicates (split_nl code))).
  { intros code. unfold Duplicates.extract_duplicate_functions.
    rewrite DuplicatesFacts.earlier_duplicates_dups_from.
    rewrite (DuplicatesFacts.scan_dups_from _ [] ∅ []); [done|].
    intros s _. rewrite lookup_empty. simpl. split.
    - intros []; done.
    - intros []%elem_of_nil. }
  split; [exact Hall|]. split; [|split; [|split; [|split]]].
  - intros lines. split.
    + apply DuplicatesFacts.earlier_duplicates_ordered.
    + apply DuplicatesFacts.elem_of_earlier_duplicates.
  - intros i stripped. exists (take 40 stripped). split; [done|]. split.
    + apply prefix_take.
    + rewrite length_take. lia.
  - intros code pre l1 mid l2 post Hsplit H1 H2 Hno.
    exists (Duplicates.earlier_duplicates (split_nl code)). split.
    + by rewrite Hall.
    + rewrite Hsplit, DuplicatesFacts.earlier_duplicates_dups_from.
      apply DuplicatesFacts.dups_from_twice.
      * by vm_compute.
      * by apply DuplicatesFacts.trimmed_strip.
      * by apply DuplicatesFacts.trimmed_strip.
      * eapply Forall_impl; [exact Hno|]. intros l Hl Heq. apply Hl.
        by apply DuplicatesFacts.trimmed_iff.
  - by vm_compute.
  - by vm_compute.
Qed.

(** The theorem at work on [mixed_file], whose two lines trimming to
    [result_line] are its lines 2 and 8 and carry different
    indentation. *)
Lemma extract_duplicate_functions_flags_repeated_lines_witness :
  split_nl Duplicates.mixed_file
  = take 1 Duplicates.mixed_lines
    ++ (lit "    " ++ Duplicates.result_line)
    :: take 5 (drop 2 Duplicates.mixed_lines)
    ++ (9%N :: Duplicates.result_line ++ lit "  ")
    :: drop 8 Duplicates.mixed_lines ++ [lit "pass"]
  ∧ ∃ hits,
      (Duplicates.extract_duplicate_functions Duplicates.mixed_file).2
      = (λ h, Duplicates.found_duplicate h.1 h.2) <$> hits
      ∧ filter (λ h, h.2 = Duplicates.result_line) hits
        = [(7%nat, Duplicates.result_line)].
Proof.
  split; [reflexivity|].
  destruct extract_duplicate_functions_flags_repeated_lines
    as (_ & _ & _ & H & _).
  apply (H Duplicates.mixed_file
           (take 1 Duplicates.mixed_lines)
           (lit "    " ++ Duplicates.result_line)
           (take 5 (drop 2 Duplicates.mixed_lines))
           (9%N :: Duplicates.result_line ++ lit "  ")
           (drop 8 Duplicates.mixed_lines ++ [lit "pass"])).
  - reflexivity.
  - exists (lit "    "), []. split; [reflexivity|].
    split; [by repeat (constructor; [by vm_compute|])|].
    split; [by constructor|].
    split; intros c Hc; vm_compute in Hc; injection Hc as <-; by vm_compute.
  - exists [9%N], (lit "  "). split; [reflexivity|].
    split; [by repeat (constructor; [by vm_compute|])|].
    split; [by repeat (constructor; [by vm_compute|])|].
    split; intros c Hc; vm_compute in Hc; injection Hc as <-; by vm_compute.
  - unfold Duplicates.mixed_lines. cbn [firstn skipn app].
    repeat (constructor;
            [intros Ht%DuplicatesFacts.trimmed_strip; by vm_compute in Ht|]).
    constructor.
Defined.

(** ** The analyzer's conditional complexity *)

Module CodeAnalyzerFacts.
Import CodeAnalyzer.

Lemma fold_left_count (f : expr → Z) children : ∀ count,
  fold_left (λ count child, count + f child) children count
  = count + foldr Z.add 0 (map f children).
Proof.
  induction children as [|c children IH]; intros count; simpl.
  - lia.
  - rewrite IH. lia.
Qed.

Lemma fold_left_ops (ops : list cmpop) : ∀ count,
  fold_left (λ count (_ : cmpop), count + 0) ops count = count.
Proof.
  induction ops as [|o ops IH]; intros count; simpl; [done|].
  rewrite IH. lia.
Qed.

Lemma check_conditional_complexity_score node :
  check_conditional_complexity node = score node.
Proof.
  induction node as [op vs IH| | |l ops cs IHl IH| | | | | |] using expr_ind';
    try done; cbn [check_conditional_complexity score].
  - rewrite fold_left_count. f_equal.
    f_equal. induction IH as [|v vs Hv _ IHvs]; simpl; [done|].
    by rewrite Hv, IHvs.
  - rewrite fold_left_count, fold_left_ops, IHl, <- Z.add_assoc. do 3 f_equal.
    induction IH as [|v vs Hv _ IHvs]; simpl; [done|].
    by rewrite Hv, IHvs.
Qed.

Lemma findings_app a b : findings (a ++ b) = findings a ++ findings b.
Proof. unfold findings. by rewrite filter_app, fmap_app. Qed.

Lemma check_targets_cc lineno targets : ∀ self,
  complex_conditionals (the_analysis (fold_left (check_target lineno) targets self)) = complex_conditionals (the_analysis self).
Proof.
  induction targets as [|tg targets IH]; intros self; simpl; [done|].
  rewrite IH. destruct tg; try done. simpl.
  by destruct (_ && _).
Qed.

Lemma visit_each_cc ss :
  Forall (λ s, ∀ self, complex_conditionals (the_analysis (visit_stmt s self))
                       = complex_conditionals (the_analysis self) ++ findings (if_statements s)) ss →
  ∀ self, complex_conditionals (the_analysis (fold_left (λ self item, visit_stmt item self) ss self))
          = complex_conditionals (the_analysis self) ++ findings (flat_map if_statements ss).
Proof.
  induction 1 as [|s ss Hs _ IH]; intros self; simpl.
  - by rewrite app_nil_r.
  - rewrite IH, Hs, findings_app, (assoc_L (++)). done.
Qed.

Lemma visit_stmt_cc s : ∀ self,
  complex_conditionals (the_analysis (visit_stmt s self)) = complex_conditionals (the_analysis self) ++ findings (if_statements s).
Proof.
  induction s as [n a b l el IHb| |ts v l|t i b o IHb IHo|t b o IHb IHo
                 |t b o l IHb IHo| |] using stmt_ind';
    intros self; cbn [visit_stmt if_statements];
    try (by rewrite app_nil_r).
  - simpl. rewrite (visit_each_cc _ IHb). by destruct (15 <? _).
  - by rewrite check_targets_cc, app_nil_r.
  - rewrite (visit_each_cc _ IHo), (visit_each_cc _ IHb), findings_app.
    by rewrite (assoc_L (++)).
  - rewrite (visit_each_cc _ IHo), (visit_each_cc _ IHb), findings_app.
    by rewrite (assoc_L (++)).
  - rewrite (visit_each_cc _ IHo), (visit_each_cc _ IHb).
    rewrite check_conditional_complexity_score.
    change ((l, t) :: ?x) with ([(l, t)] ++ x).
    rewrite !findings_app, !(assoc_L (++)). do 2 f_equal.
    unfold findings. rewrite filter_cons. simpl.
    destruct (2 <? score t) eqn:Hlt.
    + apply Z.ltb_lt in Hlt. rewrite decide_True by done. done.
    + apply Z.ltb_ge in Hlt. rewrite decide_False by lia. by rewrite app_nil_r.
Qed.

End CodeAnalyzerFacts.

(** [a and b and c] scores 1, [a > 1 and b < 2] scores 3: only the
    second is reported, on its line. *)
Example complexity_of_two_tests :
  CodeAnalyzer.check_conditional_complexity Fixture.a_and_b_and_c = 1
  ∧ CodeAnalyzer.check_conditional_complexity Fixture.two_comparisons = 3
  ∧ CodeAnalyzer.complex_conditionals
      (CodeAnalyzer.the_analysis
         (CodeAnalyzer.visit
            [Fixture.if_abc; If Fixture.two_comparisons [Pass] [] 3]))
    = [{| CodeAnalyzer.cc_line := 3; CodeAnalyzer.cc_complexity := 3 |}].
Proof. by vm_compute. Qed.

(** C7. The analyzer's complexity of an expression is the recursive
    count in which a boolean operator or a comparison is 1 plus the
    scores of its children and every other node is 0; and over any tree
    the complex-conditional findings are, in traversal order, one for
    each [if] statement whose test scores more than 2, carrying the line
    of the statement and that score, and none for the others. *)
Theorem complex_conditionals_are_the_ifs_scoring_above_2 :
  (∀ node,
     CodeAnalyzer.check_conditional_complexity node = CodeAnalyzer.score node)
  ∧ (∀ tree,
       CodeAnalyzer.complex_conditionals
         (CodeAnalyzer.the_analysis (CodeAnalyzer.visit tree))
       = (λ h, {| CodeAnalyzer.cc_line := h.1;
                  CodeAnalyzer.cc_complexity := CodeAnalyzer.score h.2 |})
           <$> filter (λ h, 2 < CodeAnalyzer.score h.2)
                 (flat_map CodeAnalyzer.if_statements tree)).
Proof.
  split; [apply CodeAnalyzerFacts.check_conditional_complexity_score|].
  intros tree. unfold CodeAnalyzer.visit.
  rewrite CodeAnalyzerFacts.visit_each_cc; [done|].
  apply Forall_forall. intros s _. apply CodeAnalyzerFacts.visit_stmt_cc.
Qed.

(** ** The variable renamer *)

Module VariableRenamerFacts.
Import VariableRenamer.



Lemma concat_map_load_names self es :
  Forall (λ e, load_names (visit_expr self e)
               = substituted self <$> load_names e) es →
  concat (map load_names (map (visit_expr self) es))
  = substituted self <$> concat (map load_names es).
Proof.
  induction 1 as [|e es He _ IH]; simpl; [done|].
  by rewrite fmap_app, He, IH.
Qed.

Lemma load_names_visit_expr self e :
  load_names (visit_expr self e) = substituted self <$> load_names e.
Proof.
  induction e as [| | | | | | | |id ctx|] using expr_ind'; simpl;
    rewrite ?fmap_app, ?concat_map_load_names by done; try congruence.
  unfold visit_Name, substituted.
  destruct (renamed_vars self !! id) eqn:Hid, ctx; simpl; by rewrite ?Hid.
Qed.

Lemma renameable_length old : renameable old → length old = 1%nat.
Proof.
  unfold renameable. intros H. apply andb_prop_elim in H as [H _].
  by apply bool_decide_unpack in H.
Qed.

Lemma new_name_not_renameable old : renameable (new_name old) = false.
Proof.
  unfold renameable, new_name. rewrite bool_decide_eq_false_2; [done|].
  rewrite length_app. simpl. lia.
Qed.

Lemma rename_target_well_formed target self :
  well_formed self → well_formed (rename_target target self).2.
Proof.
  intros Hwf. destruct target; try done. simpl.
  destruct (renameable id) eqn:Hid; [|done]. simpl.
  intros old new. simpl. destruct (decide (id = old)) as [->|Hne].
  - by rewrite Hid.
  - rewrite lookup_insert_ne by done. apply Hwf.
Qed.

Lemma rename_target_clean target self :
  clean_target (rename_target target self).1.
Proof.
  destruct target; try done. unfold rename_target.
  destruct (renameable id) eqn:Hid; cbn [fst clean_target].
  - by rewrite new_name_not_renameable.
  - by rewrite Hid.
Qed.

Lemma rename_targets targets : ∀ self,
  well_formed self →
  well_formed (visit_each rename_target targets self).2
  ∧ forallb clean_target (visit_each rename_target targets self).1.
Proof.
  induction targets as [|tg targets IH]; intros self Hwf; simpl; [done|].
  pose proof (rename_target_well_formed tg self Hwf) as Hwf1.
  pose proof (rename_target_clean tg self) as Hc.
  destruct (rename_target tg self) as [tg' self1]. simpl in *.
  specialize (IH self1 Hwf1).
  destruct (visit_each rename_target targets self1) as [targets' self2].
  simpl in *. destruct IH as [? ?]. split; [done|].
  apply andb_prop_intro. done.
Qed.

Lemma visit_expr_clean_target self target :
  well_formed self → clean_target target → clean_target (visit_expr self target).
Proof.
  intros Hwf Hc. destruct target; try done. simpl in *. unfold visit_Name.
  destruct (renamed_vars self !! id) as [new|] eqn:Hid; [|done].
  apply Hwf in Hid. by destruct (renameable id).
Qed.

Lemma visit_each_stmts ss (P : stmt → Prop) (Q : t → Prop) :
  Forall (λ s, ∀ self, Q self → P (visit_stmt s self).1 ∧ Q (visit_stmt s self).2) ss →
  ∀ self, Q self →
    Forall P (visit_each visit_stmt ss self).1 ∧ Q (visit_each visit_stmt ss self).2.
Proof.
  induction 1 as [|s ss Hs _ IH]; intros self HQ; simpl; [done|].
  specialize (Hs self HQ). destruct (visit_stmt s self) as [s' self1].
  simpl in Hs. destruct Hs as [Hs HQ1]. specialize (IH self1 HQ1).
  destruct (visit_each visit_stmt ss self1) as [ss' self2]. simpl in *.
  destruct IH. split; [by constructor|done].
Qed.

Lemma forallb_Forall {A} (f : A → bool) l : Forall (λ x, f x) l → forallb f l.
Proof.
  induction 1 as [|x l Hx _ IH]; simpl; [done|]. by apply andb_prop_intro.
Qed.

Lemma Forall_forallb {A} (f : A → bool) l : forallb f l → Forall (λ x, f x) l.
Proof.
  induction l as [|x l IH]; simpl; [done|].
  intros [? ?]%andb_prop_elim. constructor; auto.
Qed.

(** One block of a compound statement: bring the induction hypothesis
    for its statements to the renamer the block is visited with. *)
Ltac clean_block IH :=
  match goal with
  | |- context [visit_each visit_stmt ?ss ?r] =>
      apply (visit_each_stmts ss (λ s, clean s) well_formed) with (self := r)
        in IH; [|done];
      destruct (visit_each visit_stmt ss r); cbn [fst snd] in *;
      destruct IH as [?%forallb_Forall ?]
  end.

Lemma visit_stmt_clean s : ∀ self,
  well_formed self →
  clean (visit_stmt s self).1 ∧ well_formed (visit_stmt s self).2.
Proof.
  induction s as [n a b l el IHb|v|ts v l|tg i b o IHb IHo|tst b o IHb IHo
                 |tst b o l IHb IHo|v|] using stmt_ind';
    intros self Hwf; cbn [visit_stmt]; try done.
  - clean_block IHb. done.
  - destruct (rename_targets ts self Hwf) as [Hwf1 Hc].
    destruct (visit_each rename_target ts self) as [ts' self1]. simpl in *.
    split; [|done]. apply forallb_Forall, Forall_forall.
    intros x [y [-> Hy]]%list_elem_of_fmap.
    apply visit_expr_clean_target; [done|].
    apply Forall_forallb in Hc. rewrite Forall_forall in Hc. by apply Hc.
  - clean_block IHb. clean_block IHo. split; [by apply andb_prop_intro|done].
  - clean_block IHb. clean_block IHo. split; [by apply andb_prop_intro|done].
  - clean_block IHb. clean_block IHo. split; [by apply andb_prop_intro|done].
Qed.






Lemma visit_clean tree : forallb clean (visit tree).1.
Proof.
  unfold visit. apply forallb_Forall.
  apply (visit_each_stmts tree (λ s, clean s) well_formed); [|done].
  apply Forall_forall. intros s _. apply visit_stmt_clean.
Qed.






Lemma rename_target_keeps target self old :
  renamed_vars self !! old = Some (new_name old) →
  renamed_vars (rename_target target self).2 !! old = Some (new_name old).
Proof.
  intros Hold. destruct target; try done. unfold rename_target.
  destruct (renameable id); [|done]. cbn [snd renamed_vars].
  destruct (decide (id = old)) as [->|Hne].
  - by rewrite lookup_insert_eq.
  - by rewrite lookup_insert_ne.
Qed.

Lemma rename_targets_keep targets : ∀ self old,
  renamed_vars self !! old = Some (new_name old) →
  renamed_vars (visit_each rename_target targets self).2 !! old
  = Some (new_name old).
Proof.
  induction targets as [|tg targets IH]; intros self old Hold; [done|].
  cbn [visit_each].
  pose proof (rename_target_keeps tg self old Hold) as H1.
  destruct (rename_target tg self) as [tg' self1].
  specialize (IH self1 old H1).
  by destruct (visit_each rename_target targets self1).
Qed.

Lemma rename_targets_record targets : ∀ self old ctx,
  Name old ctx ∈ targets → renameable old →
  renamed_vars (visit_each rename_target targets self).2 !! old
  = Some (new_name old).
Proof.
  induction targets as [|tg targets IH]; intros self old ctx Hin Hold;
    [by apply elem_of_nil in Hin|].
  cbn [visit_each]. apply elem_of_cons in Hin as [<-|Hin].
  - unfold rename_target at 1. destruct (renameable old); [|done].
    match goal with |- context [visit_each _ _ ?r] => 
      pose proof (rename_targets_keep targets r old) as Hk end.
    cbn [renamed_vars] in Hk. rewrite lookup_insert_eq in Hk.
    specialize (Hk eq_refl).
    by destruct (visit_each rename_target targets _).
  - destruct (rename_target tg self) as [tg' self1].
    specialize (IH self1 old ctx Hin Hold).
    by destruct (visit_each rename_target targets self1).
Qed.

End VariableRenamerFacts.

(** C10. When a target of an assignment is a name the rule renames, the
    table holds the new name before the right-hand side is visited: the
    value of the rewritten assignment is the value as visited under the
    table that already maps the old name to the new one, so each of its
    loads of the old name reads the new name. [q = q + 1] becomes
    [value_q = value_q + 1]. *)
Theorem assignment_value_sees_its_own_rename :
  (∀ self targets value lineno old ctx,
     Name old ctx ∈ targets →
     VariableRenamer.renameable old →
     ∃ targets' self',
       VariableRenamer.visit_stmt (Assign targets value lineno) self
       = (Assign targets' (VariableRenamer.visit_expr self' value) lineno, self')
       ∧ VariableRenamer.renamed_vars self' !! old
         = Some (VariableRenamer.new_name old)
       ∧ VariableRenamer.load_names (VariableRenamer.visit_expr self' value)
         = VariableRenamer.substituted self'
             <$> VariableRenamer.load_names value
       ∧ VariableRenamer.substituted self' old = VariableRenamer.new_name old)
  ∧ (VariableRenamer.visit Fixture.q_plus_1).1 = Fixture.value_q_plus_1.
Proof.
  split; [|by vm_compute].
  intros self targets value lineno old ctx Hin Hold.
  pose proof (VariableRenamerFacts.rename_targets_record
                targets self old ctx Hin Hold) as Hrec.
  cbn [VariableRenamer.visit_stmt].
  destruct (visit_each VariableRenamer.rename_target targets self)
    as [targets' self1].
  cbn [snd] in Hrec.
  exists (map (VariableRenamer.visit_expr self1) targets'), self1.
  split; [done|]. split; [done|]. split.
  - apply VariableRenamerFacts.load_names_visit_expr.
  - unfold VariableRenamer.substituted. by rewrite Hrec.
Qed.

(** The theorem at work on [q = q + 1], from a fresh renamer. *)
Lemma assignment_value_sees_its_own_rename_witness :
  Fixture.q_Store ∈ [Fixture.q_Store]
  ∧ VariableRenamer.renameable (lit "q")
  ∧ ∃ targets' self',
      VariableRenamer.visit_stmt
        (Assign [Fixture.q_Store]
           (BinOp Fixture.q_Load Add (Constant (CInt 1))) 1)
        VariableRenamer.init
      = (Assign targets'
           (VariableRenamer.visit_expr self'
              (BinOp Fixture.q_Load Add (Constant (CInt 1)))) 1, self')
      ∧ VariableRenamer.renamed_vars self' !! lit "q"
        = Some (VariableRenamer.new_name (lit "q"))
      ∧ VariableRenamer.load_names
          (VariableRenamer.visit_expr self'
             (BinOp Fixture.q_Load Add (Constant (CInt 1))))
        = VariableRenamer.substituted self'
            <$> VariableRenamer.load_names
                  (BinOp Fixture.q_Load Add (Constant (CInt 1)))
      ∧ VariableRenamer.substituted self' (lit "q")
        = VariableRenamer.new_name (lit "q").
Proof.
  assert (Hin : Fixture.q_Store ∈ [Fixture.q_Store]) by (by left).
  assert (Hq : VariableRenamer.renameable (lit "q")) by (by vm_compute).
  split; [exact Hin|]. split; [exact Hq|].
  exact (proj1 assignment_value_sees_its_own_rename
           VariableRenamer.init [Fixture.q_Store]
           (BinOp Fixture.q_Load Add (Constant (CInt 1))) 1
           (lit "q") Store Hin Hq).
Defined.

(** C4, as the code has it. [a] is on the rule's allow-list: the
    module [a = 1] comes back as it is, with no change record. A
    single-character target off the allow-list is renamed: for any such
    character the module comes back assigning [value_<c>], with the one
    change record naming both; so [q = 1] becomes [value_q = 1] with
    "Renamed variable 'q' to 'value_q'". *)
Theorem single_letter_assignment_renamed_unless_allowed :
  (∀ c value lineno,
     let old := [c] in
     VariableRenamer.visit [Assign [Name old Store] (Constant value) lineno]
     = if VariableRenamer.renameable old then
         ([Assign [Name (lit "value_" ++ old) Store] (Constant value) lineno],
          {| VariableRenamer.changes_made :=
               [lit "Renamed variable '" ++ old ++ lit "' to '"
                ++ (lit "value_" ++ old) ++ lit "'"];
             VariableRenamer.renamed_vars := {[ old := lit "value_" ++ old ]};
             VariableRenamer.current_function_vars := None |})
       else
         ([Assign [Name old Store] (Constant value) lineno],
          VariableRenamer.init))
  ∧ VariableRenamer.visit Fixture.a_is_1
    = (Fixture.a_is_1, VariableRenamer.init)
  ∧ (VariableRenamer.visit Fixture.q_is_1).1 = Fixture.value_q_is_1
  ∧ VariableRenamer.changes_made (VariableRenamer.visit Fixture.q_is_1).2
    = [lit "Renamed variable 'q' to 'value_q'"].
Proof.
  split; [|by vm_compute].
  intros c value lineno old. unfold VariableRenamer.visit.
  cbn [visit_each VariableRenamer.visit_stmt VariableRenamer.rename_target].
  destruct (VariableRenamer.renameable old) eqn:Hold; [|done].
  cbn [map VariableRenamer.visit_expr VariableRenamer.visit_Name].
  cbn [VariableRenamer.renamed_vars VariableRenamer.init
       VariableRenamer.changes_made VariableRenamer.current_function_vars].
  rewrite insert_empty. unfold VariableRenamer.visit_Name.
  by destruct (_ !! _).
Qed.

(** C4 fails as stated: on [a = 1] the rule neither produces
    [value_a = 1] nor records the rename. *)
Lemma a_is_1_is_not_renamed :
  (VariableRenamer.visit Fixture.a_is_1).1 ≠ Fixture.value_a_is_1
  ∧ lit "Renamed variable 'a' to 'value_a'"
    ∉ VariableRenamer.changes_made (VariableRenamer.visit Fixture.a_is_1).2.
Proof.
  split.
  - vm_compute. discriminate.
  - vm_compute. intros H. inversion H.
Qed.

(** C1, on the code. The rename of [q] inside [f] is still in the
    table when [g] is visited ([visit_FunctionDef] empties
    [current_function_vars], which nothing reads, and leaves
    [renamed_vars] as it is): the load of [q] in [g] is rewritten. *)
Theorem rename_in_one_function_rewrites_another :
  (VariableRenamer.visit Fixture.two_functions).1
  = [Fixture.f_binds_q Fixture.value_q_Store;
     Fixture.g_reads_q Fixture.value_q_Load]
  ∧ VariableRenamer.changes_made (VariableRenamer.visit Fixture.two_functions).2
    = [lit "Renamed variable 'q' to 'value_q'"].
Proof. by vm_compute. Qed.




(** ** The conditional simplifier and the dead-code cleaner *)

(** C3, on the code. At module level the test of
    [if a and b and c: pass] is replaced by the name [should_execute_1]
    and the change is recorded, but the assignment that defines the name
    is left in the visitor's [new_assignments] and never put in the tree:
    the output is the [if] alone. Only [visit_FunctionDef] inserts
    pending assignments, as it does for the same [if] inside a
    function. *)
Theorem module_level_extraction_drops_the_assignment :
  let run := ConditionalSimplifier.visit_Module [Fixture.if_abc]
               ConditionalSimplifier.init in
  run.1 = [If (Fixture.should_execute_1 Load) [Pass] [] 1]
  ∧ ConditionalSimplifier.new_assignments run.2
    = [Assign [Fixture.should_execute_1 Store] Fixture.a_and_b_and_c 1]
  ∧ ConditionalSimplifier.changes_made run.2
    = [lit "Extracted complex conditional to variable 'should_execute_1'"]
  ∧ (ConditionalSimplifier.visit_Module [Fixture.if_abc_in_f]
       ConditionalSimplifier.init).1
    = [FunctionDef (lit "f") []
         [Assign [Fixture.should_execute_1 Store] Fixture.a_and_b_and_c 2;
          If (Fixture.should_execute_1 Load) [Pass] [] 2] 1 (Some 3)].
Proof. by vm_compute. Qed.

(** C5, on the code. The cleaner tests a target against the loads met
    so far in the traversal, not against the loads of the whole tree:
    in [p = 1; print(p)] the target [p] is reported as unused although
    [p] is loaded by the next statement, and is in the cleaner's own
    [used_vars] when the traversal ends. With the two statements in the
    other order nothing is reported. *)
Theorem target_loaded_later_is_flagged_unused :
  let cleaner := DeadCodeCleaner.visit [Fixture.p_is_1; Fixture.print_p] in
  DeadCodeCleaner.changes_made cleaner = [lit "Found unused variable: p"]
  ∧ lit "p" ∈ DeadCodeCleaner.load_set [Fixture.p_is_1; Fixture.print_p]
  ∧ DeadCodeCleaner.changes_made
      (DeadCodeCleaner.visit [Fixture.print_p; Fixture.p_is_1]) = [].
Proof.
  split; [by vm_compute|]. split; [|by vm_compute].
  apply (bool_decide_unpack _). by vm_compute.
Qed.

(** ** The request *)

Module RequestFacts.

Lemma run_rule_on_unparseable L r code e :
  parse L code = inl e → (run_rule L r code).1 = code.
Proof.
  intros He. destruct r; simpl; try done.
  - unfold VariableRenamer.rename_unclear_variables. by rewrite He.
  - unfold ConditionalSimplifier.simplify_complex_conditionals. by rewrite He.
  - unfold MethodExtractor.extract_method. by rewrite He.
  - unfold DeadCodeCleaner.remove_dead_code. by rewrite He.
Qed.

Lemma if_selected_on_unparseable L options r acc e :
  parse L acc.1 = inl e → (if_selected L options r acc).1 = acc.1.
Proof.
  intros He. unfold if_selected. destruct (decide _); [|done].
  pose proof (run_rule_on_unparseable L r acc.1 e He) as Hr.
  by destruct (run_rule L r acc.1).
Qed.

Lemma apply_rules_in_internal_order L options code :
  apply_rules L options code
  = fold_left (run_after L)
      (filter (λ r, rule_id r ∈ options) internal_order) (code, []).
Proof.
  unfold apply_rules, internal_order, if_selected.
  rewrite !filter_cons, filter_nil.
  destruct (decide (rule_id rename_variables ∈ options));
    destruct (decide (rule_id extract_duplicate ∈ options));
    destruct (decide (rule_id simplify_conditionals ∈ options));
    destruct (decide (rule_id extract_method ∈ options));
    destruct (decide (rule_id remove_dead_code ∈ options));
    reflexivity.
Qed.

Lemma selected_rules_same_elements (options options' : list pystr) :
  (∀ id, id ∈ options ↔ id ∈ options') →
  filter (λ r, rule_id r ∈ options) internal_order
  = filter (λ r, rule_id r ∈ options') internal_order.
Proof.
  intros H. induction internal_order as [|r rs IH]; [done|].
  rewrite !filter_cons, IH.
  destruct (decide (rule_id r ∈ options)) as [Hr|Hr];
    destruct (decide (rule_id r ∈ options')) as [Hr'|Hr']; try done.
  - by apply H in Hr.
  - by apply H in Hr'.
Qed.

End RequestFacts.

(** A whole request: [q = 1] with the renamer selected. The analysis
    is of the text as received, so the suggestion still speaks of [q]. *)
Example request_renaming_q :
  refactor_code Fixture.library
    {| code := lit "q = 1" ++ [NL];
       refactor_options := [rule_id rename_variables] |}
  = {| original_code := lit "q = 1" ++ [NL];
       refactored_code := lit "value_q = 1" ++ [NL];
       changes_made := [lit "Renamed variable 'q' to 'value_q'"];
       suggestions :=
         [CodeAnalyzer.input_latin_letters
          :: lit " Variable 'q' has an unclear name. Use more descriptive names."] |}.
Proof. by vm_compute. Qed.

(** C2, as the code has it. The rule-application step runs each of the
    five rules at most once, exactly those whose identifier occurs in
    the caller's list, in the fixed order [rename_variables],
    [extract_duplicate], [simplify_conditionals], [extract_method],
    [remove_dead_code], each on the code the previously run rule
    produced and with the change records appended in that order. The
    order and the multiplicity of the caller's list have no effect. *)
Theorem rules_run_in_internal_order :
  ∀ L options code,
    apply_rules L options code
    = fold_left (run_after L)
        (filter (λ r, rule_id r ∈ options) internal_order) (code, [])
    ∧ apply_rules L (reverse options) code = apply_rules L options code
    ∧ apply_rules L (options ++ options) code = apply_rules L options code.
Proof.
  intros L options code.
  rewrite !RequestFacts.apply_rules_in_internal_order.
  split; [done|]. split; f_equal.
  - apply RequestFacts.selected_rules_same_elements. intros id.
    apply elem_of_reverse.
  - apply RequestFacts.selected_rules_same_elements. intros id.
    rewrite elem_of_app. tauto.
Qed.

(** C2 fails as stated: asked for [simplify_conditionals] and then
    [rename_variables] on the text [(], which does not parse, the step
    records the renamer's diagnostic first and the simplifier's second;
    running the two rules in the caller's order records them the other
    way round. *)
Lemma caller_order_is_not_followed :
  let options := [rule_id simplify_conditionals; rule_id rename_variables] in
  apply_rules Fixture.library options (lit "(")
  = (lit "(",
     [lit "Could not rename variables: '(' was never closed (<unknown>, line 1)";
      lit "Could not simplify conditionals: '(' was never closed (<unknown>, line 1)"])
  ∧ apply_in_caller_order Fixture.library options (lit "(")
    = (lit "(",
       [lit "Could not simplify conditionals: '(' was never closed (<unknown>, line 1)";
        lit "Could not rename variables: '(' was never closed (<unknown>, line 1)"])
  ∧ apply_rules Fixture.library options (lit "(")
    ≠ apply_in_caller_order Fixture.library options (lit "(").
Proof.
  split; [by vm_compute|]. split; [by vm_compute|].
  vm_compute. discriminate.
Qed.

(** C9. When the text of a request does not parse, the response still
    comes: its refactored text is the original text whatever rules were
    selected, its suggestions are exactly one entry, the error marker
    followed by the description of the error, and the analysis carries
    the error with empty long-function, unclear-variable and
    complex-conditional lists. *)
Theorem unparseable_request_is_answered :
  ∀ L request e,
    parse L (code request) = inl e →
    let response := refactor_code L request in
    let analysis := CodeAnalyzer.analyze_code L (code request) in
    original_code response = code request
    ∧ refactored_code response = code request
    ∧ suggestions response
      = [CodeAnalyzer.cross_mark :: lit " "
         ++ match e with
            | SyntaxError msg => lit "Syntax error: " ++ msg
            | OtherError msg => lit "Analysis error: " ++ msg
            end]
    ∧ CodeAnalyzer.long_functions analysis = []
    ∧ CodeAnalyzer.unclear_variables analysis = []
    ∧ CodeAnalyzer.complex_conditionals analysis = [].
Proof.
  intros L [text options] e He. cbn [code] in He.
  assert (Hstep : ∀ r acc,
            acc.1 = text → (if_selected L options r acc).1 = text).
  { intros r acc Hacc.
    rewrite (RequestFacts.if_selected_on_unparseable _ _ _ _ e); [done|].
    by rewrite Hacc. }
  assert (Htext : (apply_rules L options text).1 = text).
  { unfold apply_rules. by repeat apply Hstep. }
  unfold refactor_code. cbn [code refactor_options].
  destruct (apply_rules L options text) as [refactored changes].
  cbn [fst] in Htext. subst refactored.
  unfold CodeAnalyzer.analyze_code. rewrite He.
  by destruct e.
Qed.

(** The theorem at work on the text [(] with every rule selected. *)
Lemma unparseable_request_is_answered_witness :
  parse Fixture.library (code Fixture.unbalanced) = inl Fixture.never_closed
  ∧ original_code (refactor_code Fixture.library Fixture.unbalanced) = lit "("
  ∧ refactored_code (refactor_code Fixture.library Fixture.unbalanced) = lit "("
  ∧ suggestions (refactor_code Fixture.library Fixture.unbalanced)
    = [CodeAnalyzer.cross_mark
       :: lit " Syntax error: '(' was never closed (<unknown>, line 1)"].
Proof.
  assert (He : parse Fixture.library (code Fixture.unbalanced)
               = inl Fixture.never_closed) by (by vm_compute).
  split; [exact He|].
  destruct (unparseable_request_is_answered
              Fixture.library Fixture.unbalanced Fixture.never_closed He)
    as (H1 & H2 & H3 & _).
  split; [exact H1|]. split; [exact H2|]. exact H3.
Defined.

(** * Further properties *)

Set Warnings "-clear-no-such-hyp".

(** ** The analyzer's other findings, the suggestions and the smells *)

Module AnalyzerFindingsFacts.
Import CodeAnalyzer.

Lemma check_targets_lf lineno targets : ∀ self,
  long_functions (the_analysis (fold_left (check_target lineno) targets self))
  = long_functions (the_analysis self).
Proof.
  induction targets as [|tg targets IH]; intros self; simpl; [done|].
  rewrite IH. destruct tg; try done. simpl. by destruct (_ && _).
Qed.

Lemma visit_each_lf ss :
  Forall (λ s, ∀ self,
            long_functions (the_analysis (visit_stmt s self))
            = long_functions (the_analysis self)
              ++ omap long_function_of (function_defs s)) ss →
  ∀ self,
    long_functions
      (the_analysis (fold_left (λ self item, visit_stmt item self) ss self))
    = long_functions (the_analysis self)
      ++ omap long_function_of (flat_map function_defs ss).
Proof.
  induction 1 as [|s ss Hs _ IH]; intros self; simpl.
  - by rewrite app_nil_r.
  - rewrite IH, Hs, omap_app, (assoc_L (++)). done.
Qed.

Lemma visit_stmt_lf s : ∀ self,
  long_functions (the_analysis (visit_stmt s self))
  = long_functions (the_analysis self)
    ++ omap long_function_of (function_defs s).
Proof.
  induction s as [n a b l el IHb| |ts v l|t i b o IHb IHo|t b o IHb IHo
                 |t b o l IHb IHo| |] using stmt_ind';
    intros self; cbn [visit_stmt function_defs];
    try (by rewrite app_nil_r).
  - cbn [set_current_function the_analysis].
    rewrite (visit_each_lf _ IHb). cbn [omap list_omap long_function_of].
    fold (function_lines l el).
    destruct (15 <? function_lines l el);
      cbn [add_long_function set_current_function the_analysis long_functions];
      [|done].
    by rewrite <- (assoc_L (++)).
  - by rewrite check_targets_lf, app_nil_r.
  - rewrite (visit_each_lf _ IHo), (visit_each_lf _ IHb), omap_app.
    by rewrite (assoc_L (++)).
  - rewrite (visit_each_lf _ IHo), (visit_each_lf _ IHb), omap_app.
    by rewrite (assoc_L (++)).
  - rewrite (visit_each_lf _ IHo), (visit_each_lf _ IHb), omap_app.
    rewrite (assoc_L (++)). do 2 f_equal. by destruct (2 <? _).
Qed.

Lemma check_targets_uv lineno targets : ∀ self,
  unclear_variables (the_analysis (fold_left (check_target lineno) targets self))
  = unclear_variables (the_analysis self)
    ++ omap unclear_variable_of
         ((λ target, (current_function self, lineno, target)) <$> targets)
  ∧ current_function (fold_left (check_target lineno) targets self)
    = current_function self.
Proof.
  induction targets as [|tg targets IH]; intros self; simpl.
  - by rewrite app_nil_r.
  - destruct (IH (check_target lineno self tg)) as [-> ->].
    destruct tg; try done. cbn [check_target unclear_variable_of omap list_omap fmap list_fmap].
    fold (unclear id). destruct (unclear id); [|done].
    cbn [add_unclear_variable the_analysis unclear_variables current_function].
    rewrite <- (assoc_L (++)). split; [|done]. do 3 f_equal.
    by destruct (current_function self) as [[|c name]|].
Qed.

Lemma visit_each_uv ss :
  Forall (λ s, ∀ self, uv_spec s self (visit_stmt s self)) ss →
  ∀ self,
    let self' := fold_left (λ self item, visit_stmt item self) ss self in
    unclear_variables (the_analysis self')
    = unclear_variables (the_analysis self)
      ++ omap unclear_variable_of
           (flat_map (assignment_targets (current_function self)) ss)
    ∧ current_function self' = current_function self.
Proof.
  induction 1 as [|s ss Hs _ IH]; intros self; simpl.
  - by rewrite app_nil_r.
  - destruct (IH (visit_stmt s self)) as [-> ->].
    destruct (Hs self) as [-> ->].
    by rewrite omap_app, (assoc_L (++)).
Qed.

Lemma visit_stmt_uv s : ∀ self, uv_spec s self (visit_stmt s self).
Proof.
  induction s as [n a b l el IHb| |ts v l|t i b o IHb IHo|t b o IHb IHo
                 |t b o l IHb IHo| |] using stmt_ind';
    intros self; unfold uv_spec; cbn [visit_stmt assignment_targets];
    try (by rewrite app_nil_r).
  - cbn [set_current_function the_analysis current_function].
    match goal with
    | |- context [fold_left _ b ?r] =>
        destruct (visit_each_uv _ IHb r) as [-> _]
    end.
    split; [|done]. by destruct (15 <? _).
  - apply check_targets_uv.
  - destruct (visit_each_uv _ IHb self) as [Hb Hcb].
    match goal with
    | |- context [fold_left _ o ?r] =>
        destruct (visit_each_uv _ IHo r) as [-> ->]
    end.
    rewrite Hb, Hcb, omap_app, (assoc_L (++)). done.
  - destruct (visit_each_uv _ IHb self) as [Hb Hcb].
    match goal with
    | |- context [fold_left _ o ?r] =>
        destruct (visit_each_uv _ IHo r) as [-> ->]
    end.
    rewrite Hb, Hcb, omap_app, (assoc_L (++)). done.
  - match goal with
    | |- context [fold_left _ b ?r] =>
        destruct (visit_each_uv _ IHb r) as [Hb Hcb]
    end.
    match goal with
    | |- context [fold_left _ o ?r] =>
        destruct (visit_each_uv _ IHo r) as [-> ->]
    end.
    rewrite Hb, Hcb, omap_app, (assoc_L (++)).
    by destruct (2 <? _).
Qed.

Lemma visit_lf tree :
  long_functions (the_analysis (visit tree))
  = omap long_function_of (flat_map function_defs tree).
Proof.
  unfold visit. rewrite visit_each_lf; [done|].
  apply Forall_forall. intros s _. apply visit_stmt_lf.
Qed.

Lemma visit_uv tree :
  unclear_variables (the_analysis (visit tree))
  = omap unclear_variable_of (flat_map (assignment_targets None) tree).
Proof.
  unfold visit.
  destruct (visit_each_uv tree) with (self := init) as [-> _]; [|done].
  apply Forall_forall. intros s _. apply visit_stmt_uv.
Qed.

End AnalyzerFindingsFacts.

Module CodeSmellsFacts.
Import CodeSmells.

Lemma fold_left_append {A B} (keep : A → bool) (f : A → B) l : ∀ acc,
  fold_left (λ acc x, if keep x then acc ++ [f x] else acc) l acc
  = acc ++ (f <$> filter (λ x, keep x) l).
Proof.
  induction l as [|x l IH]; intros acc; simpl.
  - by rewrite app_nil_r.
  - rewrite IH, filter_cons. destruct (keep x).
    + rewrite decide_True by done. by rewrite <- (assoc_L (++)).
    + by rewrite decide_False by (by intros []).
Qed.

Lemma fold_left_append_all {A B} (f : A → B) l : ∀ acc,
  fold_left (λ acc x, acc ++ [f x]) l acc = acc ++ (f <$> l).
Proof.
  induction l as [|x l IH]; intros acc; simpl.
  - by rewrite app_nil_r.
  - by rewrite IH, <- (assoc_L (++)).
Qed.

Lemma detect_code_smells_filters analysis :
  detect_code_smells analysis
  = (long_method
       <$> filter (λ f, 15 <? CodeAnalyzer.lf_lines f)
             (CodeAnalyzer.long_functions analysis))
    ++ (unclear_variable <$> CodeAnalyzer.unclear_variables analysis)
    ++ (complex_conditional
          <$> filter (λ c, 3 <? CodeAnalyzer.cc_complexity c)
                (CodeAnalyzer.complex_conditionals analysis)).
Proof.
  unfold detect_code_smells.
  rewrite (fold_left_append (λ c, 3 <? CodeAnalyzer.cc_complexity c)
             complex_conditional).
  rewrite (fold_left_append_all unclear_variable).
  rewrite (fold_left_append (λ f, 15 <? CodeAnalyzer.lf_lines f) long_method).
  by rewrite app_nil_l, (assoc_L (++)).
Qed.

Lemma omap_long_function_of_long fs :
  Forall (λ f, 15 <? CodeAnalyzer.lf_lines f)
    (omap CodeAnalyzer.long_function_of fs).
Proof.
  induction fs as [|[[[n b] l] el] fs IH]; [constructor|].
  cbn [omap list_omap CodeAnalyzer.long_function_of].
  destruct (15 <? _) eqn:H; [|done]. constructor; [|done].
  simpl. by rewrite H.
Qed.

Lemma filter_all {A} (P : A → Prop) `{∀ x, Decision (P x)} l :
  Forall P l → filter P l = l.
Proof.
  induction 1 as [|x l Hx _ IH]; [done|].
  by rewrite filter_cons_True, IH.
Qed.
End CodeSmellsFacts.

Module SuggestionFacts.
Import CodeAnalyzer.

Lemma no_issues_not_a_finding (c : N) (rest : pystr) :
  c ≠ check_mark → no_issues ≠ c :: rest.
Proof. unfold no_issues. intros Hc [= Heq _]. by apply Hc. Qed.

Lemma complexity_nonnegative node : 0 ≤ check_conditional_complexity node.
Proof.
  rewrite CodeAnalyzerFacts.check_conditional_complexity_score.
  induction node as [op vs IH| | |l ops cs IHl IH| | | | | |] using expr_ind';
    cbn [score]; try lia.
  - assert (0 ≤ foldr Z.add 0 (map score vs)); [|lia].
    induction IH; simpl; lia.
  - assert (0 ≤ foldr Z.add 0 (map score cs)); [|lia].
    induction IH; simpl; lia.
Qed.

Lemma sum_of_zeros {A} (f : A → Z) l :
  Forall (λ x, f x = 0) l → foldr Z.add 0 (map f l) = 0.
Proof. induction 1 as [|x l Hx _ IH]; simpl; [done|]. by rewrite Hx, IH. Qed.

Lemma complexity_of_names op ids :
  check_conditional_complexity (BoolOp op ((λ id, Name id Load) <$> ids)) = 1.
Proof.
  cbn [check_conditional_complexity].
  rewrite CodeAnalyzerFacts.fold_left_count.
  rewrite sum_of_zeros; [done|].
  apply Forall_fmap, Forall_forall. done.
Qed.
End SuggestionFacts.

Module CompositionFacts.

Lemma clean_assignment_targets s : ∀ current,
  VariableRenamer.clean s →
  Forall (λ a, VariableRenamer.clean_target a.2) (assignment_targets current s).
Proof.
  induction s as [n a b l el IHb| |ts v l|t i b o IHb IHo|t b o IHb IHo
                 |t b o l IHb IHo| |] using stmt_ind';
    intros current Hc; cbn [assignment_targets VariableRenamer.clean] in *;
    try apply andb_prop_elim in Hc as [Hcb Hco];
    try (by constructor).
  - apply Forall_flat_map. apply VariableRenamerFacts.Forall_forallb in Hc.
    rewrite Forall_forall in *. intros s Hs. apply IHb; [done|]. by apply Hc.
  - apply Forall_fmap. apply VariableRenamerFacts.Forall_forallb in Hc.
    eapply Forall_impl; [exact Hc|]. done.
  - apply Forall_app. split; apply Forall_flat_map.
    + apply VariableRenamerFacts.Forall_forallb in Hcb.
      rewrite Forall_forall in *. intros s Hs. apply IHb; [done|]. by apply Hcb.
    + apply VariableRenamerFacts.Forall_forallb in Hco.
      rewrite Forall_forall in *. intros s Hs. apply IHo; [done|]. by apply Hco.
  - apply Forall_app. split; apply Forall_flat_map.
    + apply VariableRenamerFacts.Forall_forallb in Hcb.
      rewrite Forall_forall in *. intros s Hs. apply IHb; [done|]. by apply Hcb.
    + apply VariableRenamerFacts.Forall_forallb in Hco.
      rewrite Forall_forall in *. intros s Hs. apply IHo; [done|]. by apply Hco.
  - apply Forall_app. split; apply Forall_flat_map.
    + apply VariableRenamerFacts.Forall_forallb in Hcb.
      rewrite Forall_forall in *. intros s Hs. apply IHb; [done|]. by apply Hcb.
    + apply VariableRenamerFacts.Forall_forallb in Hco.
      rewrite Forall_forall in *. intros s Hs. apply IHo; [done|]. by apply Hco.
Qed.

Lemma unclear_but_not_renameable id :
  CodeAnalyzer.unclear id → ¬ VariableRenamer.renameable id → id ∈ VariableRenamer.left_alone.
Proof.
  unfold CodeAnalyzer.unclear, VariableRenamer.renameable.
  intros [Hlen Hnot]%andb_prop_elim Hren.
  rewrite andb_True, negb_True in Hren.
  apply negb_prop_elim in Hnot.
  rewrite !bool_decide_spec in *.
  destruct (decide (id ∈ VariableRenamer.allow_list)) as [Hin|Hout];
    [|by destruct Hren].
  clear Hren Hlen. unfold VariableRenamer.allow_list in Hin.
  cbn [fmap list_fmap] in Hin.
  repeat (apply elem_of_cons in Hin as [->|Hin]);
    try (by apply elem_of_nil in Hin);
    try (exfalso; apply Hnot; apply (bool_decide_unpack _); by vm_compute);
    apply (bool_decide_unpack _); by vm_compute.
Qed.
End CompositionFacts.

(** X1. The long-function findings of a tree are, outermost first and
    nested definitions included, exactly its function definitions whose
    [end_lineno - lineno] is more than 15 (a definition without an end
    line counts 0 lines), each with its name, that difference and its
    line; so every finding carries more than 15 lines. *)
Theorem long_functions_are_the_definitions_over_15_lines :
  ∀ tree,
    let found :=
      CodeAnalyzer.long_functions
        (CodeAnalyzer.the_analysis (CodeAnalyzer.visit tree)) in
    found
    = omap CodeAnalyzer.long_function_of (flat_map function_defs tree)
    ∧ Forall (λ f, 15 < CodeAnalyzer.lf_lines f) found.
Proof.
  intros tree found.
  assert (Hfound : found
    = omap CodeAnalyzer.long_function_of (flat_map function_defs tree)).
  { apply AnalyzerFindingsFacts.visit_lf. }
  split; [done|]. rewrite Hfound.
  eapply Forall_impl; [apply CodeSmellsFacts.omap_long_function_of_long|].
  intros f Hf. by apply Z.ltb_lt, Is_true_true.
Qed.

(** X2. The unclear-variable findings of a tree are, in traversal order,
    one for each assignment target that is a bare single-character name
    off the list i, j, k, x, y, z, with the line of the assignment and,
    as context, the whole name of the innermost function around it, or
    "global" outside any function. The visitor's [current_function] is
    the same after any statement as before it: a nested definition hands
    the outer name back, as in [nested_assignments]. *)
Theorem unclear_variables_carry_their_function :
  (∀ tree,
     CodeAnalyzer.unclear_variables
       (CodeAnalyzer.the_analysis (CodeAnalyzer.visit tree))
     = omap CodeAnalyzer.unclear_variable_of
         (flat_map (assignment_targets None) tree))
  ∧ (∀ s self,
       CodeAnalyzer.current_function (CodeAnalyzer.visit_stmt s self)
       = CodeAnalyzer.current_function self)
  ∧ (∀ c name, CodeAnalyzer.context_of (Some (c :: name)) = c :: name)
  ∧ CodeAnalyzer.context_of None = lit "global"
  ∧ (∀ name args line lineno end_lineno,
       CodeAnalyzer.unclear_variables
         (CodeAnalyzer.the_analysis
            (CodeAnalyzer.visit
               [FunctionDef (lit "compute" ++ name) args
                  [Assign [Fixture.q_Store] (Constant (CInt 1)) line]
                  lineno end_lineno]))
       = [{| CodeAnalyzer.uv_name := lit "q"; CodeAnalyzer.uv_line := line;
             CodeAnalyzer.uv_context := lit "compute" ++ name |}])
  ∧ CodeAnalyzer.unclear_variables
      (CodeAnalyzer.the_analysis
         (CodeAnalyzer.visit Fixture.nested_assignments))
    = [{| CodeAnalyzer.uv_name := lit "q"; CodeAnalyzer.uv_line := 1;
          CodeAnalyzer.uv_context := lit "global" |};
       {| CodeAnalyzer.uv_name := lit "r"; CodeAnalyzer.uv_line := 3;
          CodeAnalyzer.uv_context := lit "compute" |};
       {| CodeAnalyzer.uv_name := lit "s"; CodeAnalyzer.uv_line := 5;
          CodeAnalyzer.uv_context := lit "inner" |};
       {| CodeAnalyzer.uv_name := lit "t"; CodeAnalyzer.uv_line := 6;
          CodeAnalyzer.uv_context := lit "compute" |};
       {| CodeAnalyzer.uv_name := lit "w"; CodeAnalyzer.uv_line := 8;
          CodeAnalyzer.uv_context := lit "global" |}].
Proof.
  split; [apply AnalyzerFindingsFacts.visit_uv|].
  split; [intros s self; apply AnalyzerFindingsFacts.visit_stmt_uv|].
  split; [done|]. split; [done|]. split; [|by vm_compute].
  intros name args line lineno end_lineno.
  rewrite AnalyzerFindingsFacts.visit_uv. reflexivity.
Qed.

(** X4. On the analysis of any tree, [detect_code_smells] yields a
    LONG_METHOD for every long-function finding (its own test on the
    line count never drops one the analyzer reported), an
    UNCLEAR_VARIABLE for every unclear variable, and a
    COMPLEX_CONDITIONAL only for the conditionals of complexity above 3,
    in that order; on the analysis of a text that does not parse it
    yields nothing. *)
Theorem smells_of_an_analysis :
  (∀ tree,
     let analysis := CodeAnalyzer.the_analysis (CodeAnalyzer.visit tree) in
     CodeSmells.detect_code_smells analysis
     = (CodeSmells.long_method <$> CodeAnalyzer.long_functions analysis)
       ++ (CodeSmells.unclear_variable
             <$> CodeAnalyzer.unclear_variables analysis)
       ++ (CodeSmells.complex_conditional
             <$> filter (λ c, 3 < CodeAnalyzer.cc_complexity c)
                   (CodeAnalyzer.complex_conditionals analysis)))
  ∧ (∀ L code e,
       parse L code = inl e →
       CodeSmells.detect_code_smells (CodeAnalyzer.analyze_code L code) = []).
Proof.
  split.
  - intros tree analysis.
    rewrite CodeSmellsFacts.detect_code_smells_filters. f_equal; [|f_equal].
    + f_equal. apply CodeSmellsFacts.filter_all.
      subst analysis. rewrite AnalyzerFindingsFacts.visit_lf.
      apply CodeSmellsFacts.omap_long_function_of_long.
    + f_equal. apply list_filter_iff. intros c.
      rewrite Is_true_true. apply Z.ltb_lt.
  - intros L code e He. unfold CodeAnalyzer.analyze_code. rewrite He.
    by destruct e.
Qed.

(** The theorem at work on the text [(]. *)
Lemma smells_of_an_analysis_witness :
  parse Fixture.library (lit "(") = inl Fixture.never_closed
  ∧ CodeSmells.detect_code_smells
      (CodeAnalyzer.analyze_code Fixture.library (lit "(")) = [].
Proof.
  assert (He : parse Fixture.library (lit "(") = inl Fixture.never_closed)
    by (by vm_compute).
  split; [exact He|].
  exact (proj2 smells_of_an_analysis Fixture.library (lit "(")
           Fixture.never_closed He).
Defined.

(** X3. [get_suggestions] is never empty: one entry when the analysis
    carries an error, else one per finding, and the single "no issues"
    entry when there is no finding. That entry is among the suggestions
    exactly when there is neither an error nor a finding. *)
Theorem suggestions_count_the_findings :
  ∀ analysis,
    let findings :=
      (length (CodeAnalyzer.long_functions analysis)
       + length (CodeAnalyzer.unclear_variables analysis)
       + length (CodeAnalyzer.complex_conditionals analysis))%nat in
    length (CodeAnalyzer.get_suggestions analysis)
    = match CodeAnalyzer.error analysis with
      | Some _ => 1%nat
      | None => (1 `max` findings)%nat
      end
    ∧ (CodeAnalyzer.no_issues ∈ CodeAnalyzer.get_suggestions analysis
       ↔ CodeAnalyzer.error analysis = None ∧ findings = 0%nat).
Proof.
  intros [err lf uv cc] findings. unfold CodeAnalyzer.get_suggestions.
  cbn [CodeAnalyzer.error CodeAnalyzer.long_functions
       CodeAnalyzer.unclear_variables CodeAnalyzer.complex_conditionals] in *.
  destruct err as [e|].
  - split; [done|]. split; [|by intros [? _]].
    intros Hin%list_elem_of_singleton.
    by apply SuggestionFacts.no_issues_not_a_finding in Hin.
  - match goal with |- context [match ?l with [] => _ | _ :: _ => ?l end] =>
      set (suggestions := l) end.
    assert (Hlen : length suggestions = findings).
    { unfold suggestions, findings. rewrite !length_app, !length_map. lia. }
    assert (Hnot : CodeAnalyzer.no_issues ∉ suggestions).
    { unfold suggestions. rewrite !elem_of_app.
      intros [Hin|[Hin|Hin]];
        apply list_elem_of_In, in_map_iff in Hin as (x & Hx & _);
        symmetry in Hx;
        by apply SuggestionFacts.no_issues_not_a_finding in Hx. }
    clearbody suggestions. destruct suggestions as [|s suggestions].
    + simpl in Hlen. rewrite <- Hlen. split; [done|].
      split; [done|]. intros _. by apply list_elem_of_singleton.
    + rewrite <- Hlen. split; [done|].
      split; [done|]. by intros [_ ?].
Qed.

(** X5. The complexity of an expression is never negative, and a
    boolean operator over plain names scores 1 however many operands it
    has: the analyzer never reports an [if] on such a chain, while the
    simplifier extracts the chain as soon as it has three operands. *)
Theorem chains_of_names_are_never_complex :
  (∀ node, 0 ≤ CodeAnalyzer.check_conditional_complexity node)
  ∧ (∀ op ids,
       CodeAnalyzer.check_conditional_complexity
         (BoolOp op ((λ id, Name id Load) <$> ids)) = 1)
  ∧ (∀ op ids lineno,
       CodeAnalyzer.complex_conditionals
         (CodeAnalyzer.the_analysis
            (CodeAnalyzer.visit
               [If (BoolOp op ((λ id, Name id Load) <$> ids)) [Pass] [] lineno]))
       = [])
  ∧ (∀ op a b c ids lineno self,
       (ConditionalSimplifier.extract_test
          (BoolOp op ((λ id, Name id Load) <$> a :: b :: c :: ids)) lineno self).1
       = Name (lit "should_execute_"
               ++ str_of_int (ConditionalSimplifier.conditional_count self + 1))
           Load).
Proof.
  split; [apply SuggestionFacts.complexity_nonnegative|].
  split; [apply SuggestionFacts.complexity_of_names|]. split.
  - intros op ids lineno. unfold CodeAnalyzer.visit.
    cbn [fold_left CodeAnalyzer.visit_stmt].
    by rewrite SuggestionFacts.complexity_of_names.
  - done.
Qed.

(** X6. After [rename_variables] the analyzer still finds unclear
    variables, and only these: a, b, c, d, m and n, the letters on the
    renamer's allow-list that are not on the analyzer's. *)
Theorem renaming_leaves_only_allow_listed_letters_unclear :
  ∀ tree,
    Forall (λ v, CodeAnalyzer.uv_name v ∈ VariableRenamer.left_alone)
      (CodeAnalyzer.unclear_variables
         (CodeAnalyzer.the_analysis
            (CodeAnalyzer.visit (VariableRenamer.visit tree).1))).
Proof.
  intros tree. rewrite AnalyzerFindingsFacts.visit_uv.
  pose proof (VariableRenamerFacts.visit_clean tree) as Hclean.
  apply VariableRenamerFacts.Forall_forallb in Hclean.
  assert (Htargets :
    Forall (λ a, VariableRenamer.clean_target a.2)
      (flat_map (assignment_targets None) (VariableRenamer.visit tree).1)).
  { apply Forall_flat_map. eapply Forall_impl; [exact Hclean|].
    intros s Hs. exact (CompositionFacts.clean_assignment_targets s None Hs). }
  induction Htargets as [|[[cf l] tg] targets Htg _ IH]; [constructor|].
  cbn [omap list_omap CodeAnalyzer.unclear_variable_of].
  destruct tg; try done.
  destruct (CodeAnalyzer.unclear id) eqn:Hid; [|done].
  constructor; [|done]. cbn [CodeAnalyzer.uv_name].
  apply CompositionFacts.unclear_but_not_renameable; [by rewrite Hid|].
  cbn [snd VariableRenamer.clean_target] in Htg. intros Hr.
  by destruct (VariableRenamer.renameable id).
Qed.

(** ** The conditional simplifier *)

Module ConditionalSimplifierFacts.
Import ConditionalSimplifier.

Lemma extract_test_complex test lineno self :
  complex_test test →
  extract_test test lineno self
  = (Name (lit "should_execute_" ++ str_of_int (conditional_count self + 1)) Load,
     {| changes_made :=
          changes_made self
          ++ [extracted_msg
                (lit "should_execute_" ++ str_of_int (conditional_count self + 1))];
        conditional_count := conditional_count self + 1;
        new_assignments :=
          new_assignments self
          ++ [Assign
                [Name (lit "should_execute_"
                       ++ str_of_int (conditional_count self + 1)) Store]
                test lineno] |}).
Proof.
  destruct test; try done. unfold complex_test, extract_test.
  by destruct (bool_decide _).
Qed.

Lemma extract_test_simple test lineno self :
  ¬ complex_test test → extract_test test lineno self = (test, self).
Proof.
  destruct test; try done. unfold complex_test, extract_test.
  by destruct (bool_decide _).
Qed.

(** Threading a property of the statements and one of the visitor
    through a block. *)
Lemma visit_each_both ss (P : stmt → Prop) (Q : t → Prop) :
  Forall (λ s, ∀ self, Q self →
                 P (visit_stmt s self).1 ∧ Q (visit_stmt s self).2) ss →
  ∀ self, Q self →
    Forall P (visit_each visit_stmt ss self).1
    ∧ Q (visit_each visit_stmt ss self).2.
Proof.
  induction 1 as [|s ss Hs _ IH]; intros self HQ; simpl; [done|].
  specialize (Hs self HQ). destruct (visit_stmt s self) as [s' self1].
  simpl in Hs. destruct Hs as [Hs HQ1]. specialize (IH self1 HQ1).
  destruct (visit_each visit_stmt ss self1) as [ss' self2]. simpl in *.
  destruct IH. split; [by constructor|done].
Qed.

Ltac simple_block IH :=
  match goal with
  | |- context [visit_each visit_stmt ?ss ?r] =>
      apply (visit_each_both ss (λ s, simple s) pending_simple) with (self := r)
        in IH; [|done];
      destruct (visit_each visit_stmt ss r); cbn [fst snd] in *;
      destruct IH as [?%VariableRenamerFacts.forallb_Forall ?]
  end.

Lemma visit_stmt_simple s : ∀ self,
  pending_simple self →
  simple (visit_stmt s self).1 ∧ pending_simple (visit_stmt s self).2.
Proof.
  induction s as [n a b l el IHb|v|ts v l|tg i b o IHb IHo|tst b o IHb IHo
                 |tst b o l IHb IHo|v|] using stmt_ind';
    intros self Hp; cbn [visit_stmt]; try done.
  - simple_block IHb.
    match goal with
    | Hr : pending_simple ?r |- context [new_assignments ?r ++ _] =>
        unfold pending_simple in Hr;
        destruct (new_assignments r) eqn:Hnew; cbn [fst snd simple]
    end.
    + split; [done|]. unfold pending_simple. by rewrite Hnew.
    + split; [|by constructor].
      rewrite forallb_app. apply andb_prop_intro.
      split; [by apply VariableRenamerFacts.forallb_Forall|done].
  - simple_block IHb. simple_block IHo. cbn [simple].
    split; [by apply andb_prop_intro|done].
  - simple_block IHb. simple_block IHo. cbn [simple].
    split; [by apply andb_prop_intro|done].
  - destruct (decide (complex_test tst)) as [Hc|Hc].
    + rewrite extract_test_complex by done.
      match goal with |- context [visit_each visit_stmt b ?r] =>
        assert (Hr : pending_simple r) end.
      { unfold pending_simple. cbn [new_assignments].
        apply Forall_app. split; [done|]. by repeat constructor. }
      simple_block IHb. simple_block IHo. cbn [simple complex_test].
      split; [|done]. by repeat (apply andb_prop_intro; split).
    + rewrite extract_test_simple by done.
      simple_block IHb. simple_block IHo. cbn [simple].
      split; [|done]. repeat (apply andb_prop_intro; split); try done.
      by apply negb_prop_intro.
Qed.

Lemma visit_each_same ss :
  Forall (λ s, ∀ self, idle self → visit_stmt s self = (s, self)) ss →
  ∀ self, idle self → visit_each visit_stmt ss self = (ss, self).
Proof.
  induction 1 as [|s ss Hs _ IH]; intros self Hidle; simpl; [done|].
  by rewrite Hs, IH.
Qed.

Lemma Forall_simple_same ss :
  Forall (λ s, simple s → ∀ self, idle self → visit_stmt s self = (s, self)) ss →
  forallb simple ss →
  Forall (λ s, ∀ self, idle self → visit_stmt s self = (s, self)) ss.
Proof.
  intros IH Hc%VariableRenamerFacts.Forall_forallb. rewrite Forall_forall in *.
  intros s Hs. apply IH; [done|]. by apply Hc.
Qed.

Lemma visit_stmt_same s :
  simple s → ∀ self, idle self → visit_stmt s self = (s, self).
Proof.
  induction s as [n a b l el IHb|v|ts v l|tg i b o IHb IHo|tst b o IHb IHo
                 |tst b o l IHb IHo|v|] using stmt_ind';
    intros Hs self Hidle; cbn [visit_stmt simple] in *; try done.
  - rewrite (visit_each_same b (Forall_simple_same b IHb Hs) self Hidle).
    by rewrite Hidle.
  - apply andb_prop_elim in Hs as [Hb Ho].
    rewrite (visit_each_same b (Forall_simple_same b IHb Hb) self Hidle).
    by rewrite (visit_each_same o (Forall_simple_same o IHo Ho) self Hidle).
  - apply andb_prop_elim in Hs as [Hb Ho].
    rewrite (visit_each_same b (Forall_simple_same b IHb Hb) self Hidle).
    by rewrite (visit_each_same o (Forall_simple_same o IHo Ho) self Hidle).
  - apply andb_prop_elim in Hs as [[Ht Hb]%andb_prop_elim Ho].
    rewrite extract_test_simple by (by apply negb_prop_elim).
    rewrite (visit_each_same b (Forall_simple_same b IHb Hb) self Hidle).
    by rewrite (visit_each_same o (Forall_simple_same o IHo Ho) self Hidle).
Qed.

Lemma visit_Module_simple tree :
  forallb simple (visit_Module tree init).1.
Proof.
  unfold visit_Module. apply VariableRenamerFacts.forallb_Forall.
  apply (visit_each_both tree (λ s, simple s) pending_simple);
    [|by constructor].
  apply Forall_forall. intros s _. apply visit_stmt_simple.
Qed.

Lemma visit_Module_same tree self :
  forallb simple tree → idle self → visit_Module tree self = (tree, self).
Proof.
  intros Hs Hidle. apply visit_each_same; [|done].
  apply Forall_forall. intros s Hin. apply visit_stmt_same.
  apply VariableRenamerFacts.Forall_forallb in Hs.
  rewrite Forall_forall in Hs. by apply Hs.
Qed.

End ConditionalSimplifierFacts.

Module ExtractionCountFacts.
Import ConditionalSimplifier.

Lemma extractable_cons s ss :
  extractable (s :: ss) = (extractable [s] + extractable ss)%nat.
Proof.
  unfold extractable. simpl. by rewrite app_nil_r, filter_app, length_app.
Qed.

Lemma extractable_nil : extractable [] = 0%nat.
Proof. done. Qed.

Lemma extractable_blocks (b o : list stmt) :
  length (filter (λ h, complex_test h.2)
            (flat_map CodeAnalyzer.if_statements b
             ++ flat_map CodeAnalyzer.if_statements o))
  = (extractable b + extractable o)%nat.
Proof. unfold extractable. by rewrite filter_app, length_app. Qed.

Lemma extractable_If test b o lineno :
  extractable [If test b o lineno]
  = ((if complex_test test then 1 else 0) + (extractable b + extractable o))%nat.
Proof.
  unfold extractable at 1. cbn [flat_map CodeAnalyzer.if_statements].
  rewrite app_nil_r, filter_cons. cbn [snd].
  destruct (complex_test test).
  - rewrite decide_True by done. cbn [length]. by rewrite extractable_blocks.
  - rewrite decide_False by (by intros []). by rewrite extractable_blocks.
Qed.

Lemma extractable_loop (s : stmt) b o :
  CodeAnalyzer.if_statements s
  = flat_map CodeAnalyzer.if_statements b
    ++ flat_map CodeAnalyzer.if_statements o →
  extractable [s] = (extractable b + extractable o)%nat.
Proof.
  intros Hs. unfold extractable at 1. cbn [flat_map].
  by rewrite app_nil_r, Hs, extractable_blocks.
Qed.

Lemma extractable_FunctionDef n a b l el :
  extractable [FunctionDef n a b l el] = extractable b.
Proof.
  unfold extractable. cbn [flat_map CodeAnalyzer.if_statements].
  by rewrite app_nil_r.
Qed.

Lemma extractions_from_app count k1 k2 :
  extractions_from count (k1 + k2)
  = extractions_from count k1 ++ extractions_from (count + Z.of_nat k1) k2.
Proof.
  unfold extractions_from. rewrite seq_app, fmap_app. f_equal.
  rewrite (Nat.add_comm 1 k1), <- (fmap_add_seq k1 1 k2), <- list_fmap_compose.
  apply list_fmap_ext. intros _ i _. unfold compose.
  by replace (count + Z.of_nat (k1 + i)) with (count + Z.of_nat k1 + Z.of_nat i)
    by lia.
Qed.

Lemma counted_refl self : counted [] self self.
Proof.
  unfold counted. rewrite extractable_nil. unfold extractions_from. simpl.
  rewrite app_nil_r. split; [lia|done].
Qed.

Lemma counted_trans (b : list stmt) ka (self1 self2 self3 : t) k :
  k = (ka + extractable b)%nat →
  conditional_count self2 = conditional_count self1 + Z.of_nat ka
  ∧ changes_made self2
    = changes_made self1 ++ extractions_from (conditional_count self1) ka →
  counted b self2 self3 →
  conditional_count self3 = conditional_count self1 + Z.of_nat k
  ∧ changes_made self3
    = changes_made self1 ++ extractions_from (conditional_count self1) k.
Proof.
  intros -> [Hc1 Hm1] [Hc2 Hm2].
  rewrite Hc2, Hm2, Hc1, Hm1, extractions_from_app, (assoc_L (++)).
  split; [lia|done].
Qed.

Lemma visit_each_counted ss :
  Forall (λ s, ∀ self, counted [s] self (visit_stmt s self).2) ss →
  ∀ self, counted ss self (visit_each visit_stmt ss self).2.
Proof.
  induction 1 as [|s ss Hs _ IH]; intros self; [apply counted_refl|].
  cbn [visit_each]. specialize (Hs self).
  destruct (visit_stmt s self) as [s' self1]. cbn [snd] in Hs.
  specialize (IH self1).
  destruct (visit_each visit_stmt ss self1) as [ss' self2]. cbn [snd] in *.
  unfold counted at 1.
  eapply (counted_trans ss); [apply extractable_cons|exact Hs|exact IH].
Qed.

Lemma visit_stmt_counted s : ∀ self, counted [s] self (visit_stmt s self).2.
Proof.
  induction s as [n a b l el IHb|v|ts v l|tg i b o IHb IHo|tst b o IHb IHo
                 |tst b o l IHb IHo|v|] using stmt_ind';
    intros self; cbn [visit_stmt snd]; try apply counted_refl.
  - pose proof (visit_each_counted b IHb self) as Hb.
    destruct (visit_each visit_stmt b self) as [b' self1]. cbn [snd] in Hb.
    unfold counted in *. rewrite extractable_FunctionDef.
    by destruct (new_assignments self1).
  - pose proof (visit_each_counted b IHb self) as Hb.
    destruct (visit_each visit_stmt b self) as [b' self1]. cbn [snd] in Hb.
    pose proof (visit_each_counted o IHo self1) as Ho.
    destruct (visit_each visit_stmt o self1) as [o' self2]. cbn [snd] in *.
    eapply (counted_trans o); [|exact Hb|exact Ho].
    by apply extractable_loop.
  - pose proof (visit_each_counted b IHb self) as Hb.
    destruct (visit_each visit_stmt b self) as [b' self1]. cbn [snd] in Hb.
    pose proof (visit_each_counted o IHo self1) as Ho.
    destruct (visit_each visit_stmt o self1) as [o' self2]. cbn [snd] in *.
    eapply (counted_trans o); [|exact Hb|exact Ho].
    by apply extractable_loop.
  - assert (Ht : ∀ r, extract_test tst l self = r →
              conditional_count r.2
              = conditional_count self
                + Z.of_nat (if complex_test tst then 1 else 0)
              ∧ changes_made r.2
                = changes_made self
                  ++ extractions_from (conditional_count self)
                       (if complex_test tst then 1 else 0)).
    { intros r <-. destruct (decide (complex_test tst)) as [Hc|Hc].
      - rewrite ConditionalSimplifierFacts.extract_test_complex by done.
        apply Is_true_true in Hc. by rewrite Hc.
      - rewrite ConditionalSimplifierFacts.extract_test_simple by done.
        apply Is_true_false in Hc. rewrite Hc.
        unfold extractions_from. simpl. rewrite app_nil_r. split; [lia|done]. }
    specialize (Ht _ eq_refl).
    destruct (extract_test tst l self) as [tst' self0]. cbn [snd] in Ht.
    pose proof (visit_each_counted b IHb self0) as Hb.
    destruct (visit_each visit_stmt b self0) as [b' self1]. cbn [snd] in Hb.
    pose proof (visit_each_counted o IHo self1) as Ho.
    destruct (visit_each visit_stmt o self1) as [o' self2]. cbn [snd] in *.
    assert (Hbo : counted (b ++ o) self0 self2).
    { eapply (counted_trans o); [|exact Hb|exact Ho].
      unfold extractable. by rewrite flat_map_app, filter_app, length_app. }
    unfold counted.
    eapply (counted_trans (b ++ o)); [|exact Ht|exact Hbo].
    rewrite extractable_If. f_equal.
    unfold extractable. by rewrite flat_map_app, filter_app, length_app.
Qed.
End ExtractionCountFacts.

Module ModuleLevelFacts.
Import ConditionalSimplifier.

Lemma visit_each_kept ss :
  Forall (λ s, function_defs s = [] → ∀ self,
            kept [s] [(visit_stmt s self).1] self (visit_stmt s self).2) ss →
  flat_map function_defs ss = [] →
  ∀ self,
    kept ss (visit_each visit_stmt ss self).1 self
      (visit_each visit_stmt ss self).2.
Proof.
  induction 1 as [|s ss Hs _ IH]; intros Hnone self.
  - split; [done|]. simpl. rewrite ExtractionCountFacts.extractable_nil. lia.
  - cbn [flat_map] in Hnone. apply app_eq_nil in Hnone as [Hs0 Hss0].
    specialize (Hs Hs0 self). specialize (IH Hss0). cbn [visit_each].
    destruct (visit_stmt s self) as [s' self1]. cbn [fst snd] in Hs.
    specialize (IH self1).
    destruct (visit_each visit_stmt ss self1) as [ss' self2]. cbn [fst snd] in *.
    destruct Hs as [Hs1 Hs2], IH as [IH1 IH2]. split.
    + intros current. specialize (Hs1 current). specialize (IH1 current).
      cbn [flat_map] in *. rewrite !app_nil_r in Hs1. by rewrite Hs1, IH1.
    + rewrite IH2, Hs2, (ExtractionCountFacts.extractable_cons s ss). lia.
Qed.

Lemma kept_blocks (b o b' o' : list stmt) (self self1 self2 : t) :
  kept b b' self self1 → kept o o' self1 self2 →
  (∀ current,
     flat_map (assignment_targets current) b'
     ++ flat_map (assignment_targets current) o'
     = flat_map (assignment_targets current) b
       ++ flat_map (assignment_targets current) o)
  ∧ length (new_assignments self2)
    = (length (new_assignments self) + (extractable b + extractable o))%nat.
Proof.
  intros [Hb1 Hb2] [Ho1 Ho2]. split.
  - intros current. by rewrite Hb1, Ho1.
  - rewrite Ho2, Hb2. lia.
Qed.

Lemma visit_stmt_kept s :
  function_defs s = [] → ∀ self,
    kept [s] [(visit_stmt s self).1] self (visit_stmt s self).2.
Proof.
  induction s as [n a b l el IHb|v|ts v l|tg i b o IHb IHo|tst b o IHb IHo
                 |tst b o l IHb IHo|v|] using stmt_ind';
    intros Hnone self; cbn [visit_stmt function_defs] in *; try done;
    try (split; [done|]; cbn [snd];
         change (extractable [?s]) with 0%nat; lia);
    apply app_eq_nil in Hnone as [Hb0 Ho0].
  - pose proof (visit_each_kept b IHb Hb0 self) as Hb.
    destruct (visit_each visit_stmt b self) as [b' self1]. cbn [fst snd] in Hb.
    pose proof (visit_each_kept o IHo Ho0 self1) as Ho.
    destruct (visit_each visit_stmt o self1) as [o' self2]. cbn [fst snd] in *.
    destruct (kept_blocks _ _ _ _ _ _ _ Hb Ho) as [H1 H2]. split.
    + intros current. cbn [flat_map assignment_targets].
      by rewrite !app_nil_r, H1.
    + by rewrite H2, (ExtractionCountFacts.extractable_loop _ b o).
  - pose proof (visit_each_kept b IHb Hb0 self) as Hb.
    destruct (visit_each visit_stmt b self) as [b' self1]. cbn [fst snd] in Hb.
    pose proof (visit_each_kept o IHo Ho0 self1) as Ho.
    destruct (visit_each visit_stmt o self1) as [o' self2]. cbn [fst snd] in *.
    destruct (kept_blocks _ _ _ _ _ _ _ Hb Ho) as [H1 H2]. split.
    + intros current. cbn [flat_map assignment_targets].
      by rewrite !app_nil_r, H1.
    + by rewrite H2, (ExtractionCountFacts.extractable_loop _ b o).
  - assert (Ht : length (new_assignments (extract_test tst l self).2)
                 = (length (new_assignments self)
                    + (if complex_test tst then 1 else 0))%nat).
    { destruct (decide (complex_test tst)) as [Hc|Hc].
      - rewrite ConditionalSimplifierFacts.extract_test_complex by done.
        apply Is_true_true in Hc. rewrite Hc. cbn [snd new_assignments].
        rewrite length_app. done.
      - rewrite ConditionalSimplifierFacts.extract_test_simple by done.
        apply Is_true_false in Hc. rewrite Hc. simpl. lia. }
    destruct (extract_test tst l self) as [tst' self0]. cbn [snd] in Ht.
    pose proof (visit_each_kept b IHb Hb0 self0) as Hb.
    destruct (visit_each visit_stmt b self0) as [b' self1]. cbn [fst snd] in Hb.
    pose proof (visit_each_kept o IHo Ho0 self1) as Ho.
    destruct (visit_each visit_stmt o self1) as [o' self2]. cbn [fst snd] in *.
    destruct (kept_blocks _ _ _ _ _ _ _ Hb Ho) as [H1 H2]. split.
    + intros current. cbn [flat_map assignment_targets].
      by rewrite !app_nil_r, H1.
    + rewrite H2, Ht, ExtractionCountFacts.extractable_If. lia.
Qed.
End ModuleLevelFacts.

Module HoistFacts.
Import ConditionalSimplifier.

Lemma renamed_tests_app ifs1 ifs2 : ∀ count,
  renamed_tests count (ifs1 ++ ifs2)
  = renamed_tests count ifs1
    ++ renamed_tests (count + Z.of_nat (length (filter (λ h, complex_test h.2) ifs1))) ifs2.
Proof.
  induction ifs1 as [|[l t] ifs1 IH]; intros count; cbn [app renamed_tests].
  - simpl. by rewrite Z.add_0_r.
  - rewrite filter_cons. cbn [snd]. destruct (complex_test t).
    + rewrite decide_True by done. rewrite IH. cbn [length app].
      do 3 f_equal. lia.
    + rewrite decide_False by (by intros []). by rewrite IH.
Qed.

Lemma hoisted_app ifs1 ifs2 : ∀ count,
  hoisted count (ifs1 ++ ifs2)
  = hoisted count ifs1
    ++ hoisted (count + Z.of_nat (length (filter (λ h, complex_test h.2) ifs1))) ifs2.
Proof.
  induction ifs1 as [|[l t] ifs1 IH]; intros count; cbn [app hoisted].
  - simpl. by rewrite Z.add_0_r.
  - rewrite filter_cons. cbn [snd]. destruct (complex_test t).
    + rewrite decide_True by done. rewrite IH. cbn [length app].
      do 3 f_equal. lia.
    + rewrite decide_False by (by intros []). by rewrite IH.
Qed.

Lemma hoists_nil self : hoists [] [] self self.
Proof.
  unfold hoists. cbn. rewrite app_nil_r. repeat split; try done. lia.
Qed.

Lemma hoists_app a a' b b' (self self1 self2 : t) :
  hoists a a' self self1 → hoists b b' self1 self2 →
  hoists (a ++ b) (a' ++ b') self self2.
Proof.
  intros (Hu1 & Hi1 & Hn1 & Hc1) (Hu2 & Hi2 & Hn2 & Hc2).
  unfold hoists. rewrite !map_app, !flat_map_app, Hu1, Hu2.
  rewrite renamed_tests_app, hoisted_app.
  fold (extractable a).
  rewrite <- Hc1, <- Hi1, <- Hi2.
  rewrite Hn2, Hn1, (assoc_L (++)), Hc2, Hc1.
  repeat split; try done.
  unfold extractable. rewrite flat_map_app, filter_app, length_app. lia.
Qed.

Lemma hoists_wrap (s s' : stmt) b b' o o' (self self1 self2 : t) :
  hoists b b' self self1 → hoists o o' self1 self2 →
  CodeAnalyzer.if_statements s
  = flat_map CodeAnalyzer.if_statements b
    ++ flat_map CodeAnalyzer.if_statements o →
  CodeAnalyzer.if_statements s'
  = flat_map CodeAnalyzer.if_statements b'
    ++ flat_map CodeAnalyzer.if_statements o' →
  (map untested b' = map untested b → map untested o' = map untested o →
   untested s' = untested s) →
  hoists [s] [s'] self self2.
Proof.
  intros Hb Ho Hs Hs' Hu.
  pose proof (hoists_app _ _ _ _ _ _ _ Hb Ho) as (_ & Hi & Hn & Hc).
  destruct Hb as (Hub & _), Ho as (Huo & _).
  unfold hoists, extractable in *. cbn [map flat_map].
  rewrite !app_nil_r, Hs, Hs', <- !flat_map_app, Hu by done.
  done.
Qed.

Lemma hoists_If tst tst' lineno b b' o o' (self self0 self1 self2 : t) :
  extract_test tst lineno self = (tst', self0) →
  hoists b b' self0 self1 → hoists o o' self1 self2 →
  hoists [If tst b o lineno] [If tst' b' o' lineno] self self2.
Proof.
  intros Ht Hb Ho.
  pose proof (hoists_app _ _ _ _ _ _ _ Hb Ho) as (_ & Hi & Hn & Hc).
  destruct Hb as (Hub & _), Ho as (Huo & _).
  unfold hoists, extractable in *.
  cbn [map flat_map untested CodeAnalyzer.if_statements renamed_tests hoisted].
  rewrite !app_nil_r, Hub, Huo, <- !flat_map_app, Hi, Hn, Hc.
  rewrite filter_cons. cbn [snd app renamed_tests hoisted].
  destruct (decide (complex_test tst)) as [Hcx|Hcx].
  - rewrite ConditionalSimplifierFacts.extract_test_complex in Ht by done.
    injection Ht as <- <-. apply Is_true_true in Hcx. rewrite Hcx.
    cbn [conditional_count new_assignments length].
    rewrite <- (assoc_L (++)). repeat split; try done. lia.
  - rewrite ConditionalSimplifierFacts.extract_test_simple in Ht by done.
    injection Ht as <- <-. apply Is_true_false in Hcx. by rewrite Hcx.
Qed.

Lemma visit_each_hoists ss :
  Forall (λ s, function_defs s = [] → ∀ self,
            hoists [s] [(visit_stmt s self).1] self (visit_stmt s self).2) ss →
  flat_map function_defs ss = [] →
  ∀ self,
    hoists ss (visit_each visit_stmt ss self).1 self
      (visit_each visit_stmt ss self).2.
Proof.
  induction 1 as [|s ss Hs _ IH]; intros Hnone self; [apply hoists_nil|].
  cbn [flat_map] in Hnone. apply app_eq_nil in Hnone as [Hs0 Hss0].
  specialize (Hs Hs0 self). cbn [visit_each].
  destruct (visit_stmt s self) as [s' self1]. cbn [fst snd] in Hs.
  specialize (IH Hss0 self1).
  destruct (visit_each visit_stmt ss self1) as [ss' self2]. cbn [fst snd] in *.
  exact (hoists_app [s] [s'] ss ss' _ _ _ Hs IH).
Qed.

Lemma hoists_same (s : stmt) self :
  CodeAnalyzer.if_statements s = [] → hoists [s] [s] self self.
Proof.
  intros Hs. unfold hoists, extractable. cbn [flat_map].
  rewrite Hs. cbn. rewrite app_nil_r. repeat split; try done. lia.
Qed.

Lemma visit_stmt_hoists s :
  function_defs s = [] → ∀ self,
    hoists [s] [(visit_stmt s self).1] self (visit_stmt s self).2.
Proof.
  induction s as [n a b l el IHb|v|ts v l|tg i b o IHb IHo|tst b o IHb IHo
                 |tst b o l IHb IHo|v|] using stmt_ind';
    intros Hnone self; cbn [visit_stmt function_defs] in *; try done;
    try (by apply hoists_same);
    apply app_eq_nil in Hnone as [Hb0 Ho0].
  - pose proof (visit_each_hoists b IHb Hb0 self) as Hb.
    destruct (visit_each visit_stmt b self) as [b' self1]. cbn [fst snd] in Hb.
    pose proof (visit_each_hoists o IHo Ho0 self1) as Ho.
    destruct (visit_each visit_stmt o self1) as [o' self2]. cbn [fst snd] in *.
    apply (hoists_wrap _ _ _ _ _ _ _ _ _ Hb Ho); try done.
    intros Hub Huo. cbn [untested]. by rewrite Hub, Huo.
  - pose proof (visit_each_hoists b IHb Hb0 self) as Hb.
    destruct (visit_each visit_stmt b self) as [b' self1]. cbn [fst snd] in Hb.
    pose proof (visit_each_hoists o IHo Ho0 self1) as Ho.
    destruct (visit_each visit_stmt o self1) as [o' self2]. cbn [fst snd] in *.
    apply (hoists_wrap _ _ _ _ _ _ _ _ _ Hb Ho); try done.
    intros Hub Huo. cbn [untested]. by rewrite Hub, Huo.
  - destruct (extract_test tst l self) as [tst' self0] eqn:Ht.
    pose proof (visit_each_hoists b IHb Hb0 self0) as Hb.
    destruct (visit_each visit_stmt b self0) as [b' self1]. cbn [fst snd] in Hb.
    pose proof (visit_each_hoists o IHo Ho0 self1) as Ho.
    destruct (visit_each visit_stmt o self1) as [o' self2]. cbn [fst snd] in *.
    by apply (hoists_If _ _ _ _ _ _ _ _ _ _ _ Ht Hb Ho).
Qed.

(** A tree is its shape and its tests. *)
Lemma untested_ifs_length s :
  length (CodeAnalyzer.if_statements (untested s))
  = length (CodeAnalyzer.if_statements s).
Proof.
  assert (Hblock : ∀ ss,
    Forall (λ s, length (CodeAnalyzer.if_statements (untested s))
                 = length (CodeAnalyzer.if_statements s)) ss →
    length (flat_map CodeAnalyzer.if_statements (map untested ss))
    = length (flat_map CodeAnalyzer.if_statements ss)).
  { induction 1 as [|x ss Hx _ IH]; [done|].
    cbn [map flat_map]. by rewrite !length_app, Hx, IH. }
  induction s as [n a b l el IHb|v|ts v l|tg i b o IHb IHo|tst b o IHb IHo
                 |tst b o l IHb IHo|v|] using stmt_ind';
    cbn [untested CodeAnalyzer.if_statements]; try done;
    rewrite ?length_app; cbn [length]; rewrite ?length_app;
    rewrite ?(Hblock b), ?(Hblock o) by done; done.
Qed.

Lemma untested_block_ifs_length ss ss' :
  map untested ss' = map untested ss →
  length (flat_map CodeAnalyzer.if_statements ss')
  = length (flat_map CodeAnalyzer.if_statements ss).
Proof.
  revert ss'. induction ss as [|s ss IH]; intros [|s' ss'] [=]; [done|].
  cbn [flat_map]. rewrite !length_app. f_equal; [|by apply IH].
  by rewrite <- (untested_ifs_length s'), <- (untested_ifs_length s), H0.
Qed.

Lemma shape_and_tests_block ss :
  Forall (λ s, ∀ s', untested s' = untested s →
            CodeAnalyzer.if_statements s' = CodeAnalyzer.if_statements s →
            s' = s) ss →
  ∀ ss', map untested ss' = map untested ss →
    flat_map CodeAnalyzer.if_statements ss'
    = flat_map CodeAnalyzer.if_statements ss →
    ss' = ss.
Proof.
  induction 1 as [|s ss Hs _ IH]; intros [|s' ss'] [=]; [done|].
  cbn [flat_map]. intros Hi.
  apply app_inj_1 in Hi as [Hi1 Hi2].
  - f_equal; [by apply Hs|by apply IH].
  - by rewrite <- (untested_ifs_length s'), <- (untested_ifs_length s), H0.
Qed.

Lemma shape_and_tests s : ∀ s',
  untested s' = untested s →
  CodeAnalyzer.if_statements s' = CodeAnalyzer.if_statements s →
  s' = s.
Proof.
  induction s as [n a b l el IHb|v|ts v l|tg i b o IHb IHo|tst b o IHb IHo
                 |tst b o l IHb IHo|v|] using stmt_ind';
    intros [] [=]; cbn [CodeAnalyzer.if_statements]; intros Hi; subst;
    try done.
  - f_equal. by apply shape_and_tests_block.
  - apply app_inj_1 in Hi as [Hi1 Hi2];
      [|by apply untested_block_ifs_length].
    f_equal; by apply shape_and_tests_block.
  - apply app_inj_1 in Hi as [Hi1 Hi2];
      [|by apply untested_block_ifs_length].
    f_equal; by apply shape_and_tests_block.
  - injection Hi as -> Hi.
    apply app_inj_1 in Hi as [Hi1 Hi2];
      [|by apply untested_block_ifs_length].
    f_equal; by apply shape_and_tests_block.
Qed.

End HoistFacts.

(** X7. Simplifying is idempotent on trees: the first visit leaves no
    [if] whose test is a boolean operator over more than two operands,
    so a second visit, from a fresh simplifier, returns the tree as it is
    and the simplifier as it started (no record, counter 0, nothing
    waiting). *)
Theorem simplify_conditionals_is_idempotent :
  ∀ tree,
    let once := (ConditionalSimplifier.visit_Module tree
                   ConditionalSimplifier.init).1 in
    ConditionalSimplifier.visit_Module once ConditionalSimplifier.init
    = (once, ConditionalSimplifier.init).
Proof.
  intros tree once. apply ConditionalSimplifierFacts.visit_Module_same; [|done].
  apply ConditionalSimplifierFacts.visit_Module_simple.
Qed.

(** X8. A visit extracts one test for each [if] of the tree whose test
    is a boolean operator over more than two operands: the counter ends
    at their number, and the change records are one per extraction,
    naming [should_execute_1], [should_execute_2], ... in order. *)
Theorem extractions_are_numbered_in_traversal_order :
  ∀ tree,
    let run := ConditionalSimplifier.visit_Module tree
                 ConditionalSimplifier.init in
    ConditionalSimplifier.conditional_count run.2 = Z.of_nat (extractable tree)
    ∧ ConditionalSimplifier.changes_made run.2
      = (λ i, lit "Extracted complex conditional to variable 'should_execute_"
              ++ str_of_int (Z.of_nat i) ++ lit "'")
          <$> seq 1 (extractable tree).
Proof.
  intros tree run.
  destruct (ExtractionCountFacts.visit_each_counted tree) with
    (self := ConditionalSimplifier.init) as [Hc Hm].
  { apply Forall_forall. intros s _.
    apply ExtractionCountFacts.visit_stmt_counted. }
  split; [exact Hc|]. unfold run, ConditionalSimplifier.visit_Module.
  etrans; [exact Hm|].
  cbn [ConditionalSimplifier.changes_made ConditionalSimplifier.init
       ConditionalSimplifier.conditional_count app].
  unfold ConditionalSimplifier.extractions_from.
  apply list_fmap_ext. intros _ i _.
  unfold ConditionalSimplifier.extracted_msg.
  by rewrite Z.add_0_l, <- !(assoc_L (++)).
Qed.

(** X9. In a tree without function definitions no assignment is ever
    inserted. The visited tree is the tree with nothing but tests
    changed: each extracted test is now a load of its name
    ([should_execute_1], [should_execute_2], ... in traversal order) and
    every other test is as it was, so the assignments of the tree are
    those of the input. When the visit ends, [new_assignments] holds, in
    extraction order, the assignment of each extracted test to its name
    at the line of its [if], and nothing else. *)
Theorem outside_functions_no_assignment_is_inserted :
  (∀ tree,
     flat_map function_defs tree = [] →
     let run := ConditionalSimplifier.visit_Module tree
                  ConditionalSimplifier.init in
     let ifs := flat_map CodeAnalyzer.if_statements tree in
     map untested run.1 = map untested tree
     ∧ flat_map CodeAnalyzer.if_statements run.1 = renamed_tests 0 ifs
     ∧ (∀ tree',
          map untested tree' = map untested tree →
          flat_map CodeAnalyzer.if_statements tree' = renamed_tests 0 ifs →
          tree' = run.1)
     ∧ (∀ current,
          flat_map (assignment_targets current) run.1
          = flat_map (assignment_targets current) tree)
     ∧ ConditionalSimplifier.new_assignments run.2 = hoisted 0 ifs)
  ∧ ConditionalSimplifier.visit_Module Fixture.two_extractions
      ConditionalSimplifier.init
    = ([If (Fixture.should_execute_1 Load) [Pass] [] 1;
        While (Name (lit "x") Load)
          [If Fixture.two_comparisons [Pass]
             [If (Name (lit "should_execute_2") Load) [Pass] [] 6] 4] []],
       {| ConditionalSimplifier.changes_made :=
            [lit "Extracted complex conditional to variable 'should_execute_1'";
             lit "Extracted complex conditional to variable 'should_execute_2'"];
          ConditionalSimplifier.conditional_count := 2;
          ConditionalSimplifier.new_assignments :=
            [Assign [Fixture.should_execute_1 Store] Fixture.a_and_b_and_c 1;
             Assign [Name (lit "should_execute_2") Store]
               Fixture.a_and_b_and_c 6] |}).
Proof.
  split; [|by vm_compute].
  intros tree Hnone run ifs.
  destruct (HoistFacts.visit_each_hoists tree) with
    (self := ConditionalSimplifier.init) as (Hu & Hi & Hn & _); [|done|].
  { apply Forall_forall. intros s _. apply HoistFacts.visit_stmt_hoists. }
  destruct (ModuleLevelFacts.visit_each_kept tree) with
    (self := ConditionalSimplifier.init) as [Ht _]; [|done|].
  { apply Forall_forall. intros s _. apply ModuleLevelFacts.visit_stmt_kept. }
  split; [exact Hu|]. split; [exact Hi|]. split; [|split; [exact Ht|exact Hn]].
  intros tree' Hu' Hi'. apply HoistFacts.shape_and_tests_block.
  - apply Forall_forall. intros s _. apply HoistFacts.shape_and_tests.
  - etrans; [exact Hu'|]. symmetry. exact Hu.
  - etrans; [exact Hi'|]. symmetry. exact Hi.
Qed.

(** The theorem at work on [two_extractions]. *)
Lemma outside_functions_no_assignment_is_inserted_witness :
  let tree := Fixture.two_extractions in
  let run := ConditionalSimplifier.visit_Module tree
               ConditionalSimplifier.init in
  flat_map function_defs tree = []
  ∧ map untested run.1 = map untested tree
  ∧ flat_map CodeAnalyzer.if_statements run.1
    = [(1, Fixture.should_execute_1 Load); (4, Fixture.two_comparisons);
       (6, Name (lit "should_execute_2") Load)]
  ∧ ConditionalSimplifier.new_assignments run.2
    = [Assign [Fixture.should_execute_1 Store] Fixture.a_and_b_and_c 1;
       Assign [Name (lit "should_execute_2") Store] Fixture.a_and_b_and_c 6].
Proof.
  intros tree run. split; [reflexivity|].
  destruct (proj1 outside_functions_no_assignment_is_inserted tree eq_refl)
    as (Hu & Hi & _ & _ & Hn).
  split; [exact Hu|]. split; [exact Hi|exact Hn].
Defined.

(** ** The dead-code cleaner *)

Module DeadCodeCleanerFacts.
Import DeadCodeCleaner.

Lemma stretch_nil self : stretch [] [] self self.
Proof.
  split; [set_solver|]. exists []. rewrite app_nil_r.
  split; [done|]. split; intros ? []%elem_of_nil.
Qed.

Lemma stretch_trans reads1 names1 reads2 names2 (self self1 self2 : t) :
  stretch reads1 names1 self self1 →
  stretch reads2 names2 self1 self2 →
  stretch (reads1 ++ reads2) (names1 ++ names2) self self2.
Proof.
  intros (Hu1 & added1 & Hc1 & Hof1 & Hall1) (Hu2 & added2 & Hc2 & Hof2 & Hall2).
  split; [rewrite Hu2, Hu1, list_to_set_app_L; set_solver|].
  exists (added1 ++ added2). split; [by rewrite Hc2, Hc1, (assoc_L (++))|].
  split.
  - intros m [Hm|Hm]%elem_of_app.
    + destruct (Hof1 m Hm) as (id & ? & ?). exists id. set_solver.
    + destruct (Hof2 m Hm) as (id & ? & ?). exists id. set_solver.
  - intros id [Hid|Hid]%elem_of_app Hout; apply elem_of_app.
    + left. apply Hall1; [done|]. rewrite Hu2 in Hout. set_solver.
    + right. by apply Hall2.
Qed.

Lemma stretch_after_reads reads1 reads2 names (self self1 self2 : t) :
  stretch reads1 [] self self1 →
  stretch reads2 names self1 self2 →
  stretch (reads1 ++ reads2) names self self2.
Proof. intros H1 H2. apply (stretch_trans _ [] _ _ _ _ _ H1 H2). Qed.

Lemma stretch_then_reads reads names (self self1 self2 : t) :
  stretch [] names self self1 →
  stretch reads [] self1 self2 →
  stretch reads names self self2.
Proof.
  intros H1 H2. pose proof (stretch_trans _ _ _ _ _ _ _ H1 H2) as H.
  by rewrite app_nil_r in H.
Qed.

Lemma visit_exprs es :
  Forall (λ e, ∀ self,
            stretch (VariableRenamer.load_names e) [] self (visit_expr e self)) es →
  ∀ self,
    stretch (concat (map VariableRenamer.load_names es)) [] self
      (fold_left (λ self v, visit_expr v self) es self).
Proof.
  induction 1 as [|e es He _ IH]; intros self; [apply stretch_nil|].
  cbn [fold_left map concat].
  eapply stretch_after_reads; [apply He|apply IH].
Qed.

Lemma visit_expr_stretch e : ∀ self,
  stretch (VariableRenamer.load_names e) [] self (visit_expr e self).
Proof.
  induction e as [op vs IH|l op r IHl IHr|op e IH|l ops cs IHl IH|f args IHf IH
                 |c|e a ctx IH|e s ctx IHe IHs|id ctx|es ctx IH] using expr_ind';
    intros self; cbn [visit_expr VariableRenamer.load_names].
  - by apply visit_exprs.
  - eapply stretch_after_reads; [apply IHl|apply IHr].
  - apply IH.
  - eapply stretch_after_reads; [apply IHl|by apply visit_exprs].
  - eapply stretch_after_reads; [apply IHf|by apply visit_exprs].
  - apply stretch_nil.
  - apply IH.
  - eapply stretch_after_reads; [apply IHe|apply IHs].
  - destruct ctx; cbn [visit_Name]; try apply stretch_nil.
    split; [cbn [used_vars]; set_solver|]. exists []. rewrite app_nil_r.
    split; [done|]. split; intros ? []%elem_of_nil.
  - by apply visit_exprs.
Qed.

Lemma check_target_stretch target self :
  stretch [] (from_option (λ id, [id]) [] (name_of target)) self
    (check_target self target).
Proof.
  destruct target; try apply stretch_nil.
  cbn [check_target name_of from_option].
  destruct (decide (id ∈ used_vars self)) as [Hin|Hout].
  - split; [set_solver|]. exists []. rewrite app_nil_r. split; [done|].
    split; [intros ? []%elem_of_nil|].
    by intros ? ->%list_elem_of_singleton.
  - split; [cbn [used_vars]; set_solver|]. exists [unused_msg id].
    split; [done|]. split.
    + intros m ->%list_elem_of_singleton. exists id. set_solver.
    + intros ? ->%list_elem_of_singleton _. set_solver.
Qed.

Lemma check_targets_stretch targets : ∀ self,
  stretch [] (omap name_of targets) self (fold_left check_target targets self).
Proof.
  induction targets as [|tg targets IH]; intros self; [apply stretch_nil|].
  cbn [fold_left].
  pose proof (stretch_trans _ _ _ _ _ _ _
                (check_target_stretch tg self)
                (IH (check_target self tg))) as H.
  by destruct tg.
Qed.

Lemma visit_stmts ss :
  Forall (λ s, ∀ self,
            stretch (stmt_loads s) (assigned_names s) self (visit_stmt s self)) ss →
  ∀ self,
    stretch (flat_map stmt_loads ss) (flat_map assigned_names ss) self
      (fold_left (λ self item, visit_stmt item self) ss self).
Proof.
  induction 1 as [|s ss Hs _ IH]; intros self; [apply stretch_nil|].
  cbn [fold_left flat_map]. eapply stretch_trans; [apply Hs|apply IH].
Qed.

Lemma flat_map_concat {A B} (f : A → list B) l :
  flat_map f l = concat (map f l).
Proof. induction l as [|x l IH]; simpl; [done|]. by rewrite IH. Qed.

Lemma visit_stmt_stretch s : ∀ self,
  stretch (stmt_loads s) (assigned_names s) self (visit_stmt s self).
Proof.
  induction s as [n a b l el IHb|v|ts v l|tg i b o IHb IHo|tst b o IHb IHo
                 |tst b o l IHb IHo|v|] using stmt_ind';
    intros self; cbn [visit_stmt stmt_loads assigned_names].
  - by apply visit_stmts.
  - destruct v; [apply visit_expr_stretch|apply stretch_nil].
  - eapply stretch_then_reads; [apply check_targets_stretch|].
    rewrite flat_map_concat.
    eapply stretch_after_reads; [|apply visit_expr_stretch].
    apply visit_exprs, Forall_forall. intros e _. apply visit_expr_stretch.
  - eapply stretch_after_reads.
    + eapply stretch_after_reads; apply visit_expr_stretch.
    + eapply stretch_trans; by apply visit_stmts.
  - eapply stretch_after_reads; [apply visit_expr_stretch|].
    eapply stretch_trans; by apply visit_stmts.
  - eapply stretch_after_reads; [apply visit_expr_stretch|].
    eapply stretch_trans; by apply visit_stmts.
  - apply visit_expr_stretch.
  - apply stretch_nil.
Qed.

Lemma visit_stretch tree :
  stretch (flat_map stmt_loads tree) (flat_map assigned_names tree)
    init (visit tree).
Proof.
  apply visit_stmts, Forall_forall. intros s _. apply visit_stmt_stretch.
Qed.
End DeadCodeCleanerFacts.

(** X10. When the traversal ends, [used_vars] holds exactly the
    identifiers the tree loads somewhere. *)
Theorem used_vars_ends_as_every_load :
  ∀ tree id,
    id ∈ DeadCodeCleaner.load_set tree
    ↔ id ∈ flat_map DeadCodeCleaner.stmt_loads tree.
Proof.
  intros tree id. unfold DeadCodeCleaner.load_set.
  destruct (DeadCodeCleanerFacts.visit_stretch tree) as [-> _].
  cbn [DeadCodeCleaner.used_vars DeadCodeCleaner.init].
  rewrite elem_of_union, elem_of_list_to_set. set_solver.
Qed.

(** X11. Every record of the cleaner is "Found unused variable" for a
    bare name some assignment of the tree assigns to; and a name the
    tree assigns to and loads nowhere is always reported. *)
Theorem never_loaded_targets_are_all_flagged :
  ∀ tree,
    let changes := DeadCodeCleaner.changes_made (DeadCodeCleaner.visit tree) in
    (∀ m, m ∈ changes →
       ∃ id, id ∈ flat_map DeadCodeCleaner.assigned_names tree
             ∧ m = lit "Found unused variable: " ++ id)
    ∧ (∀ id, id ∈ flat_map DeadCodeCleaner.assigned_names tree →
         id ∉ DeadCodeCleaner.load_set tree →
         (lit "Found unused variable: " ++ id) ∈ changes).
Proof.
  intros tree changes. unfold changes, DeadCodeCleaner.load_set.
  destruct (DeadCodeCleanerFacts.visit_stretch tree)
    as (_ & added & -> & Hof & Hall).
  cbn [DeadCodeCleaner.changes_made DeadCodeCleaner.init app].
  split; [exact Hof|exact Hall].
Qed.

(** The theorem at work on [p = 1] alone. *)
Lemma never_loaded_targets_are_all_flagged_witness :
  lit "p" ∈ flat_map DeadCodeCleaner.assigned_names [Fixture.p_is_1]
  ∧ (lit "p" ∉ DeadCodeCleaner.load_set [Fixture.p_is_1])
  ∧ ((lit "Found unused variable: " ++ lit "p")
     ∈ DeadCodeCleaner.changes_made (DeadCodeCleaner.visit [Fixture.p_is_1])).
Proof.
  assert (H1 : lit "p" ∈ flat_map DeadCodeCleaner.assigned_names [Fixture.p_is_1])
    by (apply (bool_decide_unpack _); by vm_compute).
  assert (H2 : lit "p" ∉ DeadCodeCleaner.load_set [Fixture.p_is_1])
    by (apply (bool_decide_unpack _); by vm_compute).
  split; [exact H1|]. split; [exact H2|].
  exact (proj2 (never_loaded_targets_are_all_flagged [Fixture.p_is_1])
           (lit "p") H1 H2).
Defined.

(** ** The method extractor *)

Module MethodExtractorFacts.
Import MethodExtractor.

Lemma has_duplicate_spec lines : ∀ seen_lines,
  has_duplicate lines seen_lines
  ↔ ¬ NoDup lines ∨ ∃ line, line ∈ lines ∧ line ∈ seen_lines.
Proof.
  induction lines as [|line rest IH]; intros seen; cbn [has_duplicate].
  - split; [done|]. intros [H|(x & []%elem_of_nil & _)].
    by destruct H; constructor.
  - destruct (decide (line ∈ seen)) as [Hin|Hout].
    + split; [|done]. intros _. right. exists line. set_solver.
    + rewrite IH, NoDup_cons. split.
      * intros [Hdup|(x & Hx & [->|Hs]%elem_of_cons)].
        -- left. tauto.
        -- left. tauto.
        -- right. exists x. set_solver.
      * intros [Hdup|(x & [->|Hx]%elem_of_cons & Hs)].
        -- destruct (decide (line ∈ rest)) as [Hl|Hl].
           ++ right. exists line. set_solver.
           ++ left. tauto.
        -- done.
        -- right. exists x. set_solver.
Qed.

Lemma has_duplicate_NoDup lines : has_duplicate lines [] ↔ ¬ NoDup lines.
Proof.
  rewrite has_duplicate_spec. split; [|tauto].
  intros [H|(x & _ & []%elem_of_nil)]. done.
Qed.

Lemma visit_each_reports ss :
  Forall (λ s, ∀ self,
            visit_stmt s self
            = self ++ omap duplicate_report (function_defs s)) ss →
  ∀ self,
    fold_left (λ self item, visit_stmt item self) ss self
    = self ++ omap duplicate_report (flat_map function_defs ss).
Proof.
  induction 1 as [|s ss Hs _ IH]; intros self; simpl.
  - by rewrite app_nil_r.
  - by rewrite IH, Hs, omap_app, (assoc_L (++)).
Qed.

Lemma visit_stmt_reports s : ∀ self,
  visit_stmt s self = self ++ omap duplicate_report (function_defs s).
Proof.
  induction s as [n a b l el IHb|v|ts v l|tg i b o IHb IHo|tst b o IHb IHo
                 |tst b o l IHb IHo|v|] using stmt_ind';
    intros self; cbn [visit_stmt function_defs];
    try (by rewrite app_nil_r).
  - rewrite (visit_each_reports _ IHb).
    cbn [omap list_omap duplicate_report].
    pose proof (has_duplicate_NoDup (function_body b)) as Hdup.
    destruct (has_duplicate (function_body b) []).
    + rewrite decide_False by (by apply Hdup). by rewrite <- (assoc_L (++)).
    + rewrite decide_True; [done|].
      destruct (decide (NoDup (function_body b))) as [|Hn]; [done|].
      by apply Hdup in Hn.
  - by rewrite (visit_each_reports _ IHo), (visit_each_reports _ IHb),
      omap_app, (assoc_L (++)).
  - by rewrite (visit_each_reports _ IHo), (visit_each_reports _ IHb),
      omap_app, (assoc_L (++)).
  - by rewrite (visit_each_reports _ IHo), (visit_each_reports _ IHb),
      omap_app, (assoc_L (++)).
Qed.

Lemma length_omap_le {A B} (f : A → option B) l :
  (length (omap f l) ≤ length l)%nat.
Proof.
  induction l as [|x l IH]; [done|]. cbn [omap list_omap].
  destruct (f x); simpl; lia.
Qed.

Lemma NoDup_omap_lookup {A B} `{EqDecision B} (g : A → option B) l :
  ¬ NoDup (omap g l)
  ↔ ∃ i j a b y,
      (i < j)%nat ∧ l !! i = Some a ∧ l !! j = Some b
      ∧ g a = Some y ∧ g b = Some y.
Proof.
  induction l as [|x l IH]; cbn [omap list_omap].
  - split; [intros H; destruct H; constructor|].
    by intros (i & j & a & b & y & _ & [=] & _).
  - assert (Hshift :
      (∃ i j a b y, (i < j)%nat ∧ l !! i = Some a ∧ l !! j = Some b
                    ∧ g a = Some y ∧ g b = Some y) →
      ∃ i j a b y, (i < j)%nat ∧ (x :: l) !! i = Some a
                   ∧ (x :: l) !! j = Some b ∧ g a = Some y ∧ g b = Some y).
    { intros (i & j & a & b & y & Hlt & Ha & Hb & Hga & Hgb).
      exists (S i), (S j), a, b, y. repeat split; try done. lia. }
    destruct (g x) as [y|] eqn:Hx.
    + rewrite NoDup_cons. split.
      * intros Hn. destruct (decide (y ∈ omap g l)) as [Hin|Hout].
        -- apply list_elem_of_omap in Hin as (b & Hb & Hgb).
           apply list_elem_of_lookup in Hb as [j Hj].
           exists 0%nat, (S j), x, b, y. repeat split; try done. lia.
        -- apply Hshift, IH. tauto.
      * intros (i & j & a & b & y' & Hlt & Ha & Hb & Hga & Hgb) [Hout Hnd].
        destruct i as [|i], j as [|j]; try lia; cbn in Ha, Hb.
        -- injection Ha as <-. rewrite Hx in Hga. injection Hga as <-.
           apply Hout, list_elem_of_omap. exists b. split; [|done].
           by apply list_elem_of_lookup_2 in Hb.
        -- revert Hnd. apply IH. exists i, j, a, b, y'.
           repeat split; try done. lia.
    + rewrite IH. split; [apply Hshift|].
      intros (i & j & a & b & y & Hlt & Ha & Hb & Hga & Hgb).
      destruct i as [|i], j as [|j]; try lia; cbn in Ha, Hb.
      * injection Ha as <-. congruence.
      * exists i, j, a, b, y. repeat split; try done. lia.
Qed.

Lemma same_dump (s s' : stmt) :
  (∃ y, match s with
        | Assign _ _ _ | Expr _ | Return _ => Some (dump s)
        | _ => None
        end = Some y
        ∧ match s' with
          | Assign _ _ _ | Expr _ | Return _ => Some (dump s')
          | _ => None
          end = Some y)
  ↔ same_pattern s s'.
Proof.
  destruct s, s'; cbn [same_pattern dump]; split;
    try (by intros (y & [=] & [=]));
    try (by intros []);
    try (intros (y & [= <-] & [= <-]); done);
    try (intros (y & [= <-] & [=]); by subst);
    try (intros [-> ->]; by eexists);
    try (intros ->; by eexists).
Qed.

Lemma function_body_repeats body :
  ¬ NoDup (function_body body) ↔ repeats_a_pattern body.
Proof.
  unfold function_body, repeats_a_pattern.
  rewrite NoDup_omap_lookup. split.
  - intros (i & j & a & b & y & Hlt & Ha & Hb & Hga & Hgb).
    exists i, j, a, b. repeat split; try done.
    apply same_dump. by exists y.
  - intros (i & j & a & b & Hlt & Ha & Hb & Hsame).
    apply same_dump in Hsame as (y & Hga & Hgb).
    by exists i, j, a, b, y.
Qed.

Lemma duplicate_report_Some name body lineno end_lineno r :
  duplicate_report (name, body, lineno, end_lineno) = Some r
  ↔ r = lit "Found duplicate code pattern in function '" ++ name ++ lit "'"
    ∧ repeats_a_pattern body.
Proof.
  unfold duplicate_report. rewrite <- function_body_repeats.
  destruct (decide (NoDup (function_body body))); split.
  - done.
  - by intros [_ ?].
  - by intros [= <-].
  - by intros [-> _].
Qed.

Lemma duplicate_report_None name body lineno end_lineno :
  duplicate_report (name, body, lineno, end_lineno) = None
  ↔ ¬ repeats_a_pattern body.
Proof.
  unfold duplicate_report. rewrite <- function_body_repeats.
  destruct (decide (NoDup (function_body body))) as [Hn|Hn]; split.
  - by intros _ H.
  - done.
  - done.
  - intros H. by destruct H.
Qed.
End MethodExtractorFacts.

(** X12. The loop of [MethodExtractor] breaks exactly when two dumps of
    the list agree. A visit reports, outermost first and once each,
    exactly the function definitions that have, at two places directly
    in their body, two assignments of one value to the same targets, the
    same expression statement, or two returns of one value, whatever the
    lines: never more records than definitions. Two copies of an
    assignment on different lines, of an expression statement or of a
    return are reported; repeated [pass], [if] and [while] statements,
    assignments that differ in target or value, and repeats inside an
    [if] of the body are not. *)
Theorem duplicate_pattern_reports :
  (∀ lines, MethodExtractor.has_duplicate lines [] ↔ ¬ NoDup lines)
  ∧ (∀ tree,
       MethodExtractor.visit tree
       = omap MethodExtractor.duplicate_report (flat_map function_defs tree))
  ∧ (∀ name body lineno end_lineno r,
       MethodExtractor.duplicate_report (name, body, lineno, end_lineno)
       = Some r
       ↔ r = lit "Found duplicate code pattern in function '" ++ name
             ++ lit "'"
         ∧ MethodExtractor.repeats_a_pattern body)
  ∧ (∀ name body lineno end_lineno,
       MethodExtractor.duplicate_report (name, body, lineno, end_lineno)
       = None
       ↔ ¬ MethodExtractor.repeats_a_pattern body)
  ∧ (∀ tree,
       (length (MethodExtractor.visit tree)
        ≤ length (flat_map function_defs tree))%nat)
  ∧ (∀ name args targets value line line' lineno end_lineno,
       MethodExtractor.visit
         [FunctionDef name args
            [Assign targets value line; Assign targets value line']
            lineno end_lineno]
       = [lit "Found duplicate code pattern in function '" ++ name ++ lit "'"])
  ∧ (∀ name args value lineno end_lineno,
       MethodExtractor.visit
         [FunctionDef name args [Expr value; Pass; Expr value]
            lineno end_lineno]
       = [lit "Found duplicate code pattern in function '" ++ name ++ lit "'"])
  ∧ (∀ name args value lineno end_lineno,
       MethodExtractor.visit
         [FunctionDef name args [Return value; Return value]
            lineno end_lineno]
       = [lit "Found duplicate code pattern in function '" ++ name ++ lit "'"])
  ∧ MethodExtractor.visit [Fixture.no_pattern] = []
  ∧ MethodExtractor.visit [Fixture.pattern_in_g]
    = [lit "Found duplicate code pattern in function 'g'"].
Proof.
  assert (Hvisit : ∀ tree,
    MethodExtractor.visit tree
    = omap MethodExtractor.duplicate_report (flat_map function_defs tree)).
  { intros tree. unfold MethodExtractor.visit.
    rewrite MethodExtractorFacts.visit_each_reports; [done|].
    apply Forall_forall. intros s _.
    apply MethodExtractorFacts.visit_stmt_reports. }
  assert (Htwice : ∀ (line : stmt) rest, ¬ NoDup (line :: line :: rest)).
  { intros line rest Hn. apply NoDup_cons in Hn as [Hn _]. apply Hn. by left. }
  split; [apply MethodExtractorFacts.has_duplicate_NoDup|].
  split; [exact Hvisit|].
  split; [apply MethodExtractorFacts.duplicate_report_Some|].
  split; [apply MethodExtractorFacts.duplicate_report_None|].
  split; [|split; [|split; [|split; [|split]]]].
  - intros tree. rewrite Hvisit. apply MethodExtractorFacts.length_omap_le.
  - intros name args targets value line line' lineno end_lineno.
    rewrite Hvisit. cbn [flat_map function_defs app omap list_omap
                         MethodExtractor.duplicate_report
                         MethodExtractor.function_body dump].
    by rewrite decide_False by apply Htwice.
  - intros name args value lineno end_lineno.
    rewrite Hvisit. cbn [flat_map function_defs app omap list_omap
                         MethodExtractor.duplicate_report
                         MethodExtractor.function_body dump].
    by rewrite decide_False by apply Htwice.
  - intros name args value lineno end_lineno.
    rewrite Hvisit. cbn [flat_map function_defs app omap list_omap
                         MethodExtractor.duplicate_report
                         MethodExtractor.function_body dump].
    by rewrite decide_False by apply Htwice.
  - by vm_compute.
  - by vm_compute.
Qed.

(** ** The duplicate-line detector, counted *)

Module DuplicateCountFacts.
Import Duplicates.

Lemma significant_texts_app a b :
  significant_texts (a ++ b) = significant_texts a ++ significant_texts b.
Proof. unfold significant_texts. by rewrite fmap_app, filter_app. Qed.

Lemma elem_of_significant_texts s lines :
  s ∈ significant_texts lines ↔ significant s ∧ s ∈ strip <$> lines.
Proof. unfold significant_texts. by rewrite list_elem_of_filter. Qed.

Lemma significant_texts_one l :
  significant_texts [l] = if significant (strip l) then [strip l] else [].
Proof.
  unfold significant_texts. cbn [fmap list_fmap].
  rewrite filter_cons, filter_nil. by destruct (significant (strip l)).
Qed.

Lemma line_count pre l :
  (length (if decide (significant (strip l) ∧ strip l ∈ strip <$> pre)
           then [(length pre, strip l)] else [])
   + size (list_to_set (significant_texts (pre ++ [l])) : gset pystr)
   = length (significant_texts [l])
     + size (list_to_set (significant_texts pre) : gset pystr))%nat.
Proof.
  rewrite significant_texts_app, list_to_set_app_L, significant_texts_one.
  destruct (significant (strip l)) eqn:Hs.
  - destruct (decide (strip l ∈ strip <$> pre)) as [Hin|Hout].
    + rewrite decide_True by done.
      replace (list_to_set (significant_texts pre) ∪ list_to_set [strip l])
        with (list_to_set (significant_texts pre) : gset pystr); [done|].
      assert (strip l ∈ (list_to_set (significant_texts pre) : gset pystr)).
      { rewrite elem_of_list_to_set, elem_of_significant_texts.
        by rewrite Hs. }
      set_solver.
    + rewrite decide_False by tauto.
      assert (strip l ∉ (list_to_set (significant_texts pre) : gset pystr)).
      { rewrite elem_of_list_to_set, elem_of_significant_texts. tauto. }
      rewrite size_union by set_solver.
      cbn [list_to_set]. rewrite union_empty_r_L, size_singleton.
      cbn [length]. lia.
  - rewrite decide_False by (by intros [[] _]).
    cbn [list_to_set length]. by rewrite union_empty_r_L.
Qed.

Lemma dups_from_count rest : ∀ pre,
  (length (dups_from pre rest)
   + size (list_to_set (significant_texts (pre ++ rest)) : gset pystr)
   = length (significant_texts rest)
     + size (list_to_set (significant_texts pre) : gset pystr))%nat.
Proof.
  induction rest as [|l rest IH]; intros pre.
  - by rewrite app_nil_r.
  - cbn [dups_from]. specialize (IH (pre ++ [l])).
    rewrite <- (assoc_L (++)) in IH. cbn [app] in IH.
    pose proof (line_count pre l) as Hl.
    assert (Hcons : significant_texts (l :: rest)
                    = significant_texts [l] ++ significant_texts rest)
      by apply (significant_texts_app [l] rest).
    rewrite Hcons, !length_app. lia.
Qed.

Lemma length_remove_dups_le {A} `{EqDecision A} (l : list A) :
  (length (remove_dups l) ≤ length l)%nat.
Proof.
  induction l as [|x l IH]; [done|]. cbn [remove_dups].
  destruct (decide_rel _ x l); simpl; lia.
Qed.

Lemma length_remove_dups_NoDup {A} `{EqDecision A} (l : list A) :
  length (remove_dups l) = length l ↔ NoDup l.
Proof.
  induction l as [|x l IH]; [by split; [constructor|]|].
  cbn [remove_dups]. rewrite NoDup_cons.
  pose proof (length_remove_dups_le l).
  destruct (decide_rel _ x l) as [Hin|Hout]; cbn [length].
  - split; [lia|tauto].
  - rewrite <- IH. split; [intros [=]; done|intros [_ ->]; done].
Qed.

Lemma size_significant (l : list pystr) :
  size (list_to_set l : gset pystr) = length (remove_dups l).
Proof.
  rewrite <- (size_list_to_set (C := gset pystr) (remove_dups l))
    by apply NoDup_remove_dups.
  f_equal. apply set_eq. intros x.
  by rewrite !elem_of_list_to_set, elem_of_remove_dups.
Qed.
End DuplicateCountFacts.

(** X13. The number of records of [extract_duplicate_functions] is the
    number of significant lines minus the number of distinct trimmed
    texts among them; there is no record exactly when the significant
    lines have pairwise different trimmed texts. *)
Theorem duplicate_records_count_the_repeats :
  ∀ code,
    let changes := (Duplicates.extract_duplicate_functions code).2 in
    let texts := Duplicates.significant_texts (split_nl code) in
    (length changes + length (remove_dups texts) = length texts)%nat
    ∧ (changes = [] ↔ NoDup texts).
Proof.
  intros code changes texts.
  assert (Hcount :
    (length changes + length (remove_dups texts) = length texts)%nat).
  { unfold changes, Duplicates.extract_duplicate_functions. cbn [snd].
    rewrite (DuplicatesFacts.scan_dups_from _ [] ∅ []).
    - cbn [app]. rewrite length_fmap.
      pose proof (DuplicateCountFacts.dups_from_count (split_nl code) []) as H.
      cbn [app] in H. rewrite !DuplicateCountFacts.size_significant in H.
      cbn in H. unfold texts. lia.
    - intros s _. rewrite lookup_empty. simpl. split.
      + intros []; done.
      + intros []%elem_of_nil. }
  split; [exact Hcount|].
  rewrite <- DuplicateCountFacts.length_remove_dups_NoDup. split.
  - intros Hnil. rewrite Hnil in Hcount. simpl in Hcount. done.
  - intros Hlen. apply length_zero_iff_nil. lia.
Qed.

(** ** The renamer's records and table *)

Module RenameTableFacts.
Import VariableRenamer.

Lemma renames_nil self self' :
  changes_made self' = changes_made self →
  renamed_vars self' = renamed_vars self →
  renames [] self self'.
Proof.
  intros Hc Ht. split; [by rewrite Hc, app_nil_r|].
  intros old. rewrite Ht. by rewrite decide_False by apply not_elem_of_nil.
Qed.

Lemma renames_trans names1 names2 (self self1 self2 : t) :
  renames names1 self self1 → renames names2 self1 self2 →
  renames (names1 ++ names2) self self2.
Proof.
  intros [Hc1 Ht1] [Hc2 Ht2]. split.
  - by rewrite Hc2, Hc1, fmap_app, (assoc_L (++)).
  - intros old. rewrite Ht2, Ht1.
    destruct (decide (old ∈ names2)), (decide (old ∈ names1));
      [rewrite decide_True by set_solver..|rewrite decide_False by set_solver];
      done.
Qed.

Lemma renamed_names_app a b :
  renamed_names (a ++ b) = renamed_names a ++ renamed_names b.
Proof. unfold renamed_names. by rewrite flat_map_app, filter_app. Qed.

Lemma renamed_names_blocks (b o : list stmt) :
  filter (λ id, renameable id)
    (flat_map DeadCodeCleaner.assigned_names b
     ++ flat_map DeadCodeCleaner.assigned_names o)
  = renamed_names b ++ renamed_names o.
Proof. unfold renamed_names. by rewrite filter_app. Qed.

Lemma rename_target_renames target self :
  renames (filter (λ id, renameable id)
             (from_option (λ id, [id]) [] (DeadCodeCleaner.name_of target)))
    self (rename_target target self).2.
Proof.
  destruct target; try (by apply renames_nil).
  cbn [DeadCodeCleaner.name_of from_option rename_target].
  rewrite filter_cons, filter_nil.
  destruct (renameable id) eqn:Hid.
  - rewrite decide_True by done. split; [done|].
    intros old. cbn [snd renamed_vars].
    destruct (decide (old ∈ [id])) as [->%list_elem_of_singleton|Hne].
    + by rewrite lookup_insert_eq.
    + rewrite lookup_insert_ne; [done|]. set_solver.
  - rewrite decide_False by (by intros []). by apply renames_nil.
Qed.

Lemma rename_targets_renames targets : ∀ self,
  renames (filter (λ id, renameable id)
             (omap DeadCodeCleaner.name_of targets))
    self (visit_each rename_target targets self).2.
Proof.
  induction targets as [|tg targets IH]; intros self;
    [by apply renames_nil|].
  cbn [visit_each].
  pose proof (rename_target_renames tg self) as H1.
  destruct (rename_target tg self) as [tg' self1]. cbn [snd] in H1.
  specialize (IH self1).
  destruct (visit_each rename_target targets self1) as [tgs' self2].
  cbn [snd] in *.
  pose proof (renames_trans _ _ _ _ _ H1 IH) as H.
  rewrite <- filter_app in H. by destruct tg.
Qed.

Lemma visit_each_renames ss :
  Forall (λ s, ∀ self, renames (renamed_names [s]) self (visit_stmt s self).2) ss →
  ∀ self, renames (renamed_names ss) self (visit_each visit_stmt ss self).2.
Proof.
  induction 1 as [|s ss Hs _ IH]; intros self; [by apply renames_nil|].
  cbn [visit_each]. specialize (Hs self).
  destruct (visit_stmt s self) as [s' self1]. cbn [snd] in Hs.
  specialize (IH self1).
  destruct (visit_each visit_stmt ss self1) as [ss' self2]. cbn [snd] in *.
  change (s :: ss) with ([s] ++ ss). rewrite renamed_names_app.
  apply (renames_trans _ _ _ _ _ Hs IH).
Qed.

Lemma renamed_names_one s :
  renamed_names [s]
  = filter (λ id, renameable id) (DeadCodeCleaner.assigned_names s).
Proof. unfold renamed_names. cbn [flat_map]. by rewrite app_nil_r. Qed.

Lemma visit_stmt_renames s : ∀ self,
  renames (renamed_names [s]) self (visit_stmt s self).2.
Proof.
  induction s as [n a b l el IHb|v|ts v l|tg i b o IHb IHo|tst b o IHb IHo
                 |tst b o l IHb IHo|v|] using stmt_ind';
    intros self; rewrite renamed_names_one;
    cbn [visit_stmt DeadCodeCleaner.assigned_names];
    try (by apply renames_nil).
  - match goal with |- context [visit_each visit_stmt b ?r] =>
      pose proof (visit_each_renames b IHb r) as Hb;
      destruct (visit_each visit_stmt b r) as [b' self2] end.
    cbn [snd] in *. destruct Hb as [Hc Ht]. split; [exact Hc|exact Ht].
  - pose proof (rename_targets_renames ts self) as H.
    by destruct (visit_each rename_target ts self).
  - pose proof (visit_each_renames b IHb self) as Hb.
    destruct (visit_each visit_stmt b self) as [b' self1]. cbn [snd] in Hb.
    pose proof (visit_each_renames o IHo self1) as Ho.
    destruct (visit_each visit_stmt o self1) as [o' self2]. cbn [snd] in *.
    rewrite renamed_names_blocks. apply (renames_trans _ _ _ _ _ Hb Ho).
  - pose proof (visit_each_renames b IHb self) as Hb.
    destruct (visit_each visit_stmt b self) as [b' self1]. cbn [snd] in Hb.
    pose proof (visit_each_renames o IHo self1) as Ho.
    destruct (visit_each visit_stmt o self1) as [o' self2]. cbn [snd] in *.
    rewrite renamed_names_blocks. apply (renames_trans _ _ _ _ _ Hb Ho).
  - pose proof (visit_each_renames b IHb self) as Hb.
    destruct (visit_each visit_stmt b self) as [b' self1]. cbn [snd] in Hb.
    pose proof (visit_each_renames o IHo self1) as Ho.
    destruct (visit_each visit_stmt o self1) as [o' self2]. cbn [snd] in *.
    rewrite renamed_names_blocks. apply (renames_trans _ _ _ _ _ Hb Ho).
Qed.

Lemma visit_renames tree : renames (renamed_names tree) init (visit tree).2.
Proof.
  apply visit_each_renames, Forall_forall. intros s _.
  apply visit_stmt_renames.
Qed.

Lemma lookup_if_weaken {A} (P Q : Prop) `{Decision P, Decision Q} (v new : A) :
  (P → Q) →
  (if decide P then Some v else None) = Some new →
  (if decide Q then Some v else None) = Some new.
Proof. intros HPQ. destruct (decide P), (decide Q); naive_solver. Qed.
End RenameTableFacts.

(** X14. The renamer records one change per renamed binding: its
    records are, in traversal order, one for each assignment target that
    is a bare single-character name off its allow-list. *)
Theorem one_change_record_per_renamed_target :
  ∀ tree,
    VariableRenamer.changes_made (VariableRenamer.visit tree).2
    = (λ old, lit "Renamed variable '" ++ old ++ lit "' to 'value_" ++ old
              ++ lit "'")
        <$> renamed_names tree.
Proof.
  intros tree. destruct (RenameTableFacts.visit_renames tree) as [-> _].
  cbn [VariableRenamer.changes_made VariableRenamer.init app].
  apply list_fmap_ext. intros _ old _.
  unfold VariableRenamer.renamed_msg, VariableRenamer.new_name.
  by rewrite <- !(assoc_L (++)).
Qed.

(** X15. When the traversal ends the rename table maps exactly the
    renamed targets of the whole module, each to its [value_] name; and
    it only grows along the module: what a first part of the module put
    in it is still there after the rest, function or not. *)
Theorem rename_table_holds_every_rename_of_the_module :
  (∀ tree old,
     VariableRenamer.renamed_vars (VariableRenamer.visit tree).2 !! old
     = if decide (old ∈ renamed_names tree)
       then Some (lit "value_" ++ old) else None)
  ∧ (∀ before after,
       VariableRenamer.renamed_vars (VariableRenamer.visit before).2
       ⊆ VariableRenamer.renamed_vars
           (VariableRenamer.visit (before ++ after)).2).
Proof.
  assert (Htable : ∀ tree old,
     VariableRenamer.renamed_vars (VariableRenamer.visit tree).2 !! old
     = if decide (old ∈ renamed_names tree)
       then Some (lit "value_" ++ old) else None).
  { intros tree old.
    destruct (RenameTableFacts.visit_renames tree) as [_ ->].
    by destruct (decide _). }
  split; [exact Htable|].
  intros before after. apply map_subseteq_spec. intros old new.
  rewrite !Htable. apply RenameTableFacts.lookup_if_weaken.
  rewrite RenameTableFacts.renamed_names_app, elem_of_app. tauto.
Qed.

(** ** Requests that select no rule *)

Module SelectionFacts.

Lemma filter_none {A} (P : A → Prop) `{∀ x, Decision (P x)} l :
  Forall (λ x, ¬ P x) l → filter P l = [].
Proof.
  induction 1 as [|x l Hx _ IH]; [done|]. by rewrite filter_cons_False.
Qed.

Lemma no_rule_selected (options : list pystr) :
  Forall (λ id, id ∉ rule_id <$> internal_order) options →
  filter (λ r, rule_id r ∈ options) internal_order = [].
Proof.
  intros Hnone. apply filter_none, Forall_forall. intros r Hr Hin.
  rewrite Forall_forall in Hnone. apply (Hnone _ Hin).
  by apply list_elem_of_fmap_2.
Qed.

End SelectionFacts.

(** X16. A request none of whose options is the identifier of a rule
    (an empty list, unknown identifiers) is answered with the text
    unchanged, no change record, and the suggestions of the analysis. *)
Theorem request_selecting_no_rule_returns_the_text :
  ∀ L request,
    Forall (λ id, id ∉ rule_id <$> internal_order) (refactor_options request) →
    refactor_code L request
    = {| original_code := code request;
         refactored_code := code request;
         changes_made := [];
         suggestions :=
           CodeAnalyzer.get_suggestions
             (CodeAnalyzer.analyze_code L (code request)) |}.
Proof.
  intros L [text options] Hnone. unfold refactor_code.
  cbn [code refactor_options] in *.
  rewrite RequestFacts.apply_rules_in_internal_order.
  by rewrite SelectionFacts.no_rule_selected.
Qed.

(** The theorem at work with two identifiers that name no rule. *)
Lemma request_selecting_no_rule_returns_the_text_witness :
  let request :=
    {| code := lit "(";
       refactor_options := [lit "rename"; lit "simplify"] |} in
  Forall (λ id, id ∉ rule_id <$> internal_order) (refactor_options request)
  ∧ refactor_code Fixture.library request
    = {| original_code := lit "(";
         refactored_code := lit "(";
         changes_made := [];
         suggestions :=
           CodeAnalyzer.get_suggestions
             (CodeAnalyzer.analyze_code Fixture.library (lit "(")) |}.
Proof.
  assert (H : Forall (λ id, id ∉ rule_id <$> internal_order)
                [lit "rename"; lit "simplify"]).
  { apply (bool_decide_unpack _). by vm_compute. }
  split; [exact H|].
  exact (request_selecting_no_rule_returns_the_text Fixture.library
           {| code := lit "("; refactor_options := [lit "rename"; lit "simplify"] |}
           H).
Defined.

(** ** Renaming and the analyzer; the renamed targets *)

Module RenamedAnalysisFacts.

Lemma score_visit_expr self e :
  CodeAnalyzer.score (VariableRenamer.visit_expr self e) = CodeAnalyzer.score e.
Proof.
  induction e as [op vs IH| | |l ops cs IHl IH| | | | |id ctx|] using expr_ind';
    try done; cbn [VariableRenamer.visit_expr CodeAnalyzer.score].
  - do 2 f_equal. induction IH as [|v vs Hv _ IHvs]; simpl; [done|].
    by rewrite Hv, IHvs.
  - rewrite IHl. do 3 f_equal. induction IH as [|v vs Hv _ IHvs]; simpl; [done|].
    by rewrite Hv, IHvs.
  - unfold VariableRenamer.visit_Name.
    by destruct (_ !! _), ctx.
Qed.

Lemma alike_app a a' b b' : alike a a' → alike b b' → alike (a ++ b) (a' ++ b').
Proof.
  intros [Ha1 Ha2] [Hb1 Hb2]. unfold alike.
  rewrite !flat_map_app, !omap_app, !CodeAnalyzerFacts.findings_app.
  by rewrite Ha1, Ha2, Hb1, Hb2.
Qed.

Lemma visit_each_alike ss :
  Forall (λ s, ∀ self, alike [s] [(VariableRenamer.visit_stmt s self).1]) ss →
  ∀ self, alike ss (visit_each VariableRenamer.visit_stmt ss self).1.
Proof.
  induction 1 as [|s ss Hs _ IH]; intros self; [done|].
  cbn [visit_each]. specialize (Hs self).
  destruct (VariableRenamer.visit_stmt s self) as [s' self1]. cbn [fst] in Hs.
  specialize (IH self1).
  destruct (visit_each VariableRenamer.visit_stmt ss self1) as [ss' self2].
  cbn [fst] in *. apply (alike_app [s] [s'] ss ss' Hs IH).
Qed.

Lemma alike_blocks (b b' o o' : list stmt) :
  alike b b' → alike o o' →
  omap CodeAnalyzer.long_function_of
    (flat_map function_defs b' ++ flat_map function_defs o')
  = omap CodeAnalyzer.long_function_of
      (flat_map function_defs b ++ flat_map function_defs o)
  ∧ CodeAnalyzer.findings
      (flat_map CodeAnalyzer.if_statements b'
       ++ flat_map CodeAnalyzer.if_statements o')
    = CodeAnalyzer.findings
        (flat_map CodeAnalyzer.if_statements b
         ++ flat_map CodeAnalyzer.if_statements o).
Proof.
  intros Hb Ho. destruct (alike_app _ _ _ _ Hb Ho) as [H1 H2].
  by rewrite !flat_map_app in H1, H2.
Qed.

Lemma visit_stmt_alike s : ∀ self,
  alike [s] [(VariableRenamer.visit_stmt s self).1].
Proof.
  induction s as [n a b l el IHb|v|ts v l|tg i b o IHb IHo|tst b o IHb IHo
                 |tst b o l IHb IHo|v|] using stmt_ind';
    intros self; cbn [VariableRenamer.visit_stmt]; try done.
  - match goal with |- context [visit_each _ b ?r] =>
      pose proof (visit_each_alike b IHb r) as [H1 H2];
      destruct (visit_each VariableRenamer.visit_stmt b r) as [b' self2] end.
    cbn [fst] in *. unfold alike.
    cbn [flat_map function_defs CodeAnalyzer.if_statements].
    rewrite !app_nil_r. cbn [omap list_omap CodeAnalyzer.long_function_of].
    by rewrite H1, H2.
  - by destruct (visit_each VariableRenamer.rename_target ts self).
  - pose proof (visit_each_alike b IHb self) as Hb.
    destruct (visit_each VariableRenamer.visit_stmt b self) as [b' self1].
    pose proof (visit_each_alike o IHo self1) as Ho.
    destruct (visit_each VariableRenamer.visit_stmt o self1) as [o' self2].
    cbn [fst] in *. unfold alike.
    cbn [flat_map function_defs CodeAnalyzer.if_statements].
    rewrite !app_nil_r. by apply alike_blocks.
  - pose proof (visit_each_alike b IHb self) as Hb.
    destruct (visit_each VariableRenamer.visit_stmt b self) as [b' self1].
    pose proof (visit_each_alike o IHo self1) as Ho.
    destruct (visit_each VariableRenamer.visit_stmt o self1) as [o' self2].
    cbn [fst] in *. unfold alike.
    cbn [flat_map function_defs CodeAnalyzer.if_statements].
    rewrite !app_nil_r. by apply alike_blocks.
  - pose proof (visit_each_alike b IHb self) as Hb.
    destruct (visit_each VariableRenamer.visit_stmt b self) as [b' self1].
    pose proof (visit_each_alike o IHo self1) as Ho.
    destruct (visit_each VariableRenamer.visit_stmt o self1) as [o' self2].
    cbn [fst] in *. unfold alike.
    cbn [flat_map function_defs CodeAnalyzer.if_statements].
    rewrite !app_nil_r.
    destruct (alike_blocks _ _ _ _ Hb Ho) as [H1 H2]. split; [done|].
    change ((l, ?t) :: ?x) with ([(l, t)] ++ x).
    rewrite (CodeAnalyzerFacts.findings_app
               [(l, VariableRenamer.visit_expr self tst)]),
      (CodeAnalyzerFacts.findings_app [(l, tst)]), H2. f_equal.
    unfold CodeAnalyzer.findings. rewrite !filter_cons, !filter_nil.
    cbn [snd]. rewrite score_visit_expr.
    destruct (decide _); [|done]. cbn [fmap list_fmap fst snd].
    by rewrite score_visit_expr.
Qed.
End RenamedAnalysisFacts.

(** X17. Renaming changes no other finding: the analyzer reports the
    same long functions and the same complex conditionals, with the same
    lines and scores, on the renamed tree as on the tree. *)
Theorem renaming_changes_no_other_finding :
  ∀ tree,
    let before := CodeAnalyzer.the_analysis (CodeAnalyzer.visit tree) in
    let after :=
      CodeAnalyzer.the_analysis
        (CodeAnalyzer.visit (VariableRenamer.visit tree).1) in
    CodeAnalyzer.long_functions after = CodeAnalyzer.long_functions before
    ∧ CodeAnalyzer.complex_conditionals after
      = CodeAnalyzer.complex_conditionals before.
Proof.
  intros tree before after. unfold before, after.
  rewrite !AnalyzerFindingsFacts.visit_lf.
  assert (Hcc : ∀ t,
    CodeAnalyzer.complex_conditionals
      (CodeAnalyzer.the_analysis (CodeAnalyzer.visit t))
    = CodeAnalyzer.findings (flat_map CodeAnalyzer.if_statements t)).
  { intros t. unfold CodeAnalyzer.visit.
    rewrite CodeAnalyzerFacts.visit_each_cc; [done|].
    apply Forall_forall. intros s _. apply CodeAnalyzerFacts.visit_stmt_cc. }
  rewrite !Hcc.
  apply (RenamedAnalysisFacts.visit_each_alike tree).
  apply Forall_forall. intros s _. apply RenamedAnalysisFacts.visit_stmt_alike.
Qed.

Module RenamedTargetsFacts.
Import VariableRenamer.

Lemma target_after self1 target self :
  well_formed self1 →
  DeadCodeCleaner.name_of (visit_expr self1 (rename_target target self).1)
  = renamed_to <$> DeadCodeCleaner.name_of target.
Proof.
  intros Hwf. destruct target; try done.
  unfold rename_target, renamed_to. cbn [DeadCodeCleaner.name_of fmap option_fmap option_map].
  destruct (renameable id) eqn:Hid; cbn [fst visit_expr]; unfold visit_Name.
  - destruct (renamed_vars self1 !! new_name id) as [v|] eqn:Hv; [|done].
    apply Hwf in Hv. by rewrite VariableRenamerFacts.new_name_not_renameable in Hv.
  - destruct (renamed_vars self1 !! id) as [v|] eqn:Hv; [|done].
    apply Hwf in Hv. by rewrite Hid in Hv.
Qed.

Lemma targets_after self1 targets : ∀ self,
  well_formed self1 →
  omap DeadCodeCleaner.name_of
    (map (visit_expr self1) (visit_each rename_target targets self).1)
  = renamed_to <$> omap DeadCodeCleaner.name_of targets.
Proof.
  induction targets as [|tg targets IH]; intros self Hwf; [done|].
  cbn [visit_each]. pose proof (target_after self1 tg self Hwf) as Htg.
  destruct (rename_target tg self) as [tg' self'].
  specialize (IH self' Hwf).
  destruct (visit_each rename_target targets self') as [tgs' self''].
  cbn [fst map omap list_omap] in *. rewrite Htg, IH.
  by destruct (DeadCodeCleaner.name_of tg).
Qed.

Lemma visit_each_names ss :
  Forall (λ s, ∀ self, well_formed self →
            DeadCodeCleaner.assigned_names (visit_stmt s self).1
            = renamed_to <$> DeadCodeCleaner.assigned_names s) ss →
  ∀ self, well_formed self →
    flat_map DeadCodeCleaner.assigned_names (visit_each visit_stmt ss self).1
    = renamed_to <$> flat_map DeadCodeCleaner.assigned_names ss
    ∧ well_formed (visit_each visit_stmt ss self).2.
Proof.
  induction 1 as [|s ss Hs _ IH]; intros self Hwf; [done|].
  cbn [visit_each]. specialize (Hs self Hwf).
  destruct (VariableRenamerFacts.visit_stmt_clean s self Hwf) as [_ Hwf1].
  destruct (visit_stmt s self) as [s' self1]. cbn [fst snd] in *.
  destruct (IH self1 Hwf1) as [IH1 IH2].
  destruct (visit_each visit_stmt ss self1) as [ss' self2]. cbn [fst snd] in *.
  split; [|done]. cbn [flat_map]. by rewrite fmap_app, Hs, IH1.
Qed.

Lemma visit_stmt_names s : ∀ self,
  well_formed self →
  DeadCodeCleaner.assigned_names (visit_stmt s self).1
  = renamed_to <$> DeadCodeCleaner.assigned_names s.
Proof.
  induction s as [n a b l el IHb|v|ts v l|tg i b o IHb IHo|tst b o IHb IHo
                 |tst b o l IHb IHo|v|] using stmt_ind';
    intros self Hwf; cbn [visit_stmt]; try done.
  - match goal with |- context [visit_each visit_stmt b ?r] =>
      destruct (visit_each_names b IHb r) as [Hb _]; [done|];
      destruct (visit_each visit_stmt b r) as [b' self2] end.
    done.
  - destruct (VariableRenamerFacts.rename_targets ts self Hwf) as [Hwf1 _].
    pose proof (λ r, targets_after r ts self) as Hts.
    destruct (visit_each rename_target ts self) as [ts' self1].
    cbn [fst snd DeadCodeCleaner.assigned_names] in *. by apply Hts.
  - destruct (visit_each_names b IHb self Hwf) as [Hb Hwf1].
    destruct (visit_each visit_stmt b self) as [b' self1]. cbn [fst snd] in *.
    destruct (visit_each_names o IHo self1 Hwf1) as [Ho _].
    destruct (visit_each visit_stmt o self1) as [o' self2]. cbn [fst snd] in *.
    cbn [DeadCodeCleaner.assigned_names]. by rewrite fmap_app, Hb, Ho.
  - destruct (visit_each_names b IHb self Hwf) as [Hb Hwf1].
    destruct (visit_each visit_stmt b self) as [b' self1]. cbn [fst snd] in *.
    destruct (visit_each_names o IHo self1 Hwf1) as [Ho _].
    destruct (visit_each visit_stmt o self1) as [o' self2]. cbn [fst snd] in *.
    cbn [DeadCodeCleaner.assigned_names]. by rewrite fmap_app, Hb, Ho.
  - destruct (visit_each_names b IHb self Hwf) as [Hb Hwf1].
    destruct (visit_each visit_stmt b self) as [b' self1]. cbn [fst snd] in *.
    destruct (visit_each_names o IHo self1 Hwf1) as [Ho _].
    destruct (visit_each visit_stmt o self1) as [o' self2]. cbn [fst snd] in *.
    cbn [DeadCodeCleaner.assigned_names]. by rewrite fmap_app, Hb, Ho.
Qed.
End RenamedTargetsFacts.

(** X18. In the renamed tree the bare names assigned to are, in order,
    those of the tree with each single-character name off the allow-list
    replaced by its [value_] name and every other name left as it was. *)
Theorem renamed_targets_and_no_other :
  ∀ tree,
    flat_map DeadCodeCleaner.assigned_names (VariableRenamer.visit tree).1
    = (λ id, if VariableRenamer.renameable id then lit "value_" ++ id else id)
        <$> flat_map DeadCodeCleaner.assigned_names tree.
Proof.
  intros tree.
  destruct (RenamedTargetsFacts.visit_each_names tree) with
    (self := VariableRenamer.init) as [H _]; [|done|exact H].
  apply Forall_forall. intros s _. apply RenamedTargetsFacts.visit_stmt_names.
Qed.

(** ** Where the simplifier inserts *)

(** X19. Visiting a function definition with no definition nested in it
    puts at the start of its body the assignments that waited before the
    function and then, in extraction order, the assignment of each test
    extracted in the body to its name; behind them comes the body with
    nothing but its extracted tests changed, each now a load of its
    name. The visit records one change per extraction and leaves nothing
    waiting. So the assignment of a test extracted at module level lands
    in the next function, as in [g_after_if_abc]. *)
Theorem function_body_receives_every_pending_assignment :
  (∀ name args body lineno end_lineno self,
     flat_map function_defs body = [] →
     let ifs := flat_map CodeAnalyzer.if_statements body in
     let count := ConditionalSimplifier.conditional_count self in
     ∃ body',
       ConditionalSimplifier.visit_stmt
         (FunctionDef name args body lineno end_lineno) self
       = (FunctionDef name args
            ((ConditionalSimplifier.new_assignments self ++ hoisted count ifs)
             ++ body')
            lineno end_lineno,
          {| ConditionalSimplifier.changes_made :=
               ConditionalSimplifier.changes_made self
               ++ ConditionalSimplifier.extractions_from count
                    (extractable body);
             ConditionalSimplifier.conditional_count :=
               count + Z.of_nat (extractable body);
             ConditionalSimplifier.new_assignments := [] |})
       ∧ map untested body' = map untested body
       ∧ flat_map CodeAnalyzer.if_statements body' = renamed_tests count ifs
       ∧ (∀ other,
            map untested other = map untested body →
            flat_map CodeAnalyzer.if_statements other
            = renamed_tests count ifs →
            other = body')
       ∧ (∀ current,
            flat_map (assignment_targets current) body'
            = flat_map (assignment_targets current) body))
  ∧ ConditionalSimplifier.visit_Module Fixture.g_after_if_abc
      ConditionalSimplifier.init
    = ([If (Fixture.should_execute_1 Load) [Pass] [] 1;
        FunctionDef (lit "g") []
          [Assign [Fixture.should_execute_1 Store] Fixture.a_and_b_and_c 1;
           Assign [Name (lit "should_execute_2") Store]
             Fixture.a_and_b_and_c 5;
           Assign [Name (lit "p") Store] (Constant (CInt 1)) 4;
           If (Name (lit "should_execute_2") Load) [Pass] [] 5]
          3 (Some 6)],
       {| ConditionalSimplifier.changes_made :=
            [lit "Extracted complex conditional to variable 'should_execute_1'";
             lit "Extracted complex conditional to variable 'should_execute_2'"];
          ConditionalSimplifier.conditional_count := 2;
          ConditionalSimplifier.new_assignments := [] |}).
Proof.
  split; [|by vm_compute].
  intros name args body lineno end_lineno self Hnone ifs count.
  cbn [ConditionalSimplifier.visit_stmt].
  destruct (HoistFacts.visit_each_hoists body) with (self := self)
    as (Hu & Hi & Hn & Hc); [|done|].
  { apply Forall_forall. intros s _. apply HoistFacts.visit_stmt_hoists. }
  destruct (ModuleLevelFacts.visit_each_kept body) with (self := self)
    as [Ht _]; [|done|].
  { apply Forall_forall. intros s _. apply ModuleLevelFacts.visit_stmt_kept. }
  destruct (ExtractionCountFacts.visit_each_counted body) with (self := self)
    as [_ Hm].
  { apply Forall_forall. intros s _.
    apply ExtractionCountFacts.visit_stmt_counted. }
  destruct (visit_each ConditionalSimplifier.visit_stmt body self)
    as [body' self1]. cbn [fst snd] in *.
  exists body'. fold ifs count in Hi, Hn, Hc, Hm.
  split; [|split; [exact Hu|split; [exact Hi|split; [|exact Ht]]]].
  - rewrite <- Hn, <- Hc, <- Hm.
    destruct self1 as [changes n pending].
    cbn [ConditionalSimplifier.new_assignments
         ConditionalSimplifier.changes_made
         ConditionalSimplifier.conditional_count].
    by destruct pending.
  - intros other Hu' Hi'. apply HoistFacts.shape_and_tests_block.
    + apply Forall_forall. intros s _. apply HoistFacts.shape_and_tests.
    + etrans; [exact Hu'|]. symmetry. exact Hu.
    + etrans; [exact Hi'|]. symmetry. exact Hi.
Qed.

(** The theorem at work on [g] of [g_after_if_abc], visited with the
    assignment of the module-level extraction waiting. *)
Lemma function_body_receives_every_pending_assignment_witness :
  let self :=
    (ConditionalSimplifier.visit_stmt Fixture.if_abc
       ConditionalSimplifier.init).2 in
  flat_map function_defs Fixture.g_body = []
  ∧ ConditionalSimplifier.new_assignments self
    = [Assign [Fixture.should_execute_1 Store] Fixture.a_and_b_and_c 1]
  ∧ ∃ body',
      ConditionalSimplifier.visit_stmt
        (FunctionDef (lit "g") [] Fixture.g_body 3 (Some 6)) self
      = (FunctionDef (lit "g") []
           ((ConditionalSimplifier.new_assignments self
             ++ hoisted 1 (flat_map CodeAnalyzer.if_statements Fixture.g_body))
            ++ body')
           3 (Some 6),
         {| ConditionalSimplifier.changes_made :=
              ConditionalSimplifier.changes_made self
              ++ ConditionalSimplifier.extractions_from 1
                   (extractable Fixture.g_body);
            ConditionalSimplifier.conditional_count :=
              1 + Z.of_nat (extractable Fixture.g_body);
            ConditionalSimplifier.new_assignments := [] |})
      ∧ map untested body' = map untested Fixture.g_body
      ∧ flat_map CodeAnalyzer.if_statements body'
        = [(5, Name (lit "should_execute_2") Load)].
Proof.
  intros self. split; [reflexivity|]. split; [reflexivity|].
  destruct (proj1 function_body_receives_every_pending_assignment
              (lit "g") [] Fixture.g_body 3 (Some 6) self eq_refl)
    as (body' & Hrun & Hu & Hi & _).
  exists body'. split; [exact Hrun|]. split; [exact Hu|exact Hi].
Defined.
